(** * spotifyd-epaper-display: change detection, text layout and rendering

    A shallow embedding of [main.py] (the update decision, the body of the
    poll loop and the dictionary that [get_metadata] builds), of
    [display_manager.py] (text wrapping, time formatting, the playing view,
    the idle view and the choice of the output driver) and of [config.py]
    (defaults, configuration file and environment overrides), with the
    properties of the specification, and further properties of the code,
    proved over it.

    Conventions of the embedding:
    - a Python [str] is the list of its Unicode code points;
    - a Python [int] is a [Z];
    - a Python [float] is an IEEE 754 binary64 value, [spec_float] with
      [prec = 53] and [emax = 1024];
    - the metadata [Dict[str, Any]] is a [gmap string pyval];
    - an exception is the [Raise] branch of the [result] monad;
    - the PIL image is the log of the draw calls made on it; the calls are
      recorded, not rasterised, and a font is its [textbbox]; of what PIL
      checks, the one refusal the views can meet is kept:
      [ImageDraw.rectangle] raises [ValueError] for a box whose second
      corner is left of or above the first.

    Left out: the D-Bus calls (the loop is run over the list of what
    [get_metadata] answered, and [get_metadata] over what the three [Get]
    calls answered), the rasterising and the hardware (the loop keeps the
    list of the images handed to [driver.display]), the file system, the
    panel library and the parsing done by [json.load], [int] and [float]
    (all given by a [Host]), the loading of fonts, logging, signals and the
    sleeps between rounds. *)

From Stdlib Require Import ZArith List Bool Ascii String QArith Qminmax Qround SpecFloat DecimalString.
From stdpp Require Import base option list gmap strings.

Local Open Scope Z_scope.

(** ** Python values *)

(** A code point. *)
Definition char := N.

(** A Python [str]. *)
Definition str := list char.

(** The [str] written by an ASCII literal of the source. *)
Definition lit (s : string) : str :=
  map N_of_ascii (list_ascii_of_string s).

(** The values that occur in a metadata dictionary: what [MPRISClient.get_metadata]
    stores ([str] and [int]) and [None], which is what [dict.get] answers for
    an absent key. *)
Inductive pyval :=
| VNone
| VInt (n : Z)
| VStr (s : str).

#[global] Instance pyval_eq_dec : EqDecision pyval.
Proof. solve_decision. Defined.

(** Python's [==] on these values. *)
Definition py_eq (a b : pyval) : bool := bool_decide (a = b).

(** Python's [!=]. *)
Definition py_ne (a b : pyval) : bool := negb (py_eq a b).

(** Truthiness of a value, as [not text] and [if metadata:] test it. *)
Definition py_truthy (v : pyval) : bool :=
  match v with
  | VNone => false
  | VInt n => negb (n =? 0)
  | VStr s => match s with [] => false | _ => true end
  end.

Abbreviation dict := (gmap string pyval).

(** [d.get(key)]: [None] when the key is absent. *)
Definition dict_get (d : dict) (key : string) : pyval :=
  default VNone (d !! key).

(** [d.get(key, dflt)]. *)
Definition dict_get_default (d : dict) (key : string) (dflt : pyval) : pyval :=
  default dflt (d !! key).

(** ** Update decision ([SpotifydDisplay._should_update]) *)

Definition _should_update (last_metadata metadata : option dict) : bool :=
  match metadata, last_metadata with
  | None, None => false
  | None, Some _ | Some _, None => true
  | Some metadata, Some last_metadata =>
      if py_ne (dict_get metadata "title") (dict_get last_metadata "title")
         || py_ne (dict_get metadata "artist") (dict_get last_metadata "artist")
      then true
      else if py_ne (dict_get metadata "status") (dict_get last_metadata "status")
      then true
      else if py_eq (dict_get metadata "status") (VStr (lit "Playing"))
      then true
      else false
  end.

(** ** Exceptions *)

Inductive pyerr :=
| TypeError
| AttributeError
| ZeroDivisionError
| OverflowError
| ValueError.

(** The outcome of a call: a value, or a raised exception. *)
Inductive result (A : Type) :=
| Ok (a : A)
| Raise (e : pyerr).
Arguments Ok {A} a.
Arguments Raise {A} e.

#[global] Instance result_ret : MRet result := fun A a => Ok a.
#[global] Instance result_bind : MBind result := fun A B k r =>
  match r with
  | Ok a => k a
  | Raise e => Raise e
  end.

(** [v // d] for an [int] divisor [d]; a [str] or [None] on the left is a
    [TypeError]. *)
Definition py_floordiv (v : pyval) (d : Z) : result Z :=
  match v with
  | VInt n => Ok (n / d)
  | _ => Raise TypeError
  end.

(** ** Python floats *)

Module PyFloat.

Definition prec : Z := 53.
Definition emax : Z := 1024.

Abbreviation float := spec_float.

Definition zero : float := S754_zero false.
Definition one : float := S754_finite false 4503599627370496 (-52).

Definition is_finite (x : float) : bool :=
  match x with
  | S754_zero _ | S754_finite _ _ _ => true
  | _ => false
  end.

Definition ltb (x y : float) : bool := SFltb x y.
Definition leb (x y : float) : bool := SFleb x y.

(** [float(n)]: the nearest binary64 value, ties to even; an [int] beyond
    the range of a float is an [OverflowError]. *)
Definition of_int (n : Z) : result float :=
  let f := binary_normalize prec emax n 0 false in
  if is_finite f then Ok f else Raise OverflowError.

(** [a / b] on two [int]s. CPython divides the two operands as doubles
    when both fit a double exactly (magnitude at most [2^53]); that is the
    path modelled, and the range that second counts obtained from 64-bit
    microsecond counters stay in. Beyond it CPython rounds the exact
    quotient once, which this definition does not follow. *)
Definition int_truediv (a b : Z) : result float :=
  if b =? 0 then Raise ZeroDivisionError
  else
    fa ← of_int a;
    fb ← of_int b;
    let q := SFdiv prec emax fa fb in
    if is_finite q then Ok q else Raise OverflowError.

(** [n * x] for an [int] [n] and a [float] [x]. *)
Definition int_mul (n : Z) (x : float) : result float :=
  fn ← of_int n;
  Ok (SFmul prec emax fn x).

(** [max(a, b)]: the first argument unless the second is greater. *)
Definition max (a b : float) : float := if ltb a b then b else a.

(** [min(a, b)]: the first argument unless the second is smaller. *)
Definition min (a b : float) : float := if ltb b a then b else a.

(** [int(x)]: truncation towards zero; NaN is a [ValueError], an infinity
    an [OverflowError]. *)
Definition to_int (x : float) : result Z :=
  match x with
  | S754_zero _ => Ok 0
  | S754_finite s m e =>
      let a := match e with
               | Zneg p => Z.shiftr (Zpos m) (Zpos p)
               | _ => Z.shiftl (Zpos m) e
               end in
      Ok (if s then - a else a)
  | S754_nan => Raise ValueError
  | S754_infinity _ => Raise OverflowError
  end.

(** The rational number a finite float stands for. *)
Definition to_Q (x : float) : Q :=
  match x with
  | S754_finite s m e =>
      let a := match e with
               | Zneg p => Qmake (Zpos m) (2 ^ p)
               | _ => inject_Z (Z.shiftl (Zpos m) e)
               end in
      if s then Qopp a else a
  | _ => 0%Q
  end.

(** Zero, or a finite float of at most 53 digits whose exponent a binary64
    value can have. *)
Definition small (x : float) : Prop :=
  match x with
  | S754_zero _ => True
  | S754_finite _ m e => Zdigits2 (Z.pos m) ≤ 53 ∧ e ≤ 971
  | _ => False
  end.

(** The shape of [float(n)] for an [int] of magnitude below [2^53]. *)
Definition operand (x : float) : Prop :=
  match x with
  | S754_zero _ => True
  | S754_finite _ m e => Zdigits2 (Z.pos m) ≤ 53 ∧ -52 ≤ e ≤ 0
  | _ => False
  end.

(** A float of the interval from [0.0] to [1.0]: [+0.0], or a positive
    [m * 2^e] that is at most one. *)
Definition unit_float (x : float) : Prop :=
  match x with
  | S754_zero false => True
  | S754_finite false m e => e ≤ 0 ∧ Z.pos m ≤ 2 ^ (- e)
  | _ => False
  end.

End PyFloat.

(** ** Strings *)

(** [str.isspace] on one code point (the whitespace of CPython's Unicode
    database), which is what [str.split()] and [str.strip()] separate on. *)
Definition is_space (c : char) : bool :=
  ((9 <=? c) && (c <=? 13) || (28 <=? c) && (c <=? 32)
   || (c =? 133) || (c =? 160) || (c =? 5760)
   || (8192 <=? c) && (c <=? 8202)
   || (c =? 8232) || (c =? 8233) || (c =? 8239) || (c =? 8287)
   || (c =? 12288))%N.

(** Whether a string is empty or begins with whitespace. *)
Definition at_word_end (s : str) : bool :=
  match s with
  | c :: _ => is_space c
  | [] => true
  end.

(** [s.split()]: the maximal runs of non-whitespace code points, in order. *)
Fixpoint split (s : str) : list str :=
  match s with
  | [] => []
  | c :: s' =>
      if is_space c then split s'
      else if at_word_end s' then [c] :: split s'
      else match split s' with
           | w :: ws => (c :: w) :: ws
           | [] => [[c]]
           end
  end.

(** [sep.join(ws)]. *)
Fixpoint join (sep : str) (ws : list str) : str :=
  match ws with
  | [] => []
  | [w] => w
  | w :: ws' => w ++ sep ++ join sep ws'
  end.

(** [s.lstrip()] and [s.strip()]. *)
Fixpoint lstrip (s : str) : str :=
  match s with
  | c :: s' => if is_space c then lstrip s' else s
  | [] => []
  end.

Definition strip (s : str) : str := rev (lstrip (rev (lstrip s))).

(** [str(n)] for an [int]. *)
Definition str_of_int (n : Z) : str := lit (NilZero.string_of_int (Z.to_int n)).

(** [f"{n:0{width}d}"]: sign, then the decimal digits padded on the left
    with zeros up to [width] characters in all. *)
Definition format_0d (width : nat) (n : Z) : str :=
  let sign := if n <? 0 then lit "-" else [] in
  let digits := str_of_int (Z.abs n) in
  sign ++ replicate (width - length sign - length digits)%nat 48%N ++ digits.

(** ** Canvas *)

(** A font, as far as layout needs it: the bounding box
    [(x0, y0, x1, y1)] that [ImageDraw.textbbox((0, 0), text, font)]
    answers. *)
Record Font := { textbbox : str → Z * Z * Z * Z }.

Inductive colour := White | Black.

(** Which of the three fonts of the display manager a text is drawn in. *)
Inductive font_name := FontLarge | FontMedium | FontSmall.

(** One call on the [ImageDraw] object. *)
Inductive draw_op :=
| DrawText (xy : Z * Z) (text : str) (fill : colour) (font : font_name)
| DrawRectangle (box : Z * Z * Z * Z) (outline : option colour) (fill : option colour).

(** A PIL image: how [Image.new] made it and the draw calls since, oldest
    first. *)
Record Image := {
  mode : str;
  size : Z * Z;
  background : colour;
  ops : list draw_op
}.

Definition Image_new (mode : str) (size : Z * Z) (color : colour) : Image :=
  {| mode := mode; size := size; background := color; ops := [] |}.

Definition draw (image : Image) (op : draw_op) : Image :=
  {| mode := mode image; size := size image;
     background := background image; ops := ops image ++ [op] |}.

(** [ImageDraw.rectangle(xy, fill, outline)]. Pillow refuses a box whose
    second corner lies left of or above the first ([x1 >= x0] and
    [y1 >= y0] are required) with a [ValueError]; otherwise the call is
    recorded. *)
Definition ImageDraw_rectangle (image : Image) (box : Z * Z * Z * Z)
    (outline fill : option colour) : result Image :=
  let '(x0, y0, x1, y1) := box in
  if (x1 <? x0) || (y1 <? y0) then Raise ValueError
  else Ok (draw image (DrawRectangle box outline fill)).

(** ** Display manager ([DisplayManager]) *)

Record DisplayManager := {
  display_type : str;      (* self.config.display_type *)
  driver_width : Z;        (* self.driver.width *)
  driver_height : Z;       (* self.driver.height *)
  font_large : Font;
  font_medium : Font;
  font_small : Font
}.

(** [bbox[2] - bbox[0]] of the measured text. *)
Definition text_width (font : Font) (text : str) : Z :=
  let '(x0, _, x1, _) := textbbox font text in x1 - x0.

(** One round of the loop of [_wrap_text] over the words; the state is
    [(lines, current_line)]. *)
Definition wrap_step (font : Font) (max_width : Z)
    (st : list str * list str) (word : str) : list str * list str :=
  let '(lines, current_line) := st in
  let test_line := join (lit " ") (current_line ++ [word]) in
  let width := text_width font test_line in
  if width <=? max_width then (lines, current_line ++ [word])
  else match current_line with
       | _ :: _ => (lines ++ [join (lit " ") current_line], [word])
       | [] => (lines ++ [word], current_line)
       end.

(** [DisplayManager._wrap_text]. A falsy [text] answers the one empty line whatever its
    type; any other value that is not a [str] has no [split]. *)
Definition _wrap_text (text : pyval) (font : Font) (max_width : Z) : result (list str) :=
  if negb (py_truthy text) then Ok [[]]
  else match text with
       | VStr text =>
           let words := split text in
           let '(lines, current_line) :=
             fold_left (wrap_step font max_width) words ([], []) in
           let lines :=
             match current_line with
             | _ :: _ => lines ++ [join (lit " ") current_line]
             | [] => lines
             end in
           Ok (match lines with _ :: _ => lines | [] => [[]] end)
       | _ => Raise AttributeError
       end.

(** [DisplayManager._format_time]. *)
Definition _format_time (seconds : Z) : str :=
  let minutes := seconds / 60 in
  let seconds := seconds mod 60 in
  format_0d 2 minutes ++ lit ":" ++ format_0d 2 seconds.

(** The loops [for line in lines: draw.text(...); y_pos += advance]. *)
Definition draw_lines (font : font_name) (margin advance : Z)
    (st : Image * Z) (lines : list str) : Image * Z :=
  fold_left (fun '(image, y_pos) line =>
               (draw image (DrawText (margin, y_pos) line Black font), y_pos + advance))
            lines st.

Definition glyph_play : str := [9654%N].   (* U+25B6 *)
Definition glyph_pause : str := [9208%N].  (* U+23F8 *)
Definition glyph_stop : str := [9209%N].   (* U+23F9 *)

(** The progress fraction: [min(1.0, max(0.0, position / length))]. *)
Definition progress_of (position length : Z) : result PyFloat.float :=
  progress ← PyFloat.int_truediv position length;
  Ok (PyFloat.min PyFloat.one (PyFloat.max PyFloat.zero progress)).

(** [int(bar_width * progress)]. *)
Definition fill_width_of (bar_width : Z) (progress : PyFloat.float) : result Z :=
  PyFloat.int_mul bar_width progress ≫= PyFloat.to_int.

(** The image both views start from. *)
Definition blank_image (self : DisplayManager) : Image :=
  Image_new (if py_ne (VStr (display_type self)) (VStr (lit "epaper"))
             then lit "RGB" else lit "L")
            (driver_width self, driver_height self) White.

(** The glyph that [update_display] picks for a status. *)
Definition status_icon_of (status : pyval) : str :=
  if py_eq status (VStr (lit "Playing")) then glyph_play
  else if py_eq status (VStr (lit "Paused")) then glyph_pause
  else glyph_stop.

(** [update_display], from the layout parameters to the album (the status
    glyph, at most two lines of title, one of artist, one of album). *)
Definition draw_track_text (self : DisplayManager)
    (title artist album status : pyval) (image : Image) : result Image :=
  let margin := 5 in
  let y_pos := margin in
  let status_icon := status_icon_of status in
  let image := draw image (DrawText (margin, y_pos) status_icon Black FontMedium) in
  let y_pos := y_pos + 25 in
  title_wrapped ← _wrap_text title (font_large self) (driver_width self - 2 * margin);
  let '(image, y_pos) :=
    draw_lines FontLarge margin 25 (image, y_pos) (take 2 title_wrapped) in
  artist_wrapped ← _wrap_text artist (font_medium self) (driver_width self - 2 * margin);
  let '(image, y_pos) :=
    draw_lines FontMedium margin 20 (image, y_pos) (take 1 artist_wrapped) in
  album_wrapped ← _wrap_text album (font_small self) (driver_width self - 2 * margin);
  let '(image, y_pos) :=
    draw_lines FontSmall margin 18 (image, y_pos) (take 1 album_wrapped) in
  Ok image.

(** [update_display], the block under [# Draw progress bar]; [position] and
    [length] are in seconds. On a display narrower than 10 the bar would
    span a negative width, and the first [rectangle] raises. *)
Definition draw_progress (self : DisplayManager)
    (position length : Z) (image : Image) : result Image :=
  let margin := 5 in
  if 0 <? length then
    let y_pos := driver_height self - 35 in
    progress ← progress_of position length;
    let bar_width := driver_width self - 2 * margin in
    let bar_height := 10 in
    let bar_x := margin in
    let bar_y := y_pos in
    image ← ImageDraw_rectangle image
               (bar_x, bar_y, bar_x + bar_width, bar_y + bar_height)
               (Some Black) (Some White);
    fill_width ← fill_width_of bar_width progress;
    image ← (if 0 <? fill_width
             then ImageDraw_rectangle image
                    (bar_x, bar_y, bar_x + fill_width, bar_y + bar_height)
                    None (Some Black)
             else Ok image);
    let time_text := _format_time position ++ lit " / " ++ _format_time length in
    Ok (draw image (DrawText (margin, bar_y + bar_height + 2) time_text Black FontSmall))
  else Ok image.

(** [DisplayManager.update_display]; the value is the image handed to
    [self.driver.display]. *)
Definition update_display (self : DisplayManager) (metadata : dict) : result Image :=
  let image := blank_image self in
  let title := dict_get_default metadata "title" (VStr (lit "Unknown Title")) in
  let artist := dict_get_default metadata "artist" (VStr (lit "Unknown Artist")) in
  let album := dict_get_default metadata "album" (VStr (lit "Unknown Album")) in
  let status := dict_get_default metadata "status" (VStr (lit "Stopped")) in
  position ← py_floordiv (dict_get_default metadata "position" (VInt 0)) 1000000;
  length ← py_floordiv (dict_get_default metadata "length" (VInt 0)) 1000000;
  image ← draw_track_text self title artist album status image;
  draw_progress self position length image.

(** [DisplayManager.show_idle]; the value is the image handed to
    [self.driver.display]. *)
Definition show_idle (self : DisplayManager) : Image :=
  let image := blank_image self in
  let text := lit "No music playing" in
  let '(x0, y0, x1, y1) := textbbox (font_medium self) text in
  let text_width := x1 - x0 in
  let text_height := y1 - y0 in
  let x := (driver_width self - text_width) / 2 in
  let y := (driver_height self - text_height) / 2 in
  draw image (DrawText (x, y) text Black FontMedium).

(** ** Poll loop ([SpotifydDisplay]) *)

(** What reached the output driver, and from which of the two views. *)
Inductive render :=
| PlayingView (image : Image)
| IdleView (image : Image).

Record SpotifydDisplay := {
  display_manager : DisplayManager;
  last_metadata : option dict;
  displayed : list render;   (* the calls of driver.display, oldest first *)
  logged : list pyerr        (* the exceptions the loop caught and logged *)
}.

Definition SpotifydDisplay_init (dm : DisplayManager) : SpotifydDisplay :=
  {| display_manager := dm; last_metadata := None; displayed := []; logged := [] |}.

(** One round of the [while self.running] loop of [_update_loop], given
    what [self.mpris_client.get_metadata()] answered. [if metadata:] is false
    for [None] and for the empty dictionary. An exception raised by the
    rendering is caught by the loop and logged, with [last_metadata] left as
    it was. *)
Definition _update_loop_tick (self : SpotifydDisplay) (metadata : option dict)
    : SpotifydDisplay :=
  let no_metadata :=
    match last_metadata self with
    | Some _ =>
        {| display_manager := display_manager self;
           last_metadata := None;
           displayed := displayed self ++ [IdleView (show_idle (display_manager self))];
           logged := logged self |}
    | None => self
    end in
  if _should_update (last_metadata self) metadata then
    match metadata with
    | Some d =>
        if bool_decide (d = ∅) then no_metadata
        else
          match update_display (display_manager self) d with
          | Ok image =>
              {| display_manager := display_manager self;
                 last_metadata := metadata;
                 displayed := displayed self ++ [PlayingView image];
                 logged := logged self |}
          | Raise e =>
              {| display_manager := display_manager self;
                 last_metadata := last_metadata self;
                 displayed := displayed self;
                 logged := logged self ++ [e] |}
          end
    | None => no_metadata
    end
  else self.

(** The loop over the successive answers of the metadata source. *)
Definition _update_loop (self : SpotifydDisplay) (fetched : list (option dict))
    : SpotifydDisplay :=
  fold_left _update_loop_tick fetched self.

(** ** Well-formed inputs *)

Definition is_text (v : option pyval) : bool :=
  match v with
  | None | Some (VStr _) => true
  | _ => false
  end.

Definition is_int64 (v : option pyval) : bool :=
  match v with
  | None => true
  | Some (VInt n) => (- 2 ^ 63 <=? n) && (n <? 2 ^ 63)
  | _ => false
  end.

(** A metadata dictionary whose fields, where present, are of the types
    [MPRISClient.get_metadata] gives them: [str] for the three texts, and
    for [position] and [length] the 64-bit integers of MPRIS. *)
Definition well_typed (metadata : dict) : bool :=
  is_text (metadata !! "title") && is_text (metadata !! "artist")
  && is_text (metadata !! "album")
  && is_int64 (metadata !! "position") && is_int64 (metadata !! "length").

(** A display the playing view can be drawn on: at least 10 wide, so that
    the progress bar, which spans the width less the two margins of 5, has
    its right edge not left of its left edge; of positive height; both
    sizes below [2^31], the range of the C [int] that PIL takes them in.
    Whether there is memory for an image of that size is not modelled. *)
Definition geometry_ok (self : DisplayManager) : bool :=
  (10 <=? driver_width self) && (driver_width self <? 2 ^ 31)
  && (0 <? driver_height self) && (driver_height self <? 2 ^ 31).

(** The [int] under a key, [0] when the key is absent. *)
Definition int_field (metadata : dict) (key : string) : Z :=
  match dict_get_default metadata key (VInt 0) with
  | VInt n => n
  | _ => 0
  end.

(** The defaults of [update_display] for absent keys. *)
Definition defaults : dict :=
  <["title" := VStr (lit "Unknown Title")]>
    (<["artist" := VStr (lit "Unknown Artist")]>
      (<["album" := VStr (lit "Unknown Album")]>
        (<["status" := VStr (lit "Stopped")]>
          (<["position" := VInt 0]> (<["length" := VInt 0]> ∅))))).

(** The snapshot with every absent key at its default. *)
Definition defaulted (metadata : dict) : dict := metadata ∪ defaults.

Definition is_rectangle (op : draw_op) : bool :=
  match op with
  | DrawRectangle _ _ _ => true
  | DrawText _ _ _ _ => false
  end.

(** A word: a non-empty string without whitespace. *)
Definition is_word (w : str) : bool :=
  match w with
  | [] => false
  | _ => forallb (fun c => negb (is_space c)) w
  end.

(** The words of the lines flushed so far and of the line being filled, for
    a state [(lines, current_line)] of the loop of [_wrap_text]. *)
Definition words_of (st : list str * list str) : list str :=
  concat (map split st.1) ++ st.2.

(** ** The progress bar as the specification words it *)

(** [clamp(position / length, 0, 1)] over the rationals. *)
Definition spec_progress (position length : Z) : Q :=
  Qmin 1%Q (Qmax 0%Q (Qmake position (Z.to_pos length))).

(** [floor(bar_width * clamp(position / length, 0, 1))]. *)
Definition spec_fill_width (bar_width position length : Z) : Z :=
  Qfloor (inject_Z bar_width * spec_progress position length).

(** ** What the properties observe *)

(** The text block of [update_display] for a snapshot, on a blank image. *)
Definition track_text_of (self : DisplayManager) (metadata : dict) : result Image :=
  draw_track_text self
    (dict_get_default metadata "title" (VStr (lit "Unknown Title")))
    (dict_get_default metadata "artist" (VStr (lit "Unknown Artist")))
    (dict_get_default metadata "album" (VStr (lit "Unknown Album")))
    (dict_get_default metadata "status" (VStr (lit "Stopped")))
    (blank_image self).

(** The widths [x1 - x0] of the rectangles filled in black without an
    outline, which is how the inner bar is drawn. *)
Definition fill_rect_widths (image : Image) : list Z :=
  omap (fun op =>
          match op with
          | DrawRectangle (x0, _, x1, _) None (Some Black) => Some (x1 - x0)
          | _ => None
          end) (ops image).

(** The code point of a decimal digit. *)
Definition digit (d : Z) : char := Z.to_N (48 + d).

(** ** Fixtures *)

(** A fixed-pitch metric of six by eleven pixels a code point, the shape of
    the built-in font [_load_fonts] falls back to. *)
Definition bitmap_font : Font :=
  {| textbbox := fun text => (0, 0, 6 * Z.of_nat (length text), 11) |}.

(** The display of [Config.DEFAULT_CONFIG]: virtual, 250 by 122. *)
Definition default_display : DisplayManager :=
  {| display_type := lit "virtual";
     driver_width := 250;
     driver_height := 122;
     font_large := bitmap_font;
     font_medium := bitmap_font;
     font_small := bitmap_font |}.

(** A display too narrow for the progress bar: virtual, 8 by 122. *)
Definition narrow_display : DisplayManager :=
  {| display_type := lit "virtual";
     driver_width := 8;
     driver_height := 122;
     font_large := bitmap_font;
     font_medium := bitmap_font;
     font_small := bitmap_font |}.

(** A snapshot as [get_metadata] builds it. *)
Definition track (title artist album status : string) (position length : Z) : dict :=
  <["title" := VStr (lit title)]>
    (<["artist" := VStr (lit artist)]>
      (<["album" := VStr (lit album)]>
        (<["length" := VInt length]>
          (<["position" := VInt position]>
            (<["status" := VStr (lit status)]>
              (<["art_url" := VStr []]> ∅)))))).

(** The track of test 3 of [test_display.py]: two minutes into 5:54. *)
Definition bohemian_rhapsody : dict :=
  track "Bohemian Rhapsody" "Queen" "A Night at the Opera" "Playing"
        120000000 354000000.

(** A track of half a second. *)
Definition subsecond_track : dict :=
  track "Test Track" "Test Artist" "Test Album" "Playing" 0 500000.

(** A track of a second and a half, 1.4 seconds in. *)
Definition late_track : dict :=
  track "Test Track" "Test Artist" "Test Album" "Playing" 1400000 1500000.

(** Forty-one seconds into a track of eighty. *)
Definition track_41_of_80 : dict :=
  track "Test Track" "Test Artist" "Test Album" "Playing" 41000000 80000000.

(** The same track twice, paused and playing. *)
Definition paused_A_X : dict := track "A" "X" "Demos" "Paused" 0 0.
Definition playing_A_X : dict := track "A" "X" "Demos" "Playing" 0 0.

(** The paused track with another album, position and length. *)
Definition paused_elsewhere : dict := track "A" "X" "B-sides" "Paused" 61000000 200000000.

(* ======================================================================= *)
(** * The code around the renderer *)
(* ======================================================================= *)

(** ** What the further properties observe *)

(** How an image was created: mode, size and background. *)
Definition canvas (image : Image) : str * (Z * Z) * colour :=
  (mode image, size image, background image).

(** The image of a rendering. *)
Definition image_of (r : render) : Image :=
  match r with
  | PlayingView image | IdleView image => image
  end.

(** The keys of a snapshot that [update_display] reads. *)
Definition displayed_keys : list string :=
  ["title"; "artist"; "album"; "status"; "position"; "length"].

(** A line break that the loop of [_wrap_text] had to make before [word]:
    the line with the word appended measured more than [max_width], or the
    line is a single word that by itself measures more than [max_width]. *)
Definition forced_break (font : Font) (max_width : Z) (line word : str) : Prop :=
  max_width < text_width font (line ++ lit " " ++ word)
  ∨ (split line = [line] ∧ max_width < text_width font line).

(** ** Metadata source ([MPRISClient.get_metadata]) *)

(** A value of the [Metadata] dictionary of MPRIS as pydbus unpacks it: a
    scalar, or a list of strings (the D-Bus type [as] of [xesam:artist]). *)
Inductive dbus_val :=
| DScalar (v : pyval)
| DStrings (l : list str).

(** The answers of the three [self.properties.Get] calls. *)
Record MprisReply := {
  Metadata : gmap string dbus_val;
  PlaybackStatus : pyval;
  Position : pyval
}.

(** [sep.join(v)]: of a list of strings, its elements; of a [str], its
    characters; anything else is not iterable. *)
Definition py_join (sep : str) (v : dbus_val) : result str :=
  match v with
  | DStrings l => Ok (join sep l)
  | DScalar (VStr s) => Ok (join sep (map (fun c => [c]) s))
  | DScalar _ => Raise TypeError
  end.

(** [MPRISClient.get_metadata] once a player is connected, from what the
    three [Get] calls answered ([None] when one of them raised). An
    exception is caught and makes the answer [None]; so does an empty
    [Metadata]. The search for a player and the reset of [self.player]
    after an exception are left out. *)
Definition get_metadata (reply : option MprisReply) : option (gmap string dbus_val) :=
  match reply with
  | None => None
  | Some reply =>
      let metadata := Metadata reply in
      let playback_status := PlaybackStatus reply in
      let position := Position reply in
      if bool_decide (metadata = ∅) then None
      else
        match py_join (lit ", ")
                (default (DStrings [lit "Unknown Artist"]) (metadata !! "xesam:artist")) with
        | Raise _ => None
        | Ok artist =>
            Some (<["title" := default (DScalar (VStr (lit "Unknown Title")))
                                       (metadata !! "xesam:title")]>
                 (<["artist" := DScalar (VStr artist)]>
                 (<["album" := default (DScalar (VStr (lit "Unknown Album")))
                                       (metadata !! "xesam:album")]>
                 (<["length" := default (DScalar (VInt 0)) (metadata !! "mpris:length")]>
                 (<["position" := DScalar position]>
                 (<["status" := DScalar playback_status]>
                 (<["art_url" := default (DScalar (VStr [])) (metadata !! "mpris:artUrl")]>
                  ∅)))))))
        end
  end.

Definition scalar_of (v : dbus_val) : option pyval :=
  match v with
  | DScalar v => Some v
  | DStrings _ => None
  end.

(** The dictionary of [get_metadata] as the loop and the display manager
    are modelled to receive it: the same dictionary, when all its values
    are scalars. *)
Definition as_snapshot (result : gmap string dbus_val) : option dict :=
  if bool_decide (map_Forall (fun _ v => is_Some (scalar_of v)) result)
  then Some (omap scalar_of result)
  else None.

Definition is_dbus_text (v : option dbus_val) : bool :=
  match v with
  | None | Some (DScalar (VStr _)) => true
  | _ => false
  end.

Definition is_dbus_int64 (v : option dbus_val) : bool :=
  match v with
  | None => true
  | Some (DScalar n) => is_int64 (Some n)
  | _ => false
  end.

Definition is_dbus_strings (v : option dbus_val) : bool :=
  match v with
  | None | Some (DStrings _) => true
  | _ => false
  end.

(** A reply of the types MPRIS prescribes for what [get_metadata] reads,
    where present: strings for title, album and art URL, a list of strings
    for the artists, 64-bit integers for length and position. *)
Definition mpris_typed (reply : MprisReply) : bool :=
  is_dbus_text (Metadata reply !! "xesam:title")
  && is_dbus_strings (Metadata reply !! "xesam:artist")
  && is_dbus_text (Metadata reply !! "xesam:album")
  && is_dbus_int64 (Metadata reply !! "mpris:length")
  && is_dbus_text (Metadata reply !! "mpris:artUrl")
  && is_int64 (Some (Position reply)).

(** The keys of the dictionary [get_metadata] builds. *)
Definition snapshot_keys : list string :=
  ["title"; "artist"; "album"; "length"; "position"; "status"; "art_url"].

(** ** Configuration ([config.py]) *)

(** A JSON value as [json.load] answers it; the values of the
    configuration dictionary are of this kind. *)
#[warnings="-register-all"]
Inductive json :=
| JNull
| JBool (b : bool)
| JInt (n : Z)
| JFloat (x : PyFloat.float)
| JStr (s : str)
| JList (l : list json)
| JObject (members : list (string * json)).

(** What the body of the [try] of [_load_config] did for a path: [open],
    [json.load] and [self.config.update(user_config)] went through, with the
    members of the object in file order; or one of them raised, after
    [update] had stored the given pairs (none when [open] or [json.load]
    raised, or when the JSON value is no sequence of pairs). Only the pairs
    with a [str] key are kept: attribute names are strings. *)
Inductive load_outcome :=
| Loaded (members : list (string * json))
| LoadRaised (stored : list (string * json)).

(** The world outside the program. *)
Record Host := {
  environ : gmap string str;          (* os.environ *)
  path_exists : str → bool;           (* Path(p).exists() *)
  user_config_path : str;             (* str(Path.home() / '.config' / 'spotifyd-display' / 'config.json') *)
  load : str → load_outcome;          (* the file at a path, as _load_config reads it *)
  int_of_str : str → option Z;        (* int(s); None for a ValueError *)
  float_of_str : str → option PyFloat.float   (* float(s); None for a ValueError *)
}.

Record Config := {
  config_file : option str;
  config : gmap string json
}.

Definition DEFAULT_CONFIG : gmap string json :=
  <["display_type" := JStr (lit "virtual")]>
    (<["display_width" := JInt 250]>
      (<["display_height" := JInt 122]>
        (<["epaper_model" := JStr (lit "epd2in13_V2")]>
          (<["update_interval" := JFloat PyFloat.one]>
            (<["log_level" := JStr (lit "INFO")]> ∅))))).

(** [dict.update] with pairs, in order. *)
Definition dict_update (d : gmap string json) (pairs : list (string * json))
    : gmap string json :=
  fold_left (fun d '(key, value) => <[key := value]> d) pairs d.

(** Truthiness of an optional [str]. *)
Definition str_truthy (s : option str) : bool :=
  match s with
  | Some (_ :: _) => true
  | _ => false
  end.

(** [Config._find_config_file]. *)
Definition _find_config_file (host : Host) (config_file : option str) : option str :=
  if str_truthy config_file then config_file
  else
    let env_config := environ host !! "SPOTIFYD_DISPLAY_CONFIG" in
    if str_truthy env_config && path_exists host (default [] env_config)
    then env_config
    else
      let user_config := user_config_path host in
      if path_exists host user_config then Some user_config
      else
        let system_config := lit "/etc/spotifyd-display/config.json" in
        if path_exists host system_config then Some system_config
        else None.

(** [Config._load_config]: an exception is caught and logged. *)
Definition _load_config (host : Host) (path : str) (config : gmap string json)
    : gmap string json :=
  match load host path with
  | Loaded members => dict_update config members
  | LoadRaised stored => dict_update config stored
  end.

(** The converters of [env_mapping]: [int] and [float]. *)
Inductive converter := ConvInt | ConvFloat.

Definition convert (host : Host) (c : converter) (value : str) : option json :=
  match c with
  | ConvInt => JInt <$> int_of_str host value
  | ConvFloat => JFloat <$> float_of_str host value
  end.

(** [env_mapping]: the variable, the key and, for a tuple, the converter. *)
Definition env_mapping : list (string * (string * option converter)) :=
  [("SPOTIFYD_DISPLAY_TYPE", ("display_type", None));
   ("SPOTIFYD_DISPLAY_WIDTH", ("display_width", Some ConvInt));
   ("SPOTIFYD_DISPLAY_HEIGHT", ("display_height", Some ConvInt));
   ("SPOTIFYD_EPAPER_MODEL", ("epaper_model", None));
   ("SPOTIFYD_UPDATE_INTERVAL", ("update_interval", Some ConvFloat));
   ("SPOTIFYD_LOG_LEVEL", ("log_level", None))].

(** One round of the loop of [_load_env_overrides]. *)
Definition env_step (host : Host) (config : gmap string json)
    (row : string * (string * option converter)) : gmap string json :=
  let '(env_var, (config_key, converter)) := row in
  match environ host !! env_var with
  | Some value =>
      match converter with
      | Some c =>
          match convert host c value with
          | Some value => <[config_key := value]> config
          | None => config   (* continue *)
          end
      | None => <[config_key := JStr value]> config
      end
  | None => config
  end.

(** [Config._load_env_overrides]. *)
Definition _load_env_overrides (host : Host) (config : gmap string json)
    : gmap string json :=
  fold_left (env_step host) env_mapping config.

(** [Config.__init__]. *)
Definition Config_init (host : Host) (config_file : option str) : Config :=
  let config_file := _find_config_file host config_file in
  let config := DEFAULT_CONFIG in
  let config :=
    match config_file with
    | Some path =>
        if str_truthy config_file && path_exists host path
        then _load_config host path config
        else config
    | None => config
    end in
  {| config_file := config_file; config := _load_env_overrides host config |}.

(** [Config.__getattr__]. *)
Definition Config_getattr (self : Config) (name : string) : result json :=
  match config self !! name with
  | Some value => Ok value
  | None => Raise AttributeError
  end.

(** [Config.get]. *)
Definition Config_get (self : Config) (key : string) (dflt : json) : json :=
  default dflt (config self !! key).

(** The value that an environment variable gives its key, if it gives one:
    the string itself, or its conversion unless that raises. *)
Definition env_override (host : Host) (env_var : string) (converter : option converter)
    : option json :=
  value ← environ host !! env_var;
  match converter with
  | Some c => convert host c value
  | None => Some (JStr value)
  end.

(** ** Output drivers *)

(** The keys of [EPaperDisplayDriver.EPAPER_MODELS]; each is mapped to the
    module of the same name. *)
Definition EPAPER_MODELS : list str :=
  [lit "epd2in13_V2"; lit "epd2in13_V3"; lit "epd2in7"; lit "epd2in9";
   lit "epd4in2"; lit "epd7in5"].

(** A driver as its [__init__] leaves it; [epd] tells whether the e-paper
    driver holds a panel object. *)
Inductive DisplayDriver :=
| VirtualDisplayDriver (width height : json) (output_dir : str)
| EPaperDisplayDriver (width height : json) (model : json) (epd : bool).

(** [EPaperDisplayDriver.__init__]; [waveshare m] tells whether importing
    [waveshare_epd.m] and calling its [EPD()] go through. A model that is
    not a key of the table, or not hashable, leaves [epd] at [None]. *)
Definition EPaperDisplayDriver_init (waveshare : str → bool)
    (width height model : json) : DisplayDriver :=
  EPaperDisplayDriver width height model
    match model with
    | JStr m => bool_decide (m ∈ EPAPER_MODELS) && waveshare m
    | _ => false
    end.

(** [value == s] for a [str] literal [s]. *)
Definition json_eq_str (value : json) (s : str) : bool :=
  match value with
  | JStr v => bool_decide (v = s)
  | _ => false
  end.

(** [DisplayManager._create_driver]. *)
Definition _create_driver (waveshare : str → bool) (config : Config)
    : result DisplayDriver :=
  display_type ← Config_getattr config "display_type";
  width ← Config_getattr config "display_width";
  height ← Config_getattr config "display_height";
  if json_eq_str display_type (lit "epaper") then
    epaper_model ← Config_getattr config "epaper_model";
    Ok (EPaperDisplayDriver_init waveshare width height epaper_model)
  else if json_eq_str display_type (lit "virtual") then
    Ok (VirtualDisplayDriver width height (lit "/tmp"))
  else
    Ok (VirtualDisplayDriver width height (lit "/tmp")).

(** Where [driver.display(image)] sends the image. *)
Inductive display_effect :=
| SavePng (path : str) (image : Image)   (* image.save(path) *)
| PanelDisplay (image : Image).          (* epd.display of the 1-bit conversion *)

(** [VirtualDisplayDriver.display] and [EPaperDisplayDriver.display]. *)
Definition driver_display (driver : DisplayDriver) (image : Image) : display_effect :=
  match driver with
  | VirtualDisplayDriver _ _ output_dir =>
      SavePng (output_dir ++ lit "/" ++ lit "display_output.png") image
  | EPaperDisplayDriver _ _ _ epd =>
      if epd then PanelDisplay image
      else SavePng (lit "/tmp/display_output.png") image
  end.

(** ** Further fixtures *)

(** The track of [bohemian_rhapsody] with a number for a title. *)
Definition untitled_track : dict := <["title" := VInt 7]> bohemian_rhapsody.

(** What a player answers two minutes into a track. *)
Definition spotifyd_reply : MprisReply :=
  {| Metadata :=
       <["xesam:title" := DScalar (VStr (lit "Bohemian Rhapsody"))]>
       (<["xesam:artist" := DStrings [lit "Queen"; lit "Freddie Mercury"]]>
       (<["xesam:album" := DScalar (VStr (lit "A Night at the Opera"))]>
       (<["mpris:length" := DScalar (VInt 354000000)]>
       (<["mpris:trackid" := DScalar (VStr (lit "/org/mpris/MediaPlayer2/Track/1"))]> ∅))));
     PlaybackStatus := VStr (lit "Playing");
     Position := VInt 120000000 |}.

(** What a player answers when it has no track. *)
Definition empty_reply : MprisReply :=
  {| Metadata := ∅; PlaybackStatus := VStr (lit "Stopped"); Position := VInt 0 |}.

(** [int] on a string of ASCII decimal digits with an optional sign. *)
Definition decimal_of_str (s : str) : option Z :=
  Z.of_int <$> NilZero.int_of_string (string_of_list_ascii (map ascii_of_N s)).

(** A host with a user configuration file that sets an e-paper display, and
    an environment that sets a width, and a height that is no number. *)
Definition example_host : Host :=
  {| environ := <["SPOTIFYD_DISPLAY_WIDTH" := lit "296"]>
                  (<["SPOTIFYD_DISPLAY_HEIGHT" := lit "tall"]> ∅);
     path_exists :=
       fun p => bool_decide (p = lit "/home/pi/.config/spotifyd-display/config.json");
     user_config_path := lit "/home/pi/.config/spotifyd-display/config.json";
     load := fun _ => Loaded [("display_type", JStr (lit "epaper"));
                              ("epaper_model", JStr (lit "epd2in9"));
                              ("display_width", JInt 128)];
     int_of_str := decimal_of_str;
     float_of_str := fun _ => None |}.

(** ** Rounding, as the further properties describe it *)

(** The integer nearest to the fraction [n / d], for [d] positive; of two
    equally near, the even one. *)
Definition Zrne (n d : Z) : Z :=
  let q := n / d in
  match 2 * (n mod d) ?= d with
  | Lt => q
  | Eq => if Z.even q then q else q + 1
  | Gt => q + 1
  end.

(** Where the fraction [r / d], with [0 ≤ r < d], lies with respect to a
    half. *)
Definition loc_frac (r d : Z) : location :=
  if r =? 0 then loc_Exact else loc_Inexact (2 * r ?= d).

(** The float of the mantissa [z] and exponent [e], for [z] from [2^52] to
    [2^53]: the mantissa is halved when it is [2^53]. *)
Definition normal_float (z e : Z) : PyFloat.float :=
  if z <? 2 ^ 53 then S754_finite false (Z.to_pos z) e
  else S754_finite false (Z.to_pos (2 ^ 52)) (e + 1).

(** A positive float with a mantissa of 53 digits. *)
Definition normal (x : PyFloat.float) : Prop :=
  match x with
  | S754_finite false m e => 2 ^ 52 ≤ Z.pos m < 2 ^ 53 ∧ -1021 ≤ e ≤ 971
  | _ => False
  end.

(** The order of the values of two positive floats whose exponents are in
    the same order. *)
Definition float_le (x y : PyFloat.float) : Prop :=
  match x, y with
  | S754_finite false m1 e1, S754_finite false m2 e2 =>
      e1 ≤ e2 ∧ Z.pos m1 ≤ Z.pos m2 * 2 ^ (e2 - e1)
  | _, _ => False
  end.

(* ======================================================================= *)
(** * Properties *)
(* ======================================================================= *)

(** ** The embedding at work *)

Example split_example :
  split (lit "  hello   world ") = [lit "hello"; lit "world"].
Proof. reflexivity. Qed.

Example format_time_example : _format_time 354 = lit "05:54".
Proof. reflexivity. Qed.

(** The title of test 5 of [test_display.py], on the default display. *)
Example wrap_text_example :
  _wrap_text
    (VStr (lit "Supercalifragilisticexpialidocious - A Very Long Song Title That Should Wrap"))
    bitmap_font 240
  = Ok [lit "Supercalifragilisticexpialidocious - A";
        lit "Very Long Song Title That Should Wrap"].
Proof. vm_compute. reflexivity. Qed.

(** Test 3 of [test_display.py]. *)
Example update_display_example :
  update_display default_display bohemian_rhapsody
  = Ok {| mode := lit "RGB"; size := (250, 122); background := White;
          ops := [DrawText (5, 5) glyph_play Black FontMedium;
                  DrawText (5, 30) (lit "Bohemian Rhapsody") Black FontLarge;
                  DrawText (5, 55) (lit "Queen") Black FontMedium;
                  DrawText (5, 75) (lit "A Night at the Opera") Black FontSmall;
                  DrawRectangle (5, 87, 245, 97) (Some Black) (Some White);
                  DrawRectangle (5, 87, 86, 97) None (Some Black);
                  DrawText (5, 99) (lit "02:00 / 05:54") Black FontSmall] |}.
Proof. vm_compute. reflexivity. Qed.

Example show_idle_example :
  show_idle default_display
  = {| mode := lit "RGB"; size := (250, 122); background := White;
       ops := [DrawText (77, 55) (lit "No music playing") Black FontMedium] |}.
Proof. vm_compute. reflexivity. Qed.

(** A title that is not a [str]: the exception reaches the loop, which logs
    it and keeps what it remembered. *)
Example ill_typed_title_example :
  update_display default_display (<["title" := VInt 7]> bohemian_rhapsody)
  = Raise AttributeError
  ∧ logged (_update_loop (SpotifydDisplay_init default_display)
                         [Some (<["title" := VInt 7]> bohemian_rhapsody)])
    = [AttributeError].
Proof. split; vm_compute; reflexivity. Qed.

(** ** Binary64 arithmetic *)

Module PyFloatFacts.
Import PyFloat.

Lemma digits2_pos_size p : digits2_pos p = Pos.size p.
Proof. induction p; simpl; congruence. Qed.

Lemma Zdigits2_nonneg z : 0 ≤ Zdigits2 z.
Proof. destruct z; simpl; lia. Qed.

(** [Zdigits2] counts the binary digits. *)
Lemma Zdigits2_le_iff m k : 0 ≤ m → 0 ≤ k → Zdigits2 m ≤ k ↔ m < 2 ^ k.
Proof.
  intros Hm Hk. destruct m as [|p|p]; [| |lia].
  - simpl. split; [intros _; apply Z.pow_pos_nonneg; lia | lia].
  - assert (Hd : Zdigits2 (Z.pos p) = Z.log2 (Z.pos p) + 1).
    { simpl. rewrite digits2_pos_size. destruct p; simpl; lia. }
    rewrite Hd. rewrite (Z.log2_lt_pow2 (Z.pos p) k) by lia. lia.
Qed.

Lemma Zdigits2_gt_iff m k : 0 ≤ m → 0 ≤ k → k < Zdigits2 m ↔ 2 ^ k ≤ m.
Proof. intros Hm Hk. pose proof (Zdigits2_le_iff m k Hm Hk). lia. Qed.

Lemma Zdigits2_gt m : 0 ≤ m → m < 2 ^ Zdigits2 m.
Proof.
  intros Hm. apply Zdigits2_le_iff; [done | apply Zdigits2_nonneg | lia].
Qed.

Lemma Zdigits2_mono a b : 0 ≤ a ≤ b → Zdigits2 a ≤ Zdigits2 b.
Proof.
  intros H. apply Zdigits2_le_iff; [lia | apply Zdigits2_nonneg |].
  pose proof (Zdigits2_gt b). lia.
Qed.

Lemma Zdigits2_succ m : 0 ≤ m → Zdigits2 (m + 1) ≤ Zdigits2 m + 1.
Proof.
  intros Hm. pose proof (Zdigits2_nonneg m).
  apply Zdigits2_le_iff; [lia | lia |].
  rewrite Z.pow_add_r by lia. pose proof (Zdigits2_gt m Hm). lia.
Qed.

Lemma Zdigits2_div_pow2 m k :
  0 ≤ m → 0 ≤ k → Zdigits2 (m / 2 ^ k) ≤ Z.max 0 (Zdigits2 m - k).
Proof.
  intros Hm Hk. pose proof (Zdigits2_nonneg m) as Hd.
  pose proof (Zdigits2_gt m Hm) as Hlt.
  assert (0 < 2 ^ k) by (apply Z.pow_pos_nonneg; lia).
  assert (0 ≤ m / 2 ^ k) by (apply Z.div_pos; lia).
  destruct (Z.le_gt_cases (Zdigits2 m) k) as [Hle|Hgt].
  - assert (m < 2 ^ k).
    { eapply Z.lt_le_trans; [exact Hlt|]. apply Z.pow_le_mono_r; lia. }
    rewrite Z.div_small by lia. simpl. lia.
  - apply Z.le_trans with (Zdigits2 m - k); [|lia].
    apply Zdigits2_le_iff; [lia | lia |].
    apply Z.div_lt_upper_bound; [lia|].
    rewrite <- Z.pow_add_r by lia. replace (k + (Zdigits2 m - k)) with (Zdigits2 m) by lia.
    done.
Qed.

Lemma Zdigits2_mul_pow2 m k :
  0 ≤ m → 0 ≤ k → Zdigits2 (m * 2 ^ k) ≤ Zdigits2 m + k.
Proof.
  intros Hm Hk. pose proof (Zdigits2_nonneg m) as Hd.
  pose proof (Zdigits2_gt m Hm) as Hlt.
  assert (0 < 2 ^ k) by (apply Z.pow_pos_nonneg; lia).
  apply Zdigits2_le_iff; [nia | lia |].
  rewrite Z.pow_add_r by lia. nia.
Qed.

Lemma Zdigits2_mul a b :
  0 ≤ a → 0 ≤ b → Zdigits2 (a * b) ≤ Zdigits2 a + Zdigits2 b.
Proof.
  intros Ha Hb. pose proof (Zdigits2_nonneg a). pose proof (Zdigits2_nonneg b).
  pose proof (Zdigits2_gt a Ha). pose proof (Zdigits2_gt b Hb).
  apply Zdigits2_le_iff; [nia | lia |].
  rewrite Z.pow_add_r by lia. nia.
Qed.

(** Shifting right. *)
Lemma shr_1_m mrs : 0 ≤ shr_m mrs → shr_m (shr_1 mrs) = shr_m mrs / 2.
Proof.
  destruct mrs as [m r s]. simpl. intros Hm.
  destruct m as [|[p|p|]|p]; cbn [shr_m shr_1]; try lia; try done.
  - apply (Z.div_unique _ _ _ 1); lia.
  - apply (Z.div_unique _ _ _ 0); lia.
Qed.

Lemma iter_shr_1_m p : ∀ mrs,
  0 ≤ shr_m mrs → shr_m (SpecFloat.iter_pos shr_1 p mrs) = shr_m mrs / 2 ^ Z.pos p.
Proof.
  assert (Hnn : ∀ m k, 0 ≤ m → 0 ≤ k → 0 ≤ m / 2 ^ k).
  { intros m k ? ?. apply Z.div_pos; [lia | apply Z.pow_pos_nonneg; lia]. }
  induction p as [p IH|p IH|]; intros mrs Hm; simpl;
    try assert (0 < 2 ^ Z.pos p) by (apply Z.pow_pos_nonneg; lia).
  - assert (Hp : 2 ^ Z.pos p~1 = 2 * 2 ^ Z.pos p * 2 ^ Z.pos p).
    { assert (Z.pos p~1 = 1 + Z.pos p + Z.pos p) as -> by lia.
      rewrite !Z.pow_add_r by lia. lia. }
    assert (0 ≤ shr_m (shr_1 mrs)).
    { rewrite shr_1_m by done. apply (Hnn _ 1); lia. }
    rewrite IH, IH, shr_1_m, Hp; try done.
    + rewrite !Z.div_div by lia. f_equal; ring.
    + rewrite IH by done. apply Hnn; lia.
  - assert (Hp : 2 ^ Z.pos p~0 = 2 ^ Z.pos p * 2 ^ Z.pos p).
    { assert (Z.pos p~0 = Z.pos p + Z.pos p) as -> by lia.
      rewrite !Z.pow_add_r by lia. lia. }
    rewrite IH, IH, Hp; try done.
    + rewrite !Z.div_div by lia. f_equal; ring.
    + rewrite IH by done. apply Hnn; lia.
  - rewrite shr_1_m by done. done.
Qed.

Lemma shr_fexp_spec m e l :
  0 ≤ m →
  let '(mrs, e') := shr_fexp prec emax m e l in
  e' = Z.max e (fexp prec emax (Zdigits2 m + e)) ∧ shr_m mrs = m / 2 ^ (e' - e).
Proof.
  intros Hm. unfold shr_fexp, shr.
  assert (Hrec : shr_m (shr_record_of_loc m l) = m) by (by destruct l as [|[]]).
  destruct (fexp prec emax (Zdigits2 m + e) - e) as [|n|n] eqn:Hn.
  - split; [lia|]. replace (e - e) with 0 by lia. rewrite Z.pow_0_r, Z.div_1_r. done.
  - split; [lia|]. rewrite iter_shr_1_m by lia. rewrite Hrec. f_equal. f_equal. lia.
  - split; [lia|]. replace (e - e) with 0 by lia. rewrite Z.pow_0_r, Z.div_1_r. done.
Qed.

(** Shifting out zeros leaves the location exact. *)
Lemma shr_1_exact mrs :
  0 ≤ shr_m mrs → shr_r mrs = false → shr_s mrs = false → shr_m mrs mod 2 = 0 →
  shr_r (shr_1 mrs) = false ∧ shr_s (shr_1 mrs) = false.
Proof.
  destruct mrs as [m r s]. cbn [shr_m shr_r shr_s]. intros Hm -> -> Hmod.
  destruct m as [|[p|p|]|p]; cbn [shr_1 shr_r shr_s orb]; try done; try lia.
  - exfalso. rewrite Pos2Z.inj_xI in Hmod.
    rewrite Z.add_comm, Z.mul_comm, Z.mod_add in Hmod by lia. done.
Qed.

Lemma iter_shr_1_exact p : ∀ mrs,
  0 ≤ shr_m mrs → shr_r mrs = false → shr_s mrs = false →
  shr_m mrs mod 2 ^ Z.pos p = 0 →
  shr_r (SpecFloat.iter_pos shr_1 p mrs) = false
  ∧ shr_s (SpecFloat.iter_pos shr_1 p mrs) = false.
Proof.
  assert (Hdiv : ∀ m a b, 0 < a → 0 < b → m mod (a * b) = 0 →
                          m mod a = 0 ∧ (m / a) mod b = 0).
  { intros m a b Ha Hb Hm.
    apply Z.mod_divide in Hm as [c Hc]; [|nia]. subst m.
    replace (c * (a * b)) with (c * b * a) by ring.
    rewrite Z.mod_mul, Z.div_mul, Z.mod_mul by lia. done. }
  induction p as [p IH|p IH|]; intros mrs Hm Hr Hs Hmod; cbn [SpecFloat.iter_pos];
    try assert (0 < 2 ^ Z.pos p) by (apply Z.pow_pos_nonneg; lia).
  - assert (Hp : 2 ^ Z.pos p~1 = 2 * (2 ^ Z.pos p * 2 ^ Z.pos p)).
    { assert (Z.pos p~1 = 1 + Z.pos p + Z.pos p) as -> by lia.
      rewrite !Z.pow_add_r by lia. lia. }
    rewrite Hp in Hmod.
    destruct (Hdiv (shr_m mrs) 2 (2 ^ Z.pos p * 2 ^ Z.pos p)) as [H2 Hrest]; [lia|nia|done|].
    destruct (Hdiv (shr_m mrs / 2) (2 ^ Z.pos p) (2 ^ Z.pos p)) as [H3 H4]; [lia|lia|done|].
    destruct (shr_1_exact mrs Hm Hr Hs H2) as [Hr1 Hs1].
    assert (Hm1 : shr_m (shr_1 mrs) = shr_m mrs / 2) by (by apply shr_1_m).
    assert (Hm1' : 0 ≤ shr_m (shr_1 mrs)) by (rewrite Hm1; apply Z.div_pos; lia).
    destruct (IH (shr_1 mrs) Hm1' Hr1 Hs1) as [Hr2 Hs2]; [by rewrite Hm1|].
    apply IH; try done.
    + rewrite iter_shr_1_m by done. apply Z.div_pos; lia.
    + rewrite iter_shr_1_m, Hm1 by done. done.
  - assert (Hp : 2 ^ Z.pos p~0 = 2 ^ Z.pos p * 2 ^ Z.pos p).
    { assert (Z.pos p~0 = Z.pos p + Z.pos p) as -> by lia.
      rewrite !Z.pow_add_r by lia. lia. }
    rewrite Hp in Hmod.
    destruct (Hdiv (shr_m mrs) (2 ^ Z.pos p) (2 ^ Z.pos p)) as [H3 H4]; [lia|lia|done|].
    destruct (IH mrs Hm Hr Hs H3) as [Hr2 Hs2].
    apply IH; try done.
    + rewrite iter_shr_1_m by done. apply Z.div_pos; lia.
    + by rewrite iter_shr_1_m.
  - apply shr_1_exact; try done.
Qed.

Lemma shr_fexp_exact m e :
  0 ≤ m →
  let '(mrs, e') := shr_fexp prec emax m e loc_Exact in
  m mod 2 ^ (e' - e) = 0 → loc_of_shr_record mrs = loc_Exact.
Proof.
  intros Hm. unfold shr_fexp, shr.
  destruct (fexp prec emax (Zdigits2 m + e) - e) as [|n|n] eqn:Hn; try done.
  replace (e + Z.pos n - e) with (Z.pos n) by lia. intros Hmod.
  destruct (iter_shr_1_exact n (shr_record_of_loc m loc_Exact)) as [Hr Hs]; try done.
  destruct (SpecFloat.iter_pos _ _ _) as [m' r' s']. cbn in Hr, Hs. by subst.
Qed.

Lemma small_is_finite x : small x → is_finite x = true.
Proof. by destruct x. Qed.

Lemma operand_small x : operand x → small x.
Proof. destruct x; simpl; try done. lia. Qed.

Lemma round_nearest_even_bounds m l :
  0 ≤ m → m ≤ round_nearest_even m l ≤ m + 1.
Proof.
  intros Hm. destruct l as [|[]]; simpl; try lia. destruct (Z.even m); lia.
Qed.

(** Rounding does not overflow when the magnitude is far from the top. *)
Lemma binary_round_aux_small s mx ex lx :
  0 ≤ mx → Zdigits2 mx + ex ≤ 1023 → ex ≤ 971 →
  small (binary_round_aux prec emax s mx ex lx).
Proof.
  intros Hm HB Hex. unfold binary_round_aux.
  pose proof (shr_fexp_spec mx ex lx Hm) as H1.
  destruct (shr_fexp prec emax mx ex lx) as [mrs1 e1]. destruct H1 as [He1 Hm1].
  assert (Hk1 : 0 ≤ e1 - ex) by lia.
  assert (Hp1 : 0 < 2 ^ (e1 - ex)) by (apply Z.pow_pos_nonneg; lia).
  assert (Hm1' : 0 ≤ shr_m mrs1) by (rewrite Hm1; apply Z.div_pos; lia).
  pose proof (Zdigits2_div_pow2 mx (e1 - ex) Hm Hk1) as Hd1. rewrite <- Hm1 in Hd1.
  pose proof (round_nearest_even_bounds (shr_m mrs1) (loc_of_shr_record mrs1) Hm1') as Hr.
  set (m2 := round_nearest_even (shr_m mrs1) (loc_of_shr_record mrs1)) in *.
  assert (Hm2 : 0 ≤ m2) by lia.
  assert (Hd2 : Zdigits2 m2 ≤ Zdigits2 (shr_m mrs1) + 1).
  { etrans; [apply (Zdigits2_mono m2 (shr_m mrs1 + 1)); lia|]. by apply Zdigits2_succ. }
  pose proof (shr_fexp_spec m2 e1 loc_Exact Hm2) as H2.
  destruct (shr_fexp prec emax m2 e1 loc_Exact) as [mrs2 e2]. destruct H2 as [He2 Hm3].
  assert (Hk2 : 0 ≤ e2 - e1) by lia.
  assert (Hp2 : 0 < 2 ^ (e2 - e1)) by (apply Z.pow_pos_nonneg; lia).
  pose proof (Zdigits2_div_pow2 m2 (e2 - e1) Hm2 Hk2) as Hd3. rewrite <- Hm3 in Hd3.
  assert (Hm3' : 0 ≤ shr_m mrs2) by (rewrite Hm3; apply Z.div_pos; lia).
  pose proof (Zdigits2_nonneg mx). pose proof (Zdigits2_nonneg m2).
  pose proof (Zdigits2_nonneg (shr_m mrs1)).
  unfold fexp, emin, prec, emax in *.
  destruct (shr_m mrs2) as [|m3|m3] eqn:E3; [done| |lia].
  assert (He : e2 ≤ 971) by lia.
  apply Z.leb_le in He. change (1024 - 53) with 971. rewrite He.
  split; [|by apply Z.leb_le].
  change (Zdigits2 (Z.pos m3) ≤ 53). lia.
Qed.

(** Rounding keeps the sign. *)
Lemma binary_round_aux_sign s mx ex lx :
  0 ≤ mx →
  match binary_round_aux prec emax s mx ex lx with
  | S754_zero s' | S754_finite s' _ _ | S754_infinity s' => s' = s
  | S754_nan => False
  end.
Proof.
  intros Hm. unfold binary_round_aux.
  pose proof (shr_fexp_spec mx ex lx Hm) as H1.
  destruct (shr_fexp prec emax mx ex lx) as [mrs1 e1]. destruct H1 as [He1 Hm1].
  assert (Hm1' : 0 ≤ shr_m mrs1).
  { rewrite Hm1. apply Z.div_pos; [lia | apply Z.pow_pos_nonneg; lia]. }
  pose proof (round_nearest_even_bounds (shr_m mrs1) (loc_of_shr_record mrs1) Hm1') as Hr.
  set (m2 := round_nearest_even (shr_m mrs1) (loc_of_shr_record mrs1)) in *.
  pose proof (shr_fexp_spec m2 e1 loc_Exact ltac:(lia)) as H2.
  destruct (shr_fexp prec emax m2 e1 loc_Exact) as [mrs2 e2]. destruct H2 as [He2 Hm3].
  assert (Hm3' : 0 ≤ shr_m mrs2).
  { rewrite Hm3. apply Z.div_pos; [lia | apply Z.pow_pos_nonneg; lia]. }
  destruct (shr_m mrs2) as [|m3|m3]; [done| |lia].
  by destruct (_ <=? _).
Qed.

(** Rounding a value that is at most the integer [B] does not pass [B]. *)
Lemma binary_round_aux_le s M E B :
  0 ≤ M → E ≤ 0 → 0 ≤ B < 2 ^ 53 → M ≤ B * 2 ^ (- E) →
  match binary_round_aux prec emax s M E loc_Exact with
  | S754_zero s' => s' = s
  | S754_finite s' m e => s' = s ∧ e ≤ 0 ∧ Z.pos m ≤ B * 2 ^ (- e)
  | _ => False
  end.
Proof.
  intros HM HE HB Hle. unfold binary_round_aux.
  assert (Hpow : ∀ k, 0 ≤ k → 0 < 2 ^ k) by (intros; apply Z.pow_pos_nonneg; lia).
  assert (Hdig : ∀ m e, 0 ≤ m → e ≤ 0 → m ≤ B * 2 ^ (- e) → Zdigits2 m + e ≤ 53).
  { intros m e Hm He Hme. pose proof (Hpow (- e) ltac:(lia)).
    assert (Zdigits2 m ≤ 53 - e); [|lia].
    apply Zdigits2_le_iff; [lia..|].
    replace (53 - e) with (53 + - e) by lia. rewrite Z.pow_add_r by lia. nia. }
  pose proof (shr_fexp_spec M E loc_Exact HM) as H1.
  pose proof (shr_fexp_exact M E HM) as Hx.
  destruct (shr_fexp prec emax M E loc_Exact) as [mrs1 e1]. destruct H1 as [He1 Hm1].
  pose proof (Hdig M E HM HE Hle) as HdM.
  assert (He1' : e1 ≤ 0) by (unfold fexp, emin, prec, emax in He1; lia).
  assert (Hn1 : 0 ≤ e1 - E) by lia.
  pose proof (Hpow _ Hn1) as Hp1. pose proof (Hpow (- e1) ltac:(lia)) as Hq1.
  assert (Hsplit : 2 ^ (- E) = 2 ^ (- e1) * 2 ^ (e1 - E)).
  { rewrite <- Z.pow_add_r by lia. f_equal. lia. }
  assert (Hm1' : 0 ≤ shr_m mrs1) by (rewrite Hm1; apply Z.div_pos; lia).
  assert (Hm1K : shr_m mrs1 ≤ B * 2 ^ (- e1)).
  { rewrite Hm1. apply Z.div_le_upper_bound; [lia|]. rewrite Hsplit in Hle. lia. }
  pose proof (round_nearest_even_bounds (shr_m mrs1) (loc_of_shr_record mrs1) Hm1') as Hr.
  assert (Hm2K : round_nearest_even (shr_m mrs1) (loc_of_shr_record mrs1) ≤ B * 2 ^ (- e1)).
  { destruct (Z.eq_dec (shr_m mrs1) (B * 2 ^ (- e1))) as [Heq|Hne]; [|lia].
    rewrite Hx; [cbn [round_nearest_even]; lia|].
    assert (M = B * 2 ^ (- e1) * 2 ^ (e1 - E)).
    { pose proof (Z.mul_div_le M (2 ^ (e1 - E)) Hp1). rewrite <- Hm1, Heq in H.
      rewrite Hsplit in Hle. lia. }
    subst M. by apply Z.mod_mul, Z.neq_sym, Z.lt_neq. }
  set (m2 := round_nearest_even (shr_m mrs1) (loc_of_shr_record mrs1)) in *.
  assert (Hm2 : 0 ≤ m2) by lia.
  pose proof (shr_fexp_spec m2 e1 loc_Exact Hm2) as H2.
  destruct (shr_fexp prec emax m2 e1 loc_Exact) as [mrs2 e2]. destruct H2 as [He2 Hm3].
  pose proof (Hdig m2 e1 Hm2 He1' Hm2K) as Hd2.
  assert (He2' : e2 ≤ 0) by (unfold fexp, emin, prec, emax in He2; lia).
  assert (Hn2 : 0 ≤ e2 - e1) by lia.
  pose proof (Hpow _ Hn2) as Hp2. pose proof (Hpow (- e2) ltac:(lia)) as Hq2.
  assert (Hsplit2 : 2 ^ (- e1) = 2 ^ (- e2) * 2 ^ (e2 - e1)).
  { rewrite <- Z.pow_add_r by lia. f_equal. lia. }
  assert (Hm3K : shr_m mrs2 ≤ B * 2 ^ (- e2)).
  { rewrite Hm3. apply Z.div_le_upper_bound; [lia|]. rewrite Hsplit2 in Hm2K. lia. }
  assert (Hm3' : 0 ≤ shr_m mrs2) by (rewrite Hm3; apply Z.div_pos; lia).
  destruct (shr_m mrs2) as [|m3|m3] eqn:E3; [done| |lia].
  assert (Hfin : (e2 <=? emax - prec) = true) by (apply Z.leb_le; unfold emax, prec; lia).
  rewrite Hfin. done.
Qed.

(** Rounding a value that is at least the integer [B] does not fall under
    [B]. *)
Lemma binary_round_aux_ge s M E lx B :
  0 ≤ M → E ≤ 0 → 0 < B → B * 2 ^ (- E) ≤ M → Zdigits2 M + E ≤ 52 →
  match binary_round_aux prec emax s M E lx with
  | S754_finite s' m e => s' = s ∧ e ≤ 0 ∧ B * 2 ^ (- e) ≤ Z.pos m
  | _ => False
  end.
Proof.
  intros HM HE HB Hle HdM. unfold binary_round_aux.
  assert (Hpow : ∀ k, 0 ≤ k → 0 < 2 ^ k) by (intros; apply Z.pow_pos_nonneg; lia).
  pose proof (shr_fexp_spec M E lx HM) as H1.
  destruct (shr_fexp prec emax M E lx) as [mrs1 e1]. destruct H1 as [He1 Hm1].
  assert (He1' : e1 ≤ 0) by (unfold fexp, emin, prec, emax in He1; lia).
  assert (Hn1 : 0 ≤ e1 - E) by lia.
  pose proof (Hpow _ Hn1) as Hp1. pose proof (Hpow (- e1) ltac:(lia)) as Hq1.
  assert (Hsplit : 2 ^ (- E) = 2 ^ (- e1) * 2 ^ (e1 - E)).
  { rewrite <- Z.pow_add_r by lia. f_equal. lia. }
  assert (Hm1K : B * 2 ^ (- e1) ≤ shr_m mrs1).
  { rewrite Hm1. apply Z.div_le_lower_bound; [lia|]. rewrite Hsplit in Hle. lia. }
  assert (Hm1' : 0 ≤ shr_m mrs1) by nia.
  pose proof (Zdigits2_div_pow2 M (e1 - E) HM Hn1) as Hd1. rewrite <- Hm1 in Hd1.
  pose proof (round_nearest_even_bounds (shr_m mrs1) (loc_of_shr_record mrs1) Hm1') as Hr.
  set (m2 := round_nearest_even (shr_m mrs1) (loc_of_shr_record mrs1)) in *.
  assert (Hm2 : 0 ≤ m2) by lia.
  assert (Hd2 : Zdigits2 m2 + e1 ≤ 53).
  { assert (Zdigits2 m2 ≤ Zdigits2 (shr_m mrs1) + 1); [|pose proof (Zdigits2_nonneg M); lia].
    etrans; [apply (Zdigits2_mono m2 (shr_m mrs1 + 1)); lia|]. by apply Zdigits2_succ. }
  pose proof (shr_fexp_spec m2 e1 loc_Exact Hm2) as H2.
  destruct (shr_fexp prec emax m2 e1 loc_Exact) as [mrs2 e2]. destruct H2 as [He2 Hm3].
  assert (He2' : e2 ≤ 0) by (unfold fexp, emin, prec, emax in He2; lia).
  assert (Hn2 : 0 ≤ e2 - e1) by lia.
  pose proof (Hpow _ Hn2) as Hp2. pose proof (Hpow (- e2) ltac:(lia)) as Hq2.
  assert (Hsplit2 : 2 ^ (- e1) = 2 ^ (- e2) * 2 ^ (e2 - e1)).
  { rewrite <- Z.pow_add_r by lia. f_equal. lia. }
  assert (Hm3K : B * 2 ^ (- e2) ≤ shr_m mrs2).
  { rewrite Hm3. apply Z.div_le_lower_bound; [lia|]. rewrite Hsplit2 in Hm1K. nia. }
  destruct (shr_m mrs2) as [|m3|m3] eqn:E3; [nia| |nia].
  assert (Hfin : (e2 <=? emax - prec) = true) by (apply Z.leb_le; unfold emax, prec; lia).
  rewrite Hfin. done.
Qed.

(** Rounding leaves an aligned mantissa as it is. *)
Lemma binary_round_aux_exact s m e :
  fexp prec emax (Zdigits2 (Z.pos m) + e) ≤ e → e ≤ 971 →
  binary_round_aux prec emax s (Z.pos m) e loc_Exact = S754_finite s m e.
Proof.
  intros Hf He. unfold binary_round_aux, shr_fexp, shr.
  destruct (fexp prec emax (Zdigits2 (Z.pos m) + e) - e) as [|k|k] eqn:Hk; [|lia|];
    cbn [shr_record_of_loc shr_m loc_of_shr_record round_nearest_even];
    rewrite Hk; cbn [shr_m]; apply Z.leb_le in He;
    change (emax - prec) with 971; by rewrite He.
Qed.

Lemma digits2_pos_iter_xO p k :
  digits2_pos (Pos.iter xO p k) = (digits2_pos p + k)%positive.
Proof.
  induction k as [|k IH] using Pos.peano_ind.
  - simpl. lia.
  - rewrite Pos.iter_succ. simpl. rewrite IH. lia.
Qed.

Lemma pos_iter_xO_Z p k : Z.pos (Pos.iter xO p k) = Z.pos p * 2 ^ Z.pos k.
Proof.
  induction k as [|k IH] using Pos.peano_ind.
  - cbn [Pos.iter]. lia.
  - rewrite Pos.iter_succ, Pos2Z.inj_xO, IH, Pos2Z.inj_succ, Z.pow_succ_r by lia. lia.
Qed.

(** [float(n)] for an [int] that fits a double exactly: the mantissa is
    [n] shifted left to 53 digits. *)
Lemma binary_round_int s p :
  Z.pos p < 2 ^ 53 →
  ∃ m e, binary_round prec emax s p 0 = S754_finite s m e
         ∧ Zdigits2 (Z.pos m) ≤ 53 ∧ -52 ≤ e ≤ 0
         ∧ Z.pos m = Z.pos p * 2 ^ (- e).
Proof.
  intros Hp. unfold binary_round, shl_align.
  assert (Hd : Z.pos (digits2_pos p) ≤ 53).
  { apply (Zdigits2_le_iff (Z.pos p) 53); lia. }
  assert (Hf : fexp prec emax (Z.pos (digits2_pos p) + 0) = Z.pos (digits2_pos p) - 53).
  { unfold fexp, emin, prec, emax. lia. }
  rewrite Hf.
  destruct (Z.pos (digits2_pos p) - 53 - 0) as [|k|k] eqn:Hk; [|lia|].
  - exists p, 0. split; [|split; [done|split; [lia|]]].
    + apply binary_round_aux_exact; [|lia].
      change (Zdigits2 (Z.pos p)) with (Z.pos (digits2_pos p)).
      unfold fexp, emin, prec, emax. lia.
    + change (2 ^ (- 0)) with 1. lia.
  - exists (Pos.iter xO p k), (Z.pos (digits2_pos p) - 53).
    assert (Hdk : Z.pos (digits2_pos (Pos.iter xO p k)) = 53).
    { rewrite digits2_pos_iter_xO. lia. }
    split; [|split; [|split; [lia|]]].
    + apply binary_round_aux_exact; [|lia].
      change (Zdigits2 (Z.pos (Pos.iter xO p k)))
        with (Z.pos (digits2_pos (Pos.iter xO p k))).
      rewrite Hdk. unfold fexp, emin, prec, emax. lia.
    + change (Zdigits2 (Z.pos (Pos.iter xO p k)))
        with (Z.pos (digits2_pos (Pos.iter xO p k))). lia.
    + rewrite pos_iter_xO_Z. f_equal. f_equal. lia.
Qed.

Lemma of_int_nonzero n :
  n ≠ 0 → Z.abs n < 2 ^ 53 →
  ∃ m e, of_int n = Ok (S754_finite (n <? 0) m e)
         ∧ Zdigits2 (Z.pos m) ≤ 53 ∧ -52 ≤ e ≤ 0
         ∧ Z.pos m = Z.abs n * 2 ^ (- e).
Proof.
  intros Hn0 Hn. unfold of_int. destruct n as [|p|p]; [done| |]; cbn [binary_normalize].
  - destruct (binary_round_int false p) as (m & e & -> & H); [lia|]. by exists m, e.
  - destruct (binary_round_int true p) as (m & e & -> & H); [lia|]. by exists m, e.
Qed.

Lemma of_int_pos n :
  0 < n < 2 ^ 53 →
  ∃ m e, of_int n = Ok (S754_finite false m e)
         ∧ -52 ≤ e ≤ 0 ∧ Z.pos m = n * 2 ^ (- e).
Proof.
  intros Hn. destruct (of_int_nonzero n) as (m & e & Hf & _ & He & Hm); [lia..|].
  exists m, e. replace (n <? 0) with false in Hf by (symmetry; apply Z.ltb_ge; lia).
  rewrite Z.abs_eq in Hm by lia. done.
Qed.

Lemma of_int_operand n :
  Z.abs n < 2 ^ 53 →
  ∃ f, of_int n = Ok f ∧ operand f ∧ (n ≠ 0 → ∃ s m e, f = S754_finite s m e).
Proof.
  intros Hn. destruct (Z.eq_dec n 0) as [->|Hn0].
  - eexists. split; [done|]. split; [done|]. done.
  - destruct (of_int_nonzero n Hn0 Hn) as (m & e & -> & Hd & He & _).
    eexists. split; [done|]. split; [done|]. eauto.
Qed.

Lemma of_int_digits n m e :
  0 < n → -52 ≤ e ≤ 0 → Z.pos m = n * 2 ^ (- e) → n < 2 ^ 53 →
  Zdigits2 (Z.pos m) + e = Zdigits2 n.
Proof.
  intros Hn He Hm Hn53.
  assert (Hp : 0 < 2 ^ (- e)) by (apply Z.pow_pos_nonneg; lia).
  pose proof (Zdigits2_nonneg n) as Hdn.
  assert (Hup : Zdigits2 (Z.pos m) ≤ Zdigits2 n - e).
  { rewrite Hm. pose proof (Zdigits2_mul_pow2 n (- e) ltac:(lia) ltac:(lia)). lia. }
  assert (Hlow : Zdigits2 n - e - 1 < Zdigits2 (Z.pos m)); [|lia].
  assert (Hdn1 : 0 < Zdigits2 n).
  { apply Zdigits2_gt_iff; [lia..|]. change (2 ^ 0) with 1. lia. }
  assert (Hn1 : 2 ^ (Zdigits2 n - 1) ≤ n) by (apply Zdigits2_gt_iff; lia).
  apply Zdigits2_gt_iff; [lia..|].
  replace (Zdigits2 n - e - 1) with ((Zdigits2 n - 1) + - e) by lia.
  rewrite Z.pow_add_r, Hm by lia. nia.
Qed.

Lemma SFdiv_small x y :
  operand x → operand y → (∃ s m e, y = S754_finite s m e) →
  small (SFdiv prec emax x y).
Proof.
  intros Hx Hy (sy & my & ey & ->).
  destruct x as [sx| | |sx mx ex]; cbn [operand] in Hx; try done.
  cbn [operand] in Hy. destruct Hx as [Hdx Hex], Hy as [Hdy Hey].
  unfold SFdiv, SFdiv_core_binary.
  set (e' := Z.min _ _).
  assert (He' : e' ≤ ex - ey) by (unfold e'; lia).
  set (m' := match ex - ey - e' with Z.pos _ => _ | _ => _ end).
  assert (Hm' : m' = Z.pos mx * 2 ^ (ex - ey - e')).
  { unfold m'. destruct (ex - ey - e') as [|k|k] eqn:Hk; [simpl; lia| |lia].
    by rewrite Z.shiftl_mul_pow2. }
  clearbody m'.
  assert (Hpow : 0 < 2 ^ (ex - ey - e')) by (apply Z.pow_pos_nonneg; lia).
  assert (Hq : fst (Z.div_eucl m' (Z.pos my)) = m' / Z.pos my) by done.
  destruct (Z.div_eucl m' (Z.pos my)) as [q r]. simpl in Hq. subst q.
  assert (Hq0 : 0 ≤ m' / Z.pos my) by (apply Z.div_pos; nia).
  assert (Hqm : m' / Z.pos my ≤ m').
  { apply Z.div_le_upper_bound; [lia|]. nia. }
  pose proof (Zdigits2_mono (m' / Z.pos my) m' ltac:(lia)) as Hd1.
  pose proof (Zdigits2_mul_pow2 (Z.pos mx) (ex - ey - e') ltac:(lia) ltac:(lia)) as Hd2.
  rewrite <- Hm' in Hd2.
  apply binary_round_aux_small; lia.
Qed.

Lemma unit_float_digits m e :
  e ≤ 0 → Z.pos m ≤ 2 ^ (- e) → Zdigits2 (Z.pos m) ≤ 1 - e.
Proof.
  intros He Hm. apply Zdigits2_le_iff; [lia..|].
  replace (1 - e) with (1 + - e) by lia. rewrite Z.pow_add_r by lia.
  assert (0 < 2 ^ (- e)) by (apply Z.pow_pos_nonneg; lia).
  change (2 ^ 1) with 2. lia.
Qed.

Lemma SFmul_small x y : operand x → unit_float y → small (SFmul prec emax x y).
Proof.
  intros Hx Hy.
  destruct x as [sx| | |sx mx ex], y as [[]| | |[] my ey];
    cbn [operand unit_float small SFmul] in *; try done.
  destruct Hx as [Hdx Hex], Hy as [Hey Hmy].
  pose proof (unit_float_digits my ey Hey Hmy) as Hdy.
  pose proof (Zdigits2_mul (Z.pos mx) (Z.pos my) ltac:(lia) ltac:(lia)) as Hd.
  apply binary_round_aux_small; [lia| |lia].
  change (Z.pos (mx * my)) with (Z.pos mx * Z.pos my). lia.
Qed.

Lemma unit_float_one : unit_float one.
Proof. split; [lia | vm_compute; discriminate]. Qed.

(** The clamp of [update_display]. *)
Lemma clamp_unit q : small q → unit_float (min one (max zero q)).
Proof.
  intros Hq. destruct q as [[]| | |[] m e]; try done.
  assert (Hmax : max zero (S754_finite false m e) = S754_finite false m e) by done.
  rewrite Hmax. unfold min. destruct Hq as [Hd _].
  destruct (ltb (S754_finite false m e) one) eqn:Hlt; [|apply unit_float_one].
  unfold ltb, SFltb, one in Hlt. cbn [SFcompare] in Hlt.
  apply Zdigits2_le_iff in Hd; [|lia..].
  destruct (e ?= -52) eqn:Hc; [| |done].
  - apply Z.compare_eq in Hc. subst e. split; [lia|].
    destruct (Pos.compare_cont Eq m 4503599627370496) eqn:Hm; [discriminate Hlt| |discriminate Hlt].
    assert (Hm' : (m < 4503599627370496)%positive) by exact Hm.
    change (2 ^ (- (-52))) with 4503599627370496.
    apply Z.lt_le_incl. exact Hm'.
  - change (e < -52) in Hc. clear Hlt Hmax. split; [lia|].
    apply Z.lt_le_incl. eapply Z.lt_le_trans; [exact Hd|].
    apply Z.pow_le_mono_r; lia.
Qed.

Lemma clamp_bounds q :
  leb zero (min one (max zero q)) = true ∧ leb (min one (max zero q)) one = true.
Proof.
  destruct q as [[]|[]| |[] m e];
    [split; vm_compute; reflexivity.. | | ];
    [by split; [|vm_compute] | ].
  assert (Hmax : max zero (S754_finite false m e) = S754_finite false m e) by done.
  rewrite Hmax. unfold min.
  destruct (ltb (S754_finite false m e) one) eqn:Hlt;
    [|split; vm_compute; reflexivity].
  split; [done|].
  unfold ltb, SFltb in Hlt. unfold leb, SFleb.
  by destruct (SFcompare (S754_finite false m e) one) as [[]|].
Qed.

(** A float that is at least [1.0] clamps to [1.0]. *)
Lemma clamp_ge_one m e :
  Zdigits2 (Z.pos m) ≤ 53 → e ≤ 0 → 2 ^ (- e) ≤ Z.pos m →
  min one (max zero (S754_finite false m e)) = one.
Proof.
  intros Hd He Hm.
  assert (Hmax : max zero (S754_finite false m e) = S754_finite false m e) by done.
  rewrite Hmax. unfold min.
  destruct (ltb (S754_finite false m e) one) eqn:Hlt; [exfalso|done].
  unfold ltb, SFltb, one in Hlt. cbn [SFcompare] in Hlt.
  apply Zdigits2_le_iff in Hd; [|lia..].
  assert (He52 : -52 ≤ e).
  { destruct (Z.le_gt_cases (-52) e) as [|Hlow]; [done|exfalso].
    assert (2 ^ 53 ≤ 2 ^ (- e)) by (apply Z.pow_le_mono_r; lia). lia. }
  destruct (e ?= -52) eqn:Hc.
  - apply Z.compare_eq in Hc. subst e.
    destruct (Pos.compare_cont Eq m 4503599627370496) eqn:Hcm;
      [discriminate Hlt| |discriminate Hlt].
    assert (Hm' : (m < 4503599627370496)%positive) by exact Hcm.
    change (2 ^ (- (-52))) with 4503599627370496 in Hm.
    apply Pos2Z.pos_lt_pos in Hm'. clear -Hm Hm'. apply Z.lt_nge in Hm'. done.
  - change (e < -52) in Hc. lia.
  - discriminate Hlt.
Qed.

Lemma int_truediv_small a b :
  Z.abs a < 2 ^ 53 → Z.abs b < 2 ^ 53 → b ≠ 0 →
  ∃ q, int_truediv a b = Ok q ∧ small q.
Proof.
  intros Ha Hb Hb0. unfold int_truediv.
  destruct (Z.eqb_spec b 0) as [|_]; [done|].
  destruct (of_int_operand a Ha) as (fa & -> & Hfa & _).
  destruct (of_int_operand b Hb) as (fb & -> & Hfb & Hfin).
  cbn [mbind result_bind].
  pose proof (SFdiv_small fa fb Hfa Hfb (Hfin Hb0)) as Hq.
  rewrite (small_is_finite _ Hq). eauto.
Qed.

(** The quotient of two [int]s clamps to [1.0] when the first is at least
    the second. *)
Lemma int_truediv_ge_one p l :
  0 < l → l ≤ p → p < 2 ^ 52 →
  ∃ q, int_truediv p l = Ok q ∧ min one (max zero q) = one.
Proof.
  intros Hl Hlp Hp. unfold int_truediv.
  destruct (Z.eqb_spec l 0) as [|_]; [lia|].
  assert (H5253 : 2 ^ 52 < 2 ^ 53) by (apply Z.pow_lt_mono_r; lia).
  destruct (of_int_pos p) as (m1 & e1 & -> & He1 & Hm1); [lia|].
  destruct (of_int_pos l) as (m2 & e2 & -> & He2 & Hm2); [lia|].
  cbn [mbind result_bind SFdiv xorb].
  pose proof (of_int_digits p m1 e1 ltac:(lia) He1 Hm1 ltac:(lia)) as Hd1.
  pose proof (of_int_digits l m2 e2 ltac:(lia) He2 Hm2 ltac:(lia)) as Hd2.
  assert (Hdp : Zdigits2 p ≤ 52) by (apply Zdigits2_le_iff; lia).
  assert (Hdl : 0 < Zdigits2 l).
  { apply Zdigits2_gt_iff; [lia..|]. change (2 ^ 0) with 1. lia. }
  unfold SFdiv_core_binary.
  set (e' := Z.min _ _).
  assert (He' : e' ≤ e1 - e2) by (unfold e'; lia).
  assert (He'0 : e' ≤ 0) by (unfold e', fexp, emin, prec, emax; lia).
  set (m' := match e1 - e2 - e' with Z.pos _ => _ | _ => _ end).
  assert (Hm' : m' = Z.pos m1 * 2 ^ (e1 - e2 - e')).
  { unfold m'. destruct (e1 - e2 - e') as [|k|k] eqn:Hk; [simpl; lia| |lia].
    by rewrite Z.shiftl_mul_pow2. }
  clearbody m' e'.
  assert (Hpow : ∀ k, 0 ≤ k → 0 < 2 ^ k) by (intros; apply Z.pow_pos_nonneg; lia).
  pose proof (Hpow (- e2 - e') ltac:(lia)) as Ht.
  assert (Hmt : m' = p * 2 ^ (- e2 - e')).
  { rewrite Hm', Hm1, <- Z.mul_assoc, <- Z.pow_add_r by lia. f_equal. f_equal. lia. }
  assert (Hm2t : Z.pos m2 * 2 ^ (- e') = l * 2 ^ (- e2 - e')).
  { rewrite Hm2, <- Z.mul_assoc, <- Z.pow_add_r by lia. f_equal. }
  assert (Hq : fst (Z.div_eucl m' (Z.pos m2)) = m' / Z.pos m2) by done.
  destruct (Z.div_eucl m' (Z.pos m2)) as [q r]. cbn [fst] in Hq. subst q.
  pose proof (Hpow (- e') ltac:(lia)) as Hpe.
  assert (HQ0 : 0 ≤ m' / Z.pos m2) by (apply Z.div_pos; nia).
  assert (HQge : 1 * 2 ^ (- e') ≤ m' / Z.pos m2).
  { apply Z.div_le_lower_bound; [lia|]. nia. }
  assert (HQd : Zdigits2 (m' / Z.pos m2) + e' ≤ 52).
  { assert (Zdigits2 (m' / Z.pos m2) ≤ 52 - e'); [|lia].
    apply Zdigits2_le_iff; [lia..|].
    apply Z.div_lt_upper_bound; [lia|].
    replace (52 - e') with (52 + - e') by lia. rewrite Z.pow_add_r by lia.
    nia. }
  pose proof (binary_round_aux_ge false (m' / Z.pos m2) e' (new_location (Z.pos m2) r) 1
                HQ0 He'0 ltac:(lia) HQge HQd) as Hge.
  pose proof (binary_round_aux_small false (m' / Z.pos m2) e' (new_location (Z.pos m2) r)
                HQ0 ltac:(lia) ltac:(lia)) as Hsmall.
  destruct (binary_round_aux prec emax false (m' / Z.pos m2) e' _) as [| | |s m e];
    try done.
  destruct Hge as (-> & He & Hm). destruct Hsmall as [Hd _].
  eexists. split; [done|]. apply clamp_ge_one; [done..|lia].
Qed.

(** The quotient of two [int]s clamps to [0.0] when the first is at most
    zero. *)
Lemma int_truediv_nonpos p l :
  p ≤ 0 → - 2 ^ 53 < p → 0 < l → l < 2 ^ 53 →
  ∃ q, int_truediv p l = Ok q ∧ min one (max zero q) = zero.
Proof.
  intros Hp Hp' Hl Hl'.
  destruct (int_truediv_small p l) as (q & Hq & Hsmall); [lia..|].
  exists q. split; [done|].
  unfold int_truediv in Hq. destruct (Z.eqb_spec l 0) as [|_]; [lia|].
  destruct (of_int_nonzero l) as (m2 & e2 & Hfl & _); [lia..|].
  rewrite Hfl in Hq. replace (l <? 0) with false in Hq by (symmetry; apply Z.ltb_ge; lia).
  destruct (Z.eq_dec p 0) as [->|Hp0].
  - cbn in Hq. by injection Hq as <-.
  - destruct (of_int_nonzero p) as (m1 & e1 & Hfp & _); [lia..|].
    rewrite Hfp in Hq. replace (p <? 0) with true in Hq by (symmetry; apply Z.ltb_lt; lia).
    cbn [mbind result_bind SFdiv xorb] in Hq.
    destruct (SFdiv_core_binary prec emax (Z.pos m1) e1 (Z.pos m2) e2) as [[mz ez] lz] eqn:Hcore.
    assert (Hmz : 0 ≤ mz).
    { unfold SFdiv_core_binary in Hcore.
      destruct (Z.div_eucl _ (Z.pos m2)) as [q' r'] eqn:Hdiv.
      injection Hcore as <- _ _.
      assert (Hq' : q' = fst (Z.div_eucl (match
          e1 - e2 - Z.min (fexp prec emax (Zdigits2 (Z.pos m1) + e1 - (Zdigits2 (Z.pos m2) + e2))) (e1 - e2)
        with
        | 0 => Z.pos m1
        | Z.pos _ => Z.shiftl (Z.pos m1) (e1 - e2 - Z.min (fexp prec emax (Zdigits2 (Z.pos m1) + e1 - (Zdigits2 (Z.pos m2) + e2))) (e1 - e2))
        | Z.neg _ => 0
        end) (Z.pos m2))) by (by rewrite Hdiv).
      rewrite Hq'. apply Z.div_pos; [|lia].
      destruct (e1 - e2 - _) as [|k|k]; [lia| |lia].
      apply Z.shiftl_nonneg. lia. }
    pose proof (binary_round_aux_sign true mz ez lz Hmz) as Hsign.
    destruct (binary_round_aux prec emax true mz ez lz) as [s| | |s m e];
      cbn [is_finite] in Hq; try done; injection Hq as <-; subst s; done.
Qed.

(** [int(n * x)] for [x] between [0.0] and [1.0] lies between [0] and [n]. *)
Lemma int_mul_to_int_bounds n x :
  0 ≤ n < 2 ^ 53 → unit_float x →
  ∃ k, int_mul n x ≫= to_int = Ok k ∧ 0 ≤ k ≤ n.
Proof.
  intros Hn Hx. unfold int_mul.
  destruct (Z.eq_dec n 0) as [->|Hn0].
  - exists 0. destruct x as [[]| | |[] m e]; try done; split; (reflexivity || lia).
  - destruct (of_int_pos n) as (mb & eb & -> & Heb & Hmb); [lia|].
    cbn [mbind result_bind].
    destruct x as [[]| | |[] mp ep]; try done.
    + exists 0. split; [reflexivity | lia].
    + destruct Hx as [Hep Hmp]. cbn [SFmul xorb].
      assert (Hpb : 0 < 2 ^ (- eb)) by (apply Z.pow_pos_nonneg; lia).
      assert (Hpp : 0 < 2 ^ (- ep)) by (apply Z.pow_pos_nonneg; lia).
      assert (Hle : Z.pos (mb * mp) ≤ n * 2 ^ (- (eb + ep))).
      { replace (- (eb + ep)) with (- eb + - ep) by lia.
        rewrite Z.pow_add_r, Pos2Z.inj_mul, Hmb by lia. nia. }
      pose proof (binary_round_aux_le false (Z.pos (mb * mp)) (eb + ep) n
                    ltac:(lia) ltac:(lia) ltac:(lia) Hle) as Hr.
      destruct (binary_round_aux prec emax false (Z.pos (mb * mp)) (eb + ep) loc_Exact)
        as [s| | |s m e]; try done.
      * exists 0. split; [reflexivity | lia].
      * destruct Hr as (-> & He & Hm). cbn [to_int].
        eexists. split; [done|].
        destruct e as [|pe|pe]; [| lia |].
        -- rewrite Z.shiftl_0_r. change (2 ^ (- 0)) with 1 in Hm. lia.
        -- rewrite Z.shiftr_div_pow2 by lia.
           assert (0 < 2 ^ Z.pos pe) by (apply Z.pow_pos_nonneg; lia).
           change (- Z.neg pe) with (Z.pos pe) in Hm.
           split; [apply Z.div_pos; lia|].
           apply Z.div_le_upper_bound; lia.
Qed.

(** [int(n * 1.0)] is [n] and [int(n * 0.0)] is [0]. *)
Lemma int_mul_one n : 0 ≤ n < 2 ^ 52 → int_mul n one ≫= to_int = Ok n.
Proof.
  intros Hn. unfold int_mul.
  destruct (Z.eq_dec n 0) as [->|Hn0]; [reflexivity|].
  assert (H5253 : 2 ^ 52 < 2 ^ 53) by (apply Z.pow_lt_mono_r; lia).
  destruct (of_int_pos n) as (mb & eb & -> & Heb & Hmb); [lia|].
  cbn [mbind result_bind]. unfold one. cbn [SFmul xorb].
  assert (Hpb : 0 < 2 ^ (- eb)) by (apply Z.pow_pos_nonneg; lia).
  assert (HM : Z.pos (mb * 4503599627370496) = n * 2 ^ (- (eb + -52))).
  { replace (- (eb + -52)) with (- eb + 52) by lia.
    rewrite Z.pow_add_r, Pos2Z.inj_mul, Hmb by lia.
    change (Z.pos 4503599627370496) with (2 ^ 52). ring. }
  assert (Hpe : 0 < 2 ^ (- (eb + -52))) by (apply Z.pow_pos_nonneg; lia).
  pose proof (binary_round_aux_le false (Z.pos (mb * 4503599627370496)) (eb + -52) n
                ltac:(lia) ltac:(lia) ltac:(lia) ltac:(lia)) as Hle.
  assert (Hd : Zdigits2 (Z.pos (mb * 4503599627370496)) + (eb + -52) ≤ 52).
  { assert (Zdigits2 (Z.pos (mb * 4503599627370496)) ≤ 52 - (eb + -52)); [|lia].
    apply Zdigits2_le_iff; [lia..|].
    replace (52 - (eb + -52)) with (52 + - (eb + -52)) by lia.
    rewrite Z.pow_add_r, HM by lia. nia. }
  pose proof (binary_round_aux_ge false (Z.pos (mb * 4503599627370496)) (eb + -52)
                loc_Exact n ltac:(lia) ltac:(lia) ltac:(lia) ltac:(lia) Hd) as Hge.
  destruct (binary_round_aux prec emax false _ (eb + -52) loc_Exact) as [| | |s m e];
    try done.
  destruct Hle as (-> & He & Hm1). destruct Hge as (_ & _ & Hm2).
  assert (Hm : Z.pos m = n * 2 ^ (- e)) by lia.
  cbn [to_int]. f_equal.
  destruct e as [|pe|pe]; [| lia |].
  - rewrite Z.shiftl_0_r. change (2 ^ (- 0)) with 1 in Hm. lia.
  - rewrite Z.shiftr_div_pow2 by lia. change (- Z.neg pe) with (Z.pos pe) in Hm.
    rewrite Hm. apply Z.div_mul. apply Z.pow_nonzero; lia.
Qed.

Lemma int_mul_zero n : Z.abs n < 2 ^ 53 → int_mul n zero ≫= to_int = Ok 0.
Proof.
  intros Hn. unfold int_mul.
  destruct (of_int_operand n Hn) as (f & -> & Hf & _).
  by destruct f.
Qed.

End PyFloatFacts.

(** ** Splitting, joining and wrapping *)

Section Wrap.

Lemma is_word_cons c w :
  is_word (c :: w) = true ↔
  is_space c = false ∧ forallb (fun c => negb (is_space c)) w = true.
Proof.
  cbn [is_word forallb]. rewrite andb_true_iff, negb_true_iff. done.
Qed.

Lemma is_word_forallb w :
  is_word w = true → forallb (fun c => negb (is_space c)) w = true.
Proof. destruct w; [done|]. intros H. apply is_word_cons in H as [Hc Hw]. simpl. by rewrite Hc. Qed.

Lemma split_word_app w rest :
  is_word w = true → at_word_end rest = true → split (w ++ rest) = w :: split rest.
Proof.
  induction w as [|c w IH]; [done|].
  intros [Hc Hw]%is_word_cons Hr. cbn [app split]. rewrite Hc.
  destruct w as [|c' w'].
  - cbn [app]. by rewrite Hr.
  - assert (Hw' : is_word (c' :: w') = true) by done.
    apply is_word_cons in Hw' as Hc'. destruct Hc' as [Hc' _].
    cbn [app at_word_end]. rewrite Hc'.
    change (c' :: w' ++ rest) with ((c' :: w') ++ rest). by rewrite IH.
Qed.

Lemma split_word w : is_word w = true → split w = [w].
Proof.
  intros Hw. rewrite <- (app_nil_r w) at 1. by rewrite split_word_app.
Qed.

Lemma split_space_app pre s :
  forallb is_space pre = true → split (pre ++ s) = split s.
Proof.
  induction pre as [|c pre IH]; [done|].
  cbn [forallb app split]. intros [Hc Hp]%andb_true_iff. rewrite Hc. auto.
Qed.

Lemma split_all_space s : forallb is_space s = true → split s = [].
Proof.
  intros Hs. rewrite <- (app_nil_r s). by rewrite split_space_app.
Qed.

Lemma split_words s : Forall (fun w => is_word w = true) (split s).
Proof.
  induction s as [|c s IH]; [constructor|].
  cbn [split]. destruct (is_space c) eqn:Hc; [done|].
  destruct (at_word_end s).
  - constructor; [|done]. apply is_word_cons. by rewrite Hc.
  - destruct (split s) as [|w ws]; inversion IH; subst.
    + constructor; [|done]. apply is_word_cons. by rewrite Hc.
    + constructor; [|done]. apply is_word_cons. split; [done|].
      by apply is_word_forallb.
Qed.

Lemma join_cons sep w w2 ws :
  join sep (w :: w2 :: ws) = w ++ sep ++ join sep (w2 :: ws).
Proof. done. Qed.

Lemma split_join ws :
  Forall (fun w => is_word w = true) ws → split (join (lit " ") ws) = ws.
Proof.
  induction ws as [|w ws IH]; [done|].
  intros Hws. inversion Hws as [|? ? Hw Hws']; subst.
  destruct ws as [|w2 ws'].
  - by apply split_word.
  - rewrite join_cons, split_word_app by done.
    rewrite split_space_app by done. by rewrite IH.
Qed.

Variable font : Font.
Variable max_width : Z.

Lemma wrap_step_words st word :
  Forall (fun w => is_word w = true) st.2 → is_word word = true →
  let st' := wrap_step font max_width st word in
  Forall (fun w => is_word w = true) st'.2 ∧ words_of st' = words_of st ++ [word].
Proof.
  destruct st as [lines cur]. cbn [fst snd]. intros Hcur Hw. unfold wrap_step.
  destruct (_ <=? _).
  - unfold words_of. cbn [fst snd]. split; [|by rewrite app_assoc].
    apply Forall_app. auto.
  - destruct cur as [|w0 cur'].
    + unfold words_of. cbn [fst snd]. split; [done|].
      rewrite map_app, concat_app. cbn [map concat].
      rewrite split_word by done. by rewrite !app_nil_r.
    + unfold words_of. cbn [fst snd]. split; [by repeat constructor|].
      rewrite map_app, concat_app. cbn [map concat].
      rewrite split_join by done. by rewrite app_nil_r.
Qed.

Lemma wrap_fold_words words : ∀ st,
  Forall (fun w => is_word w = true) st.2 →
  Forall (fun w => is_word w = true) words →
  let st' := fold_left (wrap_step font max_width) words st in
  Forall (fun w => is_word w = true) st'.2 ∧ words_of st' = words_of st ++ words.
Proof.
  induction words as [|w words IH]; intros st Hst Hws.
  - cbn. by rewrite app_nil_r.
  - inversion Hws as [|? ? Hw Hws']; subst. cbn [fold_left].
    destruct (wrap_step_words st w Hst Hw) as [Hcur Hst'].
    destruct (IH _ Hcur Hws') as [Hcur' Hfin].
    split; [done|]. rewrite Hfin, Hst'. by rewrite <- app_assoc.
Qed.

(** The lines of a [str]: [_wrap_text] always answers for one. *)
Lemma wrap_text_str text :
  ∃ lines, _wrap_text (VStr text) font max_width = Ok lines
           ∧ lines ≠ []
           ∧ concat (map split lines) = split text.
Proof.
  unfold _wrap_text. destruct text as [|c text']; [by exists [[]]|].
  cbn [py_truthy negb]. set (text := c :: text').
  pose proof (wrap_fold_words (split text) ([], [])) as H.
  destruct (fold_left _ _ _) as [lines cur].
  destruct H as [Hc Hw]; [done | apply split_words |].
  unfold words_of in Hw. cbn [fst snd map concat app] in *.
  destruct cur as [|w cur'].
  - rewrite app_nil_r in Hw. destruct lines as [|l lines'].
    + exists [[]]. by rewrite <- Hw.
    + eexists. split; [done|]. by split.
  - exists (lines ++ [join (lit " ") (w :: cur')]). split; [|split].
    + by destruct lines.
    + by destruct lines.
    + rewrite map_app, concat_app. cbn [map concat].
      rewrite split_join by done. by rewrite app_nil_r.
Qed.


Lemma wrap_fold_fits words : ∀ cur,
  (∀ k, text_width font (join (lit " ") (cur ++ take k words)) ≤ max_width) →
  fold_left (wrap_step font max_width) words ([], cur) = ([], cur ++ words).
Proof.
  induction words as [|w words IH]; intros cur Hfit.
  - cbn. by rewrite app_nil_r.
  - cbn [fold_left]. unfold wrap_step at 2.
    pose proof (Hfit 1%nat) as H1. change (take 1 (w :: words)) with [w] in H1.
    apply Z.leb_le in H1. rewrite H1.
    rewrite IH; [by rewrite <- app_assoc|].
    intros k. rewrite <- app_assoc. apply (Hfit (S k)).
Qed.

Lemma wrap_text_fits text :
  (∀ k, text_width font (join (lit " ") (take k (split text))) ≤ max_width) →
  _wrap_text (VStr text) font max_width = Ok [join (lit " ") (split text)].
Proof.
  intros Hfit. unfold _wrap_text. destruct text as [|c text']; [done|].
  cbn [py_truthy negb]. rewrite wrap_fold_fits by done. cbn [app].
  by destruct (split (c :: text')).
Qed.

Lemma wrap_text_oversized w :
  is_word w = true → max_width < text_width font w →
  _wrap_text (VStr w) font max_width = Ok [w].
Proof.
  intros Hw Hwide. unfold _wrap_text.
  destruct w as [|c w']; [done|]. cbn [py_truthy negb].
  rewrite split_word by done. cbn [fold_left wrap_step app join].
  apply Z.leb_gt in Hwide. by rewrite Hwide.
Qed.

Lemma wrap_text_blank text :
  forallb is_space text = true → _wrap_text (VStr text) font max_width = Ok [[]].
Proof.
  intros Hs. unfold _wrap_text. destruct (negb _); [done|].
  by rewrite split_all_space.
Qed.

Lemma wrap_text_nonempty v lines :
  _wrap_text v font max_width = Ok lines → lines ≠ [].
Proof.
  unfold _wrap_text. destruct (negb _); [by intros [= <-]|].
  destruct v as [| |text]; try done.
  destruct (fold_left _ _ _) as [ls cur].
  intros [= <-]. destruct cur; destruct ls; done.
Qed.

End Wrap.

Section Strip.

Lemma lstrip_space_app pre s :
  forallb is_space pre = true → lstrip (pre ++ s) = lstrip s.
Proof.
  induction pre as [|c pre IH]; [done|].
  cbn [forallb app lstrip]. intros [Hc Hp]%andb_true_iff. rewrite Hc. auto.
Qed.

Lemma lstrip_all_space s : forallb is_space s = true → lstrip s = [].
Proof. intros Hs. rewrite <- (app_nil_r s). by rewrite lstrip_space_app. Qed.

Lemma split_join_app ws post :
  Forall (fun w => is_word w = true) ws → forallb is_space post = true →
  split (join (lit " ") ws ++ post) = ws.
Proof.
  intros Hws Hpost.
  assert (Hend : at_word_end post = true).
  { destruct post as [|c post']; [done|]. cbn in *. by apply andb_true_iff in Hpost as [-> _]. }
  induction ws as [|w ws IH]; [by apply split_all_space|].
  inversion Hws as [|? ? Hw Hws']; subst.
  destruct ws as [|w2 ws'].
  - cbn [join]. rewrite split_word_app by done. by rewrite split_all_space.
  - rewrite join_cons, <- !app_assoc, split_word_app by done.
    rewrite split_space_app by done. by rewrite IH.
Qed.

(** A joined line begins and ends on a code point of a word. *)
Lemma join_words_head ws :
  Forall (fun w => is_word w = true) ws → ws ≠ [] →
  ∃ c y, join (lit " ") ws = c :: y ∧ is_space c = false.
Proof.
  intros Hws Hne. destruct ws as [|w ws]; [done|].
  inversion Hws as [|? ? Hw _]; subst.
  destruct w as [|c w']; [done|]. apply is_word_cons in Hw as [Hc _].
  destruct ws; cbn [join app]; eauto.
Qed.

Lemma join_words_last ws :
  Forall (fun w => is_word w = true) ws → ws ≠ [] →
  ∃ y c, join (lit " ") ws = y ++ [c] ∧ is_space c = false.
Proof.
  induction ws as [|w ws IH]; [done|]. intros Hws _.
  inversion Hws as [|? ? Hw Hws']; subst.
  destruct ws as [|w2 ws'].
  - cbn [join]. apply is_word_forallb in Hw as Hall.
    destruct w as [|c w' _] using rev_ind; [done|].
    rewrite forallb_app in Hall. apply andb_true_iff in Hall as [_ Hc].
    cbn in Hc. rewrite andb_true_r in Hc. apply negb_true_iff in Hc. eauto.
  - destruct IH as (y & c & Hy & Hc); [done..|].
    rewrite join_cons, Hy. exists (w ++ lit " " ++ y), c.
    by rewrite <- !app_assoc.
Qed.

Lemma forallb_rev {A} (f : A → bool) l : forallb f (rev l) = forallb f l.
Proof.
  induction l as [|a l IH]; [done|].
  cbn [rev forallb]. rewrite forallb_app, IH. cbn. rewrite andb_true_r. apply andb_comm.
Qed.

(** Text whose words are one space apart: the joined words are the
    stripped text. *)
Lemma strip_single_spaced pre ws post :
  forallb is_space pre = true → forallb is_space post = true →
  Forall (fun w => is_word w = true) ws →
  let text := pre ++ join (lit " ") ws ++ post in
  split text = ws ∧ strip text = join (lit " ") ws.
Proof.
  intros Hpre Hpost Hws. cbn zeta. split.
  - rewrite split_space_app by done. by apply split_join_app.
  - unfold strip. rewrite lstrip_space_app by done.
    destruct ws as [|w ws'].
    + cbn [join app]. by rewrite (lstrip_all_space post).
    + destruct (join_words_head (w :: ws') Hws) as (c & y & Hy & Hc); [done|].
      destruct (join_words_last (w :: ws') Hws) as (y' & c' & Hy' & Hc'); [done|].
      assert (Hl : lstrip (join (lit " ") (w :: ws') ++ post)
                   = join (lit " ") (w :: ws') ++ post).
      { rewrite Hy. cbn [app lstrip]. by rewrite Hc. }
      rewrite Hl, rev_app_distr, lstrip_space_app by (by rewrite forallb_rev).
      rewrite Hy', rev_app_distr. cbn [rev app lstrip]. rewrite Hc'.
      cbn [rev]. by rewrite rev_involutive.
Qed.

End Strip.

(** ** The progress fraction and the fill width *)

Section Progress.
Import PyFloat PyFloatFacts.

Lemma progress_of_ok position length :
  Z.abs position < 2 ^ 53 → Z.abs length < 2 ^ 53 → length ≠ 0 →
  ∃ q, int_truediv position length = Ok q
       ∧ progress_of position length = Ok (min one (max zero q))
       ∧ unit_float (min one (max zero q)).
Proof.
  intros Hp Hl Hl0.
  destruct (int_truediv_small position length Hp Hl Hl0) as (q & Hq & Hs).
  exists q. unfold progress_of. rewrite Hq. split; [done|]. split; [done|].
  by apply clamp_unit.
Qed.

Lemma fill_width_of_ok bar_width progress :
  Z.abs bar_width < 2 ^ 53 → unit_float progress →
  ∃ fill_width, fill_width_of bar_width progress = Ok fill_width.
Proof.
  intros Hb Hp. unfold fill_width_of, int_mul.
  destruct (of_int_operand bar_width Hb) as (fb & -> & Hfb & _).
  cbn [mbind result_bind].
  pose proof (SFmul_small fb progress Hfb Hp) as Hs.
  destruct (SFmul prec emax fb progress); try done; cbn [to_int]; eauto.
Qed.

Lemma fill_width_of_bounds bar_width progress :
  0 ≤ bar_width < 2 ^ 53 → unit_float progress →
  ∃ fill_width, fill_width_of bar_width progress = Ok fill_width
                ∧ 0 ≤ fill_width ≤ bar_width.
Proof. intros Hb Hp. by apply int_mul_to_int_bounds. Qed.

Lemma fill_width_of_one bar_width :
  0 ≤ bar_width < 2 ^ 52 → fill_width_of bar_width one = Ok bar_width.
Proof. apply int_mul_one. Qed.

Lemma fill_width_of_zero bar_width :
  Z.abs bar_width < 2 ^ 53 → fill_width_of bar_width zero = Ok 0.
Proof. apply int_mul_zero. Qed.

Lemma progress_of_full position length :
  0 < length → length ≤ position → position < 2 ^ 52 →
  progress_of position length = Ok one.
Proof.
  intros Hl Hlp Hp. unfold progress_of.
  destruct (int_truediv_ge_one position length Hl Hlp Hp) as (q & -> & Hq).
  cbn [mbind result_bind]. by rewrite Hq.
Qed.

Lemma progress_of_empty position length :
  position ≤ 0 → - 2 ^ 53 < position → 0 < length → length < 2 ^ 53 →
  progress_of position length = Ok zero.
Proof.
  intros Hp Hp' Hl Hl'. unfold progress_of.
  destruct (int_truediv_nonpos position length Hp Hp' Hl Hl') as (q & -> & Hq).
  cbn [mbind result_bind]. by rewrite Hq.
Qed.

End Progress.

(** ** Rendering *)

Section Rendering.

Variable self : DisplayManager.

Lemma draw_lines_ops font margin advance lines : ∀ image y_pos,
  ∃ texts,
    ops (draw_lines font margin advance (image, y_pos) lines).1 = ops image ++ texts
    ∧ Forall (fun op => is_rectangle op = false) texts.
Proof.
  induction lines as [|line lines IH]; intros image y_pos.
  - exists []. by rewrite app_nil_r.
  - cbn [draw_lines fold_left].
    destruct (IH (draw image (DrawText (margin, y_pos) line Black font)) (y_pos + advance))
      as (texts & Hops & Htexts).
    exists (DrawText (margin, y_pos) line Black font :: texts).
    unfold draw_lines in Hops. rewrite Hops. cbn [draw ops].
    rewrite <- app_assoc. split; [done|]. by constructor.
Qed.

(** The text block never fails on text fields: it draws the glyph, then
    texts, and no rectangle. *)
Lemma draw_track_text_ok (title artist album : str) status image :
  ∃ hdr texts,
    draw_track_text self (VStr title) (VStr artist) (VStr album) status image = Ok hdr
    ∧ ops hdr = ops image
                ++ DrawText (5, 5) (status_icon_of status) Black FontMedium :: texts
    ∧ Forall (fun op => is_rectangle op = false) texts.
Proof.
  unfold draw_track_text.
  destruct (wrap_text_str (font_large self) (driver_width self - 2 * 5) title)
    as (tl & -> & _ & _).
  destruct (wrap_text_str (font_medium self) (driver_width self - 2 * 5) artist)
    as (al & -> & _ & _).
  destruct (wrap_text_str (font_small self) (driver_width self - 2 * 5) album)
    as (bl & -> & _ & _).
  cbn [mbind result_bind].
  set (i0 := draw image _).
  destruct (draw_lines_ops FontLarge 5 25 (take 2 tl) i0 (5 + 25)) as (t1 & H1 & F1).
  destruct (draw_lines FontLarge 5 25 (i0, 5 + 25) (take 2 tl)) as [i1 y1].
  destruct (draw_lines_ops FontMedium 5 20 (take 1 al) i1 y1) as (t2 & H2 & F2).
  destruct (draw_lines FontMedium 5 20 (i1, y1) (take 1 al)) as [i2 y2].
  destruct (draw_lines_ops FontSmall 5 18 (take 1 bl) i2 y2) as (t3 & H3 & F3).
  destruct (draw_lines FontSmall 5 18 (i2, y2) (take 1 bl)) as [i3 y3].
  cbn [fst] in *.
  exists i3, (t1 ++ t2 ++ t3). split; [done|]. split; [|by rewrite !Forall_app].
  rewrite H3, H2, H1. unfold i0. cbn [draw ops]. by rewrite <- !app_assoc.
Qed.

Lemma draw_progress_none position length image :
  length ≤ 0 → draw_progress self position length image = Ok image.
Proof.
  intros Hl. unfold draw_progress. apply Z.ltb_ge in Hl. by rewrite Hl.
Qed.

Lemma ImageDraw_rectangle_ok image x0 y0 x1 y1 outline fill :
  x0 ≤ x1 → y0 ≤ y1 →
  ImageDraw_rectangle image (x0, y0, x1, y1) outline fill
  = Ok (draw image (DrawRectangle (x0, y0, x1, y1) outline fill)).
Proof.
  intros Hx Hy. unfold ImageDraw_rectangle.
  apply Z.ltb_ge in Hx, Hy. by rewrite Hx, Hy.
Qed.

(** The progress block for a positive length, on a display wide enough for
    the bar: the outline, the fill when its width is positive, the time
    label. *)
Lemma draw_progress_some position length image :
  0 < length → length < 2 ^ 53 → Z.abs position < 2 ^ 53 →
  0 ≤ driver_width self - 10 < 2 ^ 53 →
  ∃ q fill_width image',
    PyFloat.int_truediv position length = Ok q
    ∧ fill_width_of (driver_width self - 10)
                    (PyFloat.min PyFloat.one (PyFloat.max PyFloat.zero q))
      = Ok fill_width
    ∧ draw_progress self position length image = Ok image'
    ∧ ops image'
      = ops image
        ++ DrawRectangle (5, driver_height self - 35,
                          5 + (driver_width self - 10), driver_height self - 35 + 10)
                         (Some Black) (Some White)
           :: (if 0 <? fill_width
               then [DrawRectangle (5, driver_height self - 35,
                                    5 + fill_width, driver_height self - 35 + 10)
                                   None (Some Black)]
               else [])
        ++ [DrawText (5, driver_height self - 35 + 10 + 2)
                     (_format_time position ++ lit " / " ++ _format_time length)
                     Black FontSmall].
Proof.
  intros Hl Hl' Hp Hw.
  destruct (progress_of_ok position length) as (q & Hq & Hpr & Hu); [lia..|].
  destruct (fill_width_of_ok (driver_width self - 10) _ ltac:(lia) Hu) as (fw & Hfw).
  unfold draw_progress. apply Z.ltb_lt in Hl. rewrite Hl, Hpr.
  cbn [mbind result_bind]. change (2 * 5) with 10.
  rewrite ImageDraw_rectangle_ok by lia. cbn [mbind result_bind].
  rewrite Hfw. cbn [mbind result_bind].
  destruct (Z.ltb_spec 0 fw) as [Hfill|Hfill].
  - rewrite ImageDraw_rectangle_ok by lia. cbn [mbind result_bind].
    eexists q, fw, _. split; [done|]. split; [done|]. split; [done|].
    assert ((0 <? fw) = true) as -> by (by apply Z.ltb_lt).
    cbn [draw ops]. by rewrite <- !app_assoc.
  - cbn [mbind result_bind].
    eexists q, fw, _. split; [done|]. split; [done|]. split; [done|].
    assert ((0 <? fw) = false) as -> by (by apply Z.ltb_ge).
    cbn [draw ops]. by rewrite <- !app_assoc.
Qed.

(** On a display narrower than 10 the bar has a negative width: the
    outline is refused, and nothing of the block is drawn. *)
Lemma draw_progress_narrow position length image :
  0 < length → length < 2 ^ 53 → Z.abs position < 2 ^ 53 →
  driver_width self < 10 →
  draw_progress self position length image = Raise ValueError.
Proof.
  intros Hl Hl' Hp Hw.
  destruct (progress_of_ok position length) as (q & Hq & Hpr & Hu); [lia..|].
  unfold draw_progress. apply Z.ltb_lt in Hl. rewrite Hl, Hpr.
  cbn [mbind result_bind]. unfold ImageDraw_rectangle.
  assert ((5 + (driver_width self - 2 * 5) <? 5) = true) as -> by (apply Z.ltb_lt; lia).
  done.
Qed.

Lemma is_text_default (v : option pyval) (dflt : str) :
  is_text v = true → ∃ s, default (VStr dflt) v = VStr s.
Proof. destruct v as [[]|]; try done; cbn; eauto. Qed.

Lemma is_int64_default (v : option pyval) :
  is_int64 v = true →
  ∃ n, default (VInt 0) v = VInt n ∧ - 2 ^ 63 ≤ n < 2 ^ 63.
Proof.
  destruct v as [[]|]; try done; cbn.
  - intros [H1 H2]%andb_true_iff. apply Z.leb_le in H1. apply Z.ltb_lt in H2. eauto.
  - intros _. exists 0. done.
Qed.

Lemma seconds_range n :
  - 2 ^ 63 ≤ n < 2 ^ 63 → Z.abs (n / 1000000) < 2 ^ 53.
Proof.
  change (2 ^ 63) with 9223372036854775808.
  change (2 ^ 53) with 9007199254740992. intros Hn.
  pose proof (Z.div_mod n 1000000 ltac:(lia)).
  pose proof (Z.mod_pos_bound n 1000000 ltac:(lia)). lia.
Qed.

Lemma geometry_bar_width :
  geometry_ok self = true → 0 ≤ driver_width self - 10 < 2 ^ 53.
Proof.
  unfold geometry_ok. rewrite !andb_true_iff.
  intros [[[H1 H2] _] _]. apply Z.leb_le in H1. apply Z.ltb_lt in H2.
  change (2 ^ 31) with 2147483648 in H2.
  change (2 ^ 53) with 9007199254740992. lia.
Qed.

(** [update_display] on a well-typed snapshot: the second counts, then the
    text block, then the progress block. *)
Lemma update_display_unfold metadata :
  well_typed metadata = true →
  update_display self metadata
  = track_text_of self metadata
    ≫= draw_progress self (int_field metadata "position" / 1000000)
                          (int_field metadata "length" / 1000000).
Proof.
  unfold well_typed. rewrite !andb_true_iff. intros [[_ Hp] Hl].
  unfold update_display, track_text_of, int_field, dict_get_default.
  destruct (is_int64_default _ Hp) as (p & -> & _).
  destruct (is_int64_default _ Hl) as (l & -> & _).
  done.
Qed.

Lemma track_text_of_ok metadata :
  well_typed metadata = true →
  ∃ hdr texts,
    track_text_of self metadata = Ok hdr
    ∧ ops hdr
      = DrawText (5, 5)
          (status_icon_of (dict_get_default metadata "status" (VStr (lit "Stopped"))))
          Black FontMedium :: texts
    ∧ Forall (fun op => is_rectangle op = false) texts.
Proof.
  unfold well_typed. rewrite !andb_true_iff. intros [[[[Ht Ha] Hb] _] _].
  unfold track_text_of, dict_get_default.
  destruct (is_text_default _ (lit "Unknown Title") Ht) as (t & ->).
  destruct (is_text_default _ (lit "Unknown Artist") Ha) as (a & ->).
  destruct (is_text_default _ (lit "Unknown Album") Hb) as (b & ->).
  apply draw_track_text_ok.
Qed.


(** What [update_display] hands to the driver for a well-typed snapshot. *)
Lemma update_display_spec metadata :
  well_typed metadata = true → geometry_ok self = true →
  let position := int_field metadata "position" / 1000000 in
  let length := int_field metadata "length" / 1000000 in
  ∃ hdr texts,
    track_text_of self metadata = Ok hdr
    ∧ ops hdr
      = DrawText (5, 5)
          (status_icon_of (dict_get_default metadata "status" (VStr (lit "Stopped"))))
          Black FontMedium :: texts
    ∧ Forall (fun op => is_rectangle op = false) texts
    ∧ (length ≤ 0 → update_display self metadata = Ok hdr)
    ∧ (0 < length →
       ∃ q fill_width image,
         PyFloat.int_truediv position length = Ok q
         ∧ fill_width_of (driver_width self - 10)
                         (PyFloat.min PyFloat.one (PyFloat.max PyFloat.zero q))
           = Ok fill_width
         ∧ update_display self metadata = Ok image
         ∧ ops image
           = ops hdr
             ++ DrawRectangle (5, driver_height self - 35,
                               5 + (driver_width self - 10), driver_height self - 35 + 10)
                              (Some Black) (Some White)
                :: (if 0 <? fill_width
                    then [DrawRectangle (5, driver_height self - 35,
                                         5 + fill_width, driver_height self - 35 + 10)
                                        None (Some Black)]
                    else [])
             ++ [DrawText (5, driver_height self - 35 + 10 + 2)
                          (_format_time position ++ lit " / " ++ _format_time length)
                          Black FontSmall]).
Proof.
  intros Hwt Hgeo position length.
  destruct (track_text_of_ok metadata Hwt) as (hdr & texts & Hhdr & Hops & Htexts).
  exists hdr, texts. split; [done|]. split; [done|]. split; [done|].
  rewrite (update_display_unfold metadata Hwt), Hhdr. cbn [mbind result_bind].
  assert (Hrange : ∀ key, is_int64 (metadata !! key) = true →
                          Z.abs (int_field metadata key / 1000000) < 2 ^ 53).
  { intros key Hk. unfold int_field, dict_get_default.
    destruct (is_int64_default _ Hk) as (n & -> & Hn). by apply seconds_range. }
  unfold well_typed in Hwt. rewrite !andb_true_iff in Hwt. destruct Hwt as [[_ Hp] Hl].
  split.
  - fold position length. apply draw_progress_none.
  - intros Hlen.
    destruct (draw_progress_some position length hdr) as (q & fw & img & H1 & H2 & H3 & H4);
      [done | | by apply Hrange | by apply geometry_bar_width |].
    { pose proof (Hrange "length" Hl). fold length in H. lia. }
    exists q, fw, img. fold position length. done.
Qed.

Lemma update_display_total metadata :
  well_typed metadata = true → geometry_ok self = true →
  ∃ image, update_display self metadata = Ok image.
Proof.
  intros Hwt Hgeo.
  destruct (update_display_spec metadata Hwt Hgeo) as (hdr & texts & _ & _ & _ & H0 & H1).
  destruct (Z.le_gt_cases (int_field metadata "length" / 1000000) 0) as [Hle|Hgt].
  - eauto.
  - destruct (H1 ltac:(lia)) as (q & fw & img & _ & _ & Himg & _). eauto.
Qed.

(** On a display narrower than 10, a well-typed snapshot with a length of a
    second or more gets no frame: the text block is drawn, then the outline
    of the bar is refused, and [driver.display] is not reached. *)
Lemma update_display_narrow metadata :
  well_typed metadata = true → driver_width self < 10 →
  1000000 ≤ int_field metadata "length" →
  update_display self metadata = Raise ValueError.
Proof.
  intros Hwt Hnarrow Hlen.
  destruct (track_text_of_ok metadata Hwt) as (hdr & texts & Hhdr & _).
  rewrite (update_display_unfold metadata Hwt), Hhdr. cbn [mbind result_bind].
  assert (Hrange : ∀ key, is_int64 (metadata !! key) = true →
                          Z.abs (int_field metadata key / 1000000) < 2 ^ 53).
  { intros key Hk. unfold int_field, dict_get_default.
    destruct (is_int64_default _ Hk) as (n & -> & Hn). by apply seconds_range. }
  unfold well_typed in Hwt. rewrite !andb_true_iff in Hwt. destruct Hwt as [[_ Hp] Hl].
  pose proof (Hrange "position" Hp) as Hpr. pose proof (Hrange "length" Hl) as Hlr.
  assert (0 < int_field metadata "length" / 1000000)
    by (apply Z.div_str_pos; lia).
  apply draw_progress_narrow; [done|lia|done|done].
Qed.

End Rendering.

(** The track of test 3 on a display of 8 by 122: no frame, and the loop
    logs the [ValueError] of each round and remembers nothing. *)
Example narrow_display_example :
  geometry_ok narrow_display = false
  ∧ update_display narrow_display bohemian_rhapsody = Raise ValueError
  ∧ _update_loop (SpotifydDisplay_init narrow_display)
                 [Some bohemian_rhapsody; Some bohemian_rhapsody]
    = {| display_manager := narrow_display; last_metadata := None;
         displayed := []; logged := [ValueError; ValueError] |}.
Proof. split; [done|]. split; vm_compute; reflexivity. Qed.

(** ** The update decision *)

Lemma py_ne_false a b : py_ne a b = false ↔ a = b.
Proof.
  unfold py_ne, py_eq. rewrite negb_false_iff. apply bool_decide_eq_true.
Qed.

Lemma py_ne_true a b : py_ne a b = true ↔ a ≠ b.
Proof.
  unfold py_ne, py_eq. rewrite negb_true_iff. apply bool_decide_eq_false.
Qed.

(** The decision for two present snapshots, as one boolean. *)
Lemma should_update_present p c :
  _should_update (Some p) (Some c)
  = py_ne (dict_get c "title") (dict_get p "title")
    || py_ne (dict_get c "artist") (dict_get p "artist")
    || py_ne (dict_get c "status") (dict_get p "status")
    || py_eq (dict_get c "status") (VStr (lit "Playing")).
Proof.
  cbn [_should_update].
  destruct (py_ne (dict_get c "title") _), (py_ne (dict_get c "artist") _),
    (py_ne (dict_get c "status") _), (py_eq (dict_get c "status") _); done.
Qed.

(** C1. [_should_update] follows the five-case table: both snapshots absent,
    no update; exactly one absent, update; both present and the title, the
    artist or the status differs, update; both present and unchanged with
    the current status [Playing], update; otherwise no update. *)
Theorem should_update_truth_table (previous current : option dict) :
  (previous = None → current = None → _should_update previous current = false)
  ∧ (previous = None → is_Some current → _should_update previous current = true)
  ∧ (is_Some previous → current = None → _should_update previous current = true)
  ∧ (∀ p c, previous = Some p → current = Some c →
       dict_get c "title" ≠ dict_get p "title"
       ∨ dict_get c "artist" ≠ dict_get p "artist"
       ∨ dict_get c "status" ≠ dict_get p "status" →
       _should_update previous current = true)
  ∧ (∀ p c, previous = Some p → current = Some c →
       dict_get c "title" = dict_get p "title" →
       dict_get c "artist" = dict_get p "artist" →
       dict_get c "status" = dict_get p "status" →
       dict_get c "status" = VStr (lit "Playing") →
       _should_update previous current = true)
  ∧ (∀ p c, previous = Some p → current = Some c →
       dict_get c "title" = dict_get p "title" →
       dict_get c "artist" = dict_get p "artist" →
       dict_get c "status" = dict_get p "status" →
       dict_get c "status" ≠ VStr (lit "Playing") →
       _should_update previous current = false).
Proof.
  repeat split.
  - by intros -> ->.
  - by intros -> [c ->].
  - by intros [p ->] ->.
  - intros p c -> -> Hdiff. rewrite should_update_present.
    destruct Hdiff as [H|[H|H]]; apply py_ne_true in H; rewrite H;
      by rewrite ?orb_true_r.
  - intros p c -> -> _ _ _ Hplay. rewrite should_update_present.
    unfold py_eq at 1. rewrite bool_decide_eq_true_2 by done. by rewrite orb_true_r.
  - intros p c -> -> Ht Ha Hs Hplay. rewrite should_update_present.
    apply py_ne_false in Ht, Ha, Hs. rewrite Ht, Ha, Hs.
    unfold py_eq. by rewrite bool_decide_eq_false_2.
Qed.

Lemma should_update_truth_table_witness :
  _should_update (Some paused_A_X) (Some paused_A_X) = false
  ∧ _should_update (Some playing_A_X) (Some playing_A_X) = true.
Proof.
  split.
  - apply (should_update_truth_table (Some paused_A_X) (Some paused_A_X))
      with (p := paused_A_X) (c := paused_A_X); try reflexivity.
    vm_compute. discriminate.
  - destruct (should_update_truth_table (Some playing_A_X) (Some playing_A_X))
      as (_ & _ & _ & _ & Hplay & _).
    apply (Hplay playing_A_X playing_A_X); reflexivity.
Defined.

(** C9. The decision reads nothing but the presence of the snapshots and
    their title, artist and status: two pairs of present snapshots that agree
    on these three fields get the same answer, whatever the album, the
    position, the length and the art URL; and that answer is "no update"
    when the pair itself is unchanged and not playing. *)
Theorem should_update_noninterference (p c p' c' : dict) :
  (dict_get p "title" = dict_get p' "title" →
   dict_get p "artist" = dict_get p' "artist" →
   dict_get p "status" = dict_get p' "status" →
   dict_get c "title" = dict_get c' "title" →
   dict_get c "artist" = dict_get c' "artist" →
   dict_get c "status" = dict_get c' "status" →
   _should_update (Some p) (Some c) = _should_update (Some p') (Some c'))
  ∧ (dict_get c "title" = dict_get p "title" →
     dict_get c "artist" = dict_get p "artist" →
     dict_get c "status" = dict_get p "status" →
     dict_get c "status" ≠ VStr (lit "Playing") →
     _should_update (Some p) (Some c) = false).
Proof.
  split.
  - intros Hpt Hpa Hps Hct Hca Hcs. rewrite !should_update_present.
    by rewrite Hpt, Hpa, Hps, Hct, Hca, Hcs.
  - intros Ht Ha Hs Hplay. rewrite should_update_present.
    apply py_ne_false in Ht, Ha, Hs. rewrite Ht, Ha, Hs.
    unfold py_eq. by rewrite bool_decide_eq_false_2.
Qed.

Lemma should_update_noninterference_witness :
  _should_update (Some paused_A_X) (Some paused_elsewhere)
  = _should_update (Some paused_A_X) (Some paused_A_X)
  ∧ _should_update (Some paused_A_X) (Some paused_elsewhere) = false.
Proof.
  destruct (should_update_noninterference paused_A_X paused_elsewhere paused_A_X paused_A_X)
    as [Hsame Hstill].
  split.
  - apply Hsame; reflexivity.
  - apply Hstill; try reflexivity. vm_compute. discriminate.
Defined.

(** ** Text wrapping *)

(** C4. [_wrap_text] drops no word: the words of the returned lines, taken
    in order, are the words of the input; and a single word wider than
    [max_width] comes back as a line of its own. *)
Theorem wrap_never_drops_words (font : Font) (max_width : Z) (text : str) :
  (∃ lines, _wrap_text (VStr text) font max_width = Ok lines
            ∧ concat (map split lines) = split text)
  ∧ (is_word text = true → max_width < text_width font text →
     _wrap_text (VStr text) font max_width = Ok [text]).
Proof.
  split.
  - destruct (wrap_text_str font max_width text) as (lines & Hl & _ & Hw). eauto.
  - apply wrap_text_oversized.
Qed.

Lemma wrap_never_drops_words_witness :
  _wrap_text (VStr (lit "Supercalifragilisticexpialidocious")) bitmap_font 20
  = Ok [lit "Supercalifragilisticexpialidocious"].
Proof.
  apply (wrap_never_drops_words bitmap_font 20 (lit "Supercalifragilisticexpialidocious"));
    vm_compute; reflexivity.
Defined.

(** C5, as the specification states it, fails on a short text with two
    spaces between its words: the line comes back with one space. *)
Lemma wrap_short_text_is_not_the_trimmed_input :
  ¬ (text_width bitmap_font (lit "a  b") ≤ 240 →
     _wrap_text (VStr (lit "a  b")) bitmap_font 240 = Ok [strip (lit "a  b")]).
Proof.
  intros H. assert (Hw : text_width bitmap_font (lit "a  b") ≤ 240) by (vm_compute; discriminate).
  specialize (H Hw). vm_compute in H. discriminate.
Qed.

(** C5, amended. When the words of the text, joined by single spaces, fit
    [max_width] at every prefix of the word sequence, [_wrap_text] returns
    exactly one line: the words joined by single spaces. That line is the
    stripped input when the input is words one space apart between leading
    and trailing whitespace. *)
Theorem wrap_short_text (font : Font) (max_width : Z) (text : str) :
  (∀ k, text_width font (join (lit " ") (take k (split text))) ≤ max_width) →
  _wrap_text (VStr text) font max_width = Ok [join (lit " ") (split text)]
  ∧ (∀ pre ws post,
       text = pre ++ join (lit " ") ws ++ post →
       forallb is_space pre = true → forallb is_space post = true →
       Forall (fun w => is_word w = true) ws →
       join (lit " ") (split text) = strip text).
Proof.
  intros Hfit. split; [by apply wrap_text_fits|].
  intros pre ws post -> Hpre Hpost Hws.
  destruct (strip_single_spaced pre ws post Hpre Hpost Hws) as [-> ->]. done.
Qed.

Lemma wrap_short_text_witness :
  _wrap_text (VStr (lit "  Test Track ")) bitmap_font 240 = Ok [lit "Test Track"].
Proof.
  apply (wrap_short_text bitmap_font 240 (lit "  Test Track ")).
  intros [|[|[|k]]]; vm_compute; discriminate.
Defined.

(** C6. An empty or whitespace-only text wraps to the single empty line, and
    [_wrap_text] never answers an empty list of lines. *)
Theorem wrap_blank_and_nonempty (font : Font) (max_width : Z) (text : str) :
  (forallb is_space text = true → _wrap_text (VStr text) font max_width = Ok [[]])
  ∧ (∃ lines, _wrap_text (VStr text) font max_width = Ok lines ∧ lines ≠ [])
  ∧ (∀ v lines, _wrap_text v font max_width = Ok lines → lines ≠ []).
Proof.
  split; [apply wrap_text_blank|]. split.
  - destruct (wrap_text_str font max_width text) as (lines & Hl & Hne & _). eauto.
  - apply wrap_text_nonempty.
Qed.

Lemma wrap_blank_and_nonempty_witness :
  _wrap_text (VStr [32%N; 9%N; 160%N; 10%N]) bitmap_font 240 = Ok [[]].
Proof.
  apply (wrap_blank_and_nonempty bitmap_font 240 [32%N; 9%N; 160%N; 10%N]).
  vm_compute. reflexivity.
Defined.

(** ** Time formatting *)

Lemma format_0d_two_digits n :
  0 ≤ n < 100 → format_0d 2 n = [digit (n / 10); digit (n mod 10)].
Proof.
  intros Hn.
  assert (Hall : forallb (fun n => bool_decide
                            (format_0d 2 n = [digit (n / 10); digit (n mod 10)]))
                         (seqZ 0 100) = true) by (vm_compute; reflexivity).
  rewrite forallb_forall in Hall.
  specialize (Hall n). rewrite <- list_elem_of_In, elem_of_seqZ in Hall.
  eapply bool_decide_eq_true_1, Hall. lia.
Qed.

(** C7. For non-negative seconds [_format_time] is the minutes
    ([seconds div 60]) and the seconds ([seconds mod 60]), each formatted
    ["02d"], around a colon: two digits each below a hundred minutes. For a
    snapshot 120000000 microseconds into 354000000, on a display at least
    10 wide ([geometry_ok]), [update_display] draws the time label
    ["02:00 / 05:54"]. *)
Theorem format_time_spec :
  (∀ seconds, 0 ≤ seconds →
     _format_time seconds
     = format_0d 2 (seconds / 60) ++ lit ":" ++ format_0d 2 (seconds mod 60)
     ∧ (seconds < 6000 →
        _format_time seconds
        = [digit (seconds / 60 / 10); digit ((seconds / 60) mod 10); 58%N;
           digit (seconds mod 60 / 10); digit ((seconds mod 60) mod 10)]))
  ∧ (∀ self metadata,
       well_typed metadata = true → geometry_ok self = true →
       metadata !! "length" = Some (VInt 354000000) →
       metadata !! "position" = Some (VInt 120000000) →
       ∃ image, update_display self metadata = Ok image
                ∧ last (ops image)
                  = Some (DrawText (5, driver_height self - 35 + 10 + 2)
                                   (lit "02:00 / 05:54") Black FontSmall)).
Proof.
  split.
  - intros seconds Hs. split; [done|]. intros Hlt. unfold _format_time.
    pose proof (Z.mod_pos_bound seconds 60 ltac:(lia)).
    assert (0 ≤ seconds / 60 < 100).
    { split; [apply Z.div_pos; lia | apply Z.div_lt_upper_bound; lia]. }
    by rewrite !format_0d_two_digits by lia.
  - intros self metadata Hwt Hgeo Hlen Hpos.
    destruct (update_display_spec self metadata Hwt Hgeo) as (hdr & texts & _ & _ & _ & _ & H).
    assert (Hl : int_field metadata "length" = 354000000).
    { unfold int_field, dict_get_default. by rewrite Hlen. }
    assert (Hp : int_field metadata "position" = 120000000).
    { unfold int_field, dict_get_default. by rewrite Hpos. }
    rewrite Hl, Hp in H.
    destruct H as (q & fw & image & _ & _ & Himg & Hops); [done|].
    exists image. split; [done|]. rewrite Hops.
    rewrite app_comm_cons, app_assoc, last_snoc. done.
Qed.

Lemma format_time_spec_witness :
  _format_time 354 = lit "05:54"
  ∧ ∃ image, update_display default_display bohemian_rhapsody = Ok image
             ∧ last (ops image)
               = Some (DrawText (5, 99) (lit "02:00 / 05:54") Black FontSmall).
Proof.
  destruct format_time_spec as [Hfmt Hlabel]. split.
  - destruct (Hfmt 354) as [_ H]; [lia|]. apply H. lia.
  - apply (Hlabel default_display bohemian_rhapsody); reflexivity.
Defined.

(** ** The progress bar *)

Lemma existsb_no_rectangle l :
  Forall (fun op => is_rectangle op = false) l → existsb is_rectangle l = false.
Proof. induction 1 as [|op l Hop _ IH]; [done|]. cbn. by rewrite Hop, IH. Qed.

Lemma fill_rect_widths_texts l :
  Forall (fun op => is_rectangle op = false) l →
  omap (fun op =>
          match op with
          | DrawRectangle (x0, _, x1, _) None (Some Black) => Some (x1 - x0)
          | _ => None
          end) l = [].
Proof.
  induction 1 as [|op l Hop _ IH]; [done|]. destruct op; [|done]. cbn. by rewrite IH.
Qed.

Lemma seconds_range_52 n :
  - 2 ^ 63 ≤ n < 2 ^ 63 → Z.abs (n / 1000000) < 2 ^ 52.
Proof.
  change (2 ^ 63) with 9223372036854775808.
  change (2 ^ 52) with 4503599627370496. intros Hn.
  pose proof (Z.div_mod n 1000000 ltac:(lia)).
  pose proof (Z.mod_pos_bound n 1000000 ltac:(lia)). lia.
Qed.

Lemma well_typed_seconds metadata :
  well_typed metadata = true →
  Z.abs (int_field metadata "position" / 1000000) < 2 ^ 52
  ∧ Z.abs (int_field metadata "length" / 1000000) < 2 ^ 52.
Proof.
  unfold well_typed. rewrite !andb_true_iff. intros [[_ Hp] Hl].
  unfold int_field, dict_get_default.
  destruct (is_int64_default _ Hp) as (p & -> & Hpr).
  destruct (is_int64_default _ Hl) as (l & -> & Hlr).
  split; by apply seconds_range_52.
Qed.

Lemma whole_seconds_positive n : 0 < n / 1000000 ↔ 1000000 ≤ n.
Proof.
  pose proof (Z.div_mod n 1000000 ltac:(lia)).
  pose proof (Z.mod_pos_bound n 1000000 ltac:(lia)). lia.
Qed.

(** C2, as the specification states it, fails for a length under a second:
    the length in microseconds is positive and no bar is drawn. *)
Lemma progress_bar_needs_a_whole_second :
  ¬ (0 < int_field subsecond_track "length" →
     ∃ image, update_display default_display subsecond_track = Ok image
              ∧ existsb is_rectangle (ops image) = true).
Proof.
  intros H. destruct H as (image & Himage & Hbar); [done|].
  vm_compute in Himage. injection Himage as <-. vm_compute in Hbar. discriminate.
Qed.

(** C2, amended. On a display at least 10 wide (which [geometry_ok] asks
    for: the bar spans the width less 10), [update_display] draws the
    progress bar and its time label exactly when the length is at least one
    second, that is when [length_micros // 1000000 > 0]. Below a second, and
    so for a length of zero, the frame is the text block alone: no rectangle
    and no label. From a second on, the outline of the bar, the fill if any
    and the label follow the text block. On a narrower display the outline
    is refused with a [ValueError] ([update_display_narrow]). *)
Theorem progress_bar_iff_whole_second (self : DisplayManager) (metadata : dict) :
  well_typed metadata = true → geometry_ok self = true →
  ∃ hdr image,
    track_text_of self metadata = Ok hdr
    ∧ update_display self metadata = Ok image
    ∧ existsb is_rectangle (ops hdr) = false
    ∧ existsb is_rectangle (ops image) = (1000000 <=? int_field metadata "length")
    ∧ (int_field metadata "length" < 1000000 → image = hdr)
    ∧ (1000000 ≤ int_field metadata "length" →
       ∃ fill,
         ops image
         = ops hdr
           ++ DrawRectangle (5, driver_height self - 35,
                             5 + (driver_width self - 10), driver_height self - 35 + 10)
                            (Some Black) (Some White)
              :: fill
           ++ [DrawText (5, driver_height self - 35 + 10 + 2)
                        (_format_time (int_field metadata "position" / 1000000)
                         ++ lit " / "
                         ++ _format_time (int_field metadata "length" / 1000000))
                        Black FontSmall]
         ∧ Forall (fun op => is_rectangle op = true) fill
         ∧ (length fill ≤ 1)%nat).
Proof.
  intros Hwt Hgeo.
  destruct (update_display_spec self metadata Hwt Hgeo)
    as (hdr & texts & Hhdr & Hops & Htexts & Hnone & Hsome).
  assert (Hh : existsb is_rectangle (ops hdr) = false).
  { rewrite Hops. cbn. by apply existsb_no_rectangle. }
  destruct (Z.le_gt_cases 1000000 (int_field metadata "length")) as [Hge|Hlt].
  - destruct Hsome as (q & fw & image & _ & _ & Himage & Himg); [by apply whole_seconds_positive|].
    exists hdr, image. split; [done|]. split; [done|]. split; [done|].
    split; [|split; [lia|]].
    + rewrite Himg, existsb_app. cbn. rewrite orb_true_r. symmetry. by apply Z.leb_le.
    + intros _. eexists. split; [exact Himg|].
      destruct (0 <? fw); split; cbn; by repeat constructor.
  - assert (Hle : int_field metadata "length" / 1000000 ≤ 0).
    { pose proof (whole_seconds_positive (int_field metadata "length")). lia. }
    exists hdr, hdr. split; [done|]. split; [auto|]. split; [done|].
    split; [|split; [done|lia]].
    rewrite Hh. symmetry. by apply Z.leb_gt.
Qed.

Lemma progress_bar_iff_whole_second_witness :
  ∃ image, update_display default_display bohemian_rhapsody = Ok image
           ∧ existsb is_rectangle (ops image) = true.
Proof.
  destruct (progress_bar_iff_whole_second default_display bohemian_rhapsody)
    as (hdr & image & _ & Himage & _ & Hbar & _); [reflexivity..|].
  exists image. split; [exact Himage | exact Hbar].
Defined.

(** The fraction of [late_track] is [1.0] and not [14/15], and binary64
    arithmetic puts [240 * (41 / 80)] just under [123]. *)
Example late_track_progress :
  progress_of (1400000 / 1000000) (1500000 / 1000000) = Ok PyFloat.one
  ∧ (PyFloat.to_Q PyFloat.one == 1)%Q
  ∧ (spec_progress 1400000 1500000 == 14 # 15)%Q.
Proof. repeat split; vm_compute; reflexivity. Qed.

Example fill_width_truncates_the_rounded_product :
  progress_of 41 80 ≫= fill_width_of 240 = Ok 122
  ∧ spec_fill_width 240 41 80 = 123.
Proof. split; vm_compute; reflexivity. Qed.

(** C3, as the specification states it, fails 1.4 seconds into a track of
    1.5 seconds: the fraction is taken of whole seconds, [1 / 1], and the
    bar is filled over its 240 pixels, where
    [floor(240 * 1400000 / 1500000)] is 224. It fails as well 41 seconds
    into a track of 80 seconds, where [240 * 41 / 80] is 123 and the
    truncated binary64 product is 122. *)
Lemma fill_width_is_not_the_exact_floor :
  ¬ (0 < int_field late_track "length" → 0 ≤ int_field late_track "position" →
     ∃ image, update_display default_display late_track = Ok image
              ∧ fill_rect_widths image = [spec_fill_width (250 - 10) 1400000 1500000])
  ∧ ¬ (0 < int_field track_41_of_80 "length" → 0 ≤ int_field track_41_of_80 "position" →
       ∃ image, update_display default_display track_41_of_80 = Ok image
                ∧ fill_rect_widths image
                  = [spec_fill_width (250 - 10) 41000000 80000000]).
Proof.
  split; intros H; destruct H as (image & Himage & Hfill); try done;
    vm_compute in Himage; injection Himage as <-; vm_compute in Hfill; discriminate.
Qed.

(** C3, amended. On a display at least 10 wide ([geometry_ok]), when the
    length is at least one second, the progress fraction is the binary64
    quotient of the whole seconds of position and length, clamped by
    [min(1.0, max(0.0, _))]; it lies between [0.0] and
    [1.0], is [1.0] when the position is at least the length and [0.0] when
    the position is at most zero. The inner rectangle, drawn when its width
    is positive, is [int(bar_width * progress)] wide in binary64 arithmetic,
    [bar_width] being the display width less the two margins of 5: a width
    between [0] and [bar_width], [bar_width] itself for the fraction [1.0]
    and [0] for the fraction [0.0]. *)
Theorem progress_fraction_clamped (self : DisplayManager) (metadata : dict) :
  well_typed metadata = true → geometry_ok self = true →
  1000000 ≤ int_field metadata "length" →
  let position := int_field metadata "position" / 1000000 in
  let length := int_field metadata "length" / 1000000 in
  let bar_width := driver_width self - 2 * 5 in
  ∃ q fill_width image,
    PyFloat.int_truediv position length = Ok q
    ∧ let progress := PyFloat.min PyFloat.one (PyFloat.max PyFloat.zero q) in
      progress_of position length = Ok progress
      ∧ PyFloat.leb PyFloat.zero progress = true
      ∧ PyFloat.leb progress PyFloat.one = true
      ∧ (length ≤ position → progress = PyFloat.one)
      ∧ (position ≤ 0 → progress = PyFloat.zero)
      ∧ fill_width_of bar_width progress = Ok fill_width
      ∧ 0 ≤ fill_width ≤ bar_width
      ∧ (length ≤ position → fill_width = bar_width)
      ∧ (position ≤ 0 → fill_width = 0)
      ∧ update_display self metadata = Ok image
      ∧ fill_rect_widths image = (if 0 <? fill_width then [fill_width] else []).
Proof.
  intros Hwt Hgeo Hlen position length bar_width. subst position length bar_width.
  destruct (update_display_spec self metadata Hwt Hgeo)
    as (hdr & texts & Hhdr & Hops & Htexts & _ & Hsome).
  destruct Hsome as (q & fw & image & Hq & Hfw & Himage & Himg);
    [by apply whole_seconds_positive|].
  apply whole_seconds_positive in Hlen.
  destruct (well_typed_seconds metadata Hwt) as [Hpr Hlr].
  pose proof (geometry_bar_width self Hgeo) as Hbw.
  assert (Hbw52 : driver_width self - 10 < 2 ^ 52).
  { revert Hgeo. unfold geometry_ok. rewrite !andb_true_iff.
    intros [[[_ H2] _] _]. apply Z.ltb_lt in H2.
    change (2 ^ 31) with 2147483648 in H2. change (2 ^ 52) with 4503599627370496. lia. }
  assert (H5253 : 2 ^ 52 < 2 ^ 53) by (apply Z.pow_lt_mono_r; lia).
  change (2 * 5) with 10.
  exists q, fw, image. split; [done|]. cbn zeta.
  set (progress := PyFloat.min PyFloat.one (PyFloat.max PyFloat.zero q)) in *.
  assert (Hprog : progress_of (int_field metadata "position" / 1000000)
                              (int_field metadata "length" / 1000000) = Ok progress).
  { unfold progress_of. by rewrite Hq. }
  destruct (PyFloatFacts.clamp_bounds q) as [H0 H1].
  assert (Hfull : int_field metadata "length" / 1000000
                  ≤ int_field metadata "position" / 1000000 → progress = PyFloat.one).
  { intros Hge. rewrite progress_of_full in Hprog by lia. by injection Hprog. }
  assert (Hempty : int_field metadata "position" / 1000000 ≤ 0 → progress = PyFloat.zero).
  { intros Hle. rewrite progress_of_empty in Hprog by lia. by injection Hprog. }
  split; [done|]. split; [done|]. split; [done|]. split; [done|]. split; [done|].
  split; [done|]. split; [|split; [|split; [|split; [done|]]]].
  - destruct (progress_of_ok (int_field metadata "position" / 1000000)
                             (int_field metadata "length" / 1000000))
      as (q' & Hq' & _ & Hunit); [lia..|].
    rewrite Hq in Hq'. injection Hq' as <-. fold progress in Hunit.
    destruct (fill_width_of_bounds (driver_width self - 10) progress) as (fw' & Hfw' & Hb);
      [lia | done |].
    rewrite Hfw in Hfw'. injection Hfw' as <-. done.
  - intros Hge. rewrite (Hfull Hge), fill_width_of_one in Hfw by lia.
    by injection Hfw.
  - intros Hle. rewrite (Hempty Hle), fill_width_of_zero in Hfw by lia.
    by injection Hfw.
  - unfold fill_rect_widths. rewrite Himg, Hops.
    rewrite omap_app, fill_rect_widths_texts by (by constructor).
    destruct (0 <? fw); cbn; f_equal; lia.
Qed.

Lemma progress_fraction_clamped_witness :
  ∃ image, update_display default_display bohemian_rhapsody = Ok image
           ∧ fill_rect_widths image = [81].
Proof.
  destruct (progress_fraction_clamped default_display bohemian_rhapsody)
    as (q & fw & image & Hq & _ & _ & _ & _ & _ & Hfw & _ & _ & _ & Himage & Hfill);
    [reflexivity | reflexivity | vm_compute; discriminate |].
  vm_compute in Hq. injection Hq as <-.
  vm_compute in Hfw. injection Hfw as <-.
  exists image. split; [exact Himage | exact Hfill].
Defined.

(** ** The poll loop *)

Lemma tick_first (self : SpotifydDisplay) (d : dict) (image : Image) :
  last_metadata self = None → d ≠ ∅ →
  update_display (display_manager self) d = Ok image →
  _update_loop_tick self (Some d)
  = {| display_manager := display_manager self;
       last_metadata := Some d;
       displayed := displayed self ++ [PlayingView image];
       logged := logged self |}.
Proof.
  intros Hlast Hne Himage. unfold _update_loop_tick. rewrite Hlast.
  cbn [_should_update]. by rewrite bool_decide_eq_false_2, Himage.
Qed.

Lemma tick_session_end (self : SpotifydDisplay) (p : dict) :
  last_metadata self = Some p →
  _update_loop_tick self None
  = {| display_manager := display_manager self;
       last_metadata := None;
       displayed := displayed self ++ [IdleView (show_idle (display_manager self))];
       logged := logged self |}.
Proof. intros Hlast. unfold _update_loop_tick. by rewrite Hlast. Qed.

Lemma tick_still_idle (self : SpotifydDisplay) :
  last_metadata self = None → _update_loop_tick self None = self.
Proof. intros Hlast. unfold _update_loop_tick. by rewrite Hlast. Qed.

(** C8. From no remembered snapshot, the snapshots
    [[Some track1; None; None]] with [track1] playing make the loop render
    twice: the playing view of [track1], then the idle view. The third round
    renders nothing. The display is at least 10 wide ([geometry_ok]), so
    that the playing view can be drawn. *)
Theorem idle_transition (self : DisplayManager) (track1 : dict) :
  well_typed track1 = true → geometry_ok self = true →
  dict_get track1 "status" = VStr (lit "Playing") →
  ∃ image,
    update_display self track1 = Ok image
    ∧ displayed (_update_loop (SpotifydDisplay_init self) [Some track1])
      = [PlayingView image]
    ∧ displayed (_update_loop (SpotifydDisplay_init self) [Some track1; None])
      = [PlayingView image; IdleView (show_idle self)]
    ∧ displayed (_update_loop (SpotifydDisplay_init self) [Some track1; None; None])
      = [PlayingView image; IdleView (show_idle self)]
    ∧ last_metadata (_update_loop (SpotifydDisplay_init self) [Some track1; None; None])
      = None
    ∧ logged (_update_loop (SpotifydDisplay_init self) [Some track1; None; None]) = [].
Proof.
  intros Hwt Hgeo Hplay.
  destruct (update_display_total self track1 Hwt Hgeo) as (image & Himage).
  exists image. split; [done|].
  assert (Hne : track1 ≠ ∅) by (by intros ->).
  unfold _update_loop. cbn [fold_left].
  rewrite (tick_first (SpotifydDisplay_init self) track1 image) by done.
  rewrite (tick_session_end _ track1) by done.
  by rewrite tick_still_idle.
Qed.

Lemma idle_transition_witness :
  ∃ image,
    displayed (_update_loop (SpotifydDisplay_init default_display)
                            [Some bohemian_rhapsody; None; None])
    = [PlayingView image; IdleView (show_idle default_display)].
Proof.
  destruct (idle_transition default_display bohemian_rhapsody)
    as (image & _ & _ & _ & Hthree & _); [reflexivity..|].
  exists image. exact Hthree.
Defined.

(** ** Missing fields *)

Lemma defaulted_lookup metadata key :
  defaulted metadata !! key
  = match metadata !! key with
    | Some v => Some v
    | None => defaults !! key
    end.
Proof.
  unfold defaulted. rewrite lookup_union.
  by destruct (metadata !! key), (defaults !! key).
Qed.

Lemma defaulted_get metadata key dflt :
  defaults !! key = Some dflt →
  dict_get_default (defaulted metadata) key dflt = dict_get_default metadata key dflt.
Proof.
  intros Hd. unfold dict_get_default. rewrite defaulted_lookup, Hd.
  by destruct (metadata !! key).
Qed.

(** C10. [update_display] renders a dictionary with missing keys as it
    renders the dictionary with each missing key at its default
    (['Unknown Title'], ['Unknown Artist'], ['Unknown Album'], ['Stopped'],
    [0] for position and length). When the fields that are present are
    well typed, and the display is at least 10 wide ([geometry_ok]), it
    returns a frame; a missing status gives the stopped glyph and a missing
    length gives no progress bar. *)
Theorem update_display_defaults (self : DisplayManager) (metadata : dict) :
  update_display self metadata = update_display self (defaulted metadata)
  ∧ (∀ key, defaulted metadata !! key
            = match metadata !! key with
              | Some v => Some v
              | None => defaults !! key
              end)
  ∧ (well_typed metadata = true → geometry_ok self = true →
     ∃ image,
       update_display self metadata = Ok image
       ∧ (metadata !! "status" = None →
          head (ops image) = Some (DrawText (5, 5) glyph_stop Black FontMedium))
       ∧ (metadata !! "length" = None →
          track_text_of self metadata = Ok image
          ∧ existsb is_rectangle (ops image) = false)).
Proof.
  split; [|split; [apply defaulted_lookup|]].
  - unfold update_display. by rewrite !defaulted_get.
  - intros Hwt Hgeo.
    destruct (update_display_spec self metadata Hwt Hgeo)
      as (hdr & texts & Hhdr & Hops & Htexts & Hnone & Hsome).
    destruct (Z.le_gt_cases 1000000 (int_field metadata "length")) as [Hge|Hlt].
    + destruct Hsome as (q & fw & image & _ & _ & Himage & Himg);
        [by apply whole_seconds_positive|].
      exists image. split; [done|]. split.
      * intros Hstatus. rewrite Himg, Hops.
        unfold dict_get_default. by rewrite Hstatus.
      * intros Hlength. exfalso.
        unfold int_field, dict_get_default in Hge. rewrite Hlength in Hge. cbn in Hge. lia.
    + assert (Hle : int_field metadata "length" / 1000000 ≤ 0).
      { pose proof (whole_seconds_positive (int_field metadata "length")). lia. }
      exists hdr. split; [auto|]. split.
      * intros Hstatus. rewrite Hops.
        unfold dict_get_default. by rewrite Hstatus.
      * intros _. split; [done|]. rewrite Hops. cbn. by apply existsb_no_rectangle.
Qed.

Lemma update_display_defaults_witness :
  ∃ image,
    update_display default_display ∅ = Ok image
    ∧ head (ops image) = Some (DrawText (5, 5) glyph_stop Black FontMedium)
    ∧ existsb is_rectangle (ops image) = false.
Proof.
  destruct (update_display_defaults default_display ∅) as (_ & _ & Hok).
  destruct Hok as (image & Himage & Hstatus & Hlength); [reflexivity..|].
  exists image. split; [exact Himage|]. split.
  - apply Hstatus. reflexivity.
  - apply Hlength. reflexivity.
Defined.

(* ======================================================================= *)
(** * Further properties *)
(* ======================================================================= *)

(** ** The lines of [_wrap_text] *)

Section WrapLines.

Variable font : Font.
Variable max_width : Z.

Lemma join_snoc ws w :
  ws ≠ [] → join (lit " ") (ws ++ [w]) = join (lit " ") ws ++ lit " " ++ w.
Proof.
  induction ws as [|w0 ws IH]; [done|]. intros _.
  destruct ws as [|w1 ws'].
  - done.
  - change ((w0 :: w1 :: ws') ++ [w]) with (w0 :: ((w1 :: ws') ++ [w])).
    cbn [app]. rewrite !join_cons.
    change (w1 :: ws' ++ [w]) with ((w1 :: ws') ++ [w]).
    rewrite IH by done. by rewrite <- !app_assoc.
Qed.

(** The loop keeps every flushed line, and the line being filled, made of
    words, of which two or more are together only if they were measured to
    fit; a round adds at most one line. *)
Lemma wrap_step_lines st word :
  Forall (fun line => ∃ ws, ws ≠ [] ∧ Forall (fun w => is_word w = true) ws
                           ∧ line = join (lit " ") ws
                           ∧ (length ws = 1%nat ∨ text_width font line ≤ max_width)) st.1 →
  Forall (fun w => is_word w = true) st.2 →
  (length st.2 ≤ 1)%nat ∨ text_width font (join (lit " ") st.2) ≤ max_width →
  is_word word = true →
  let st' := wrap_step font max_width st word in
  Forall (fun line => ∃ ws, ws ≠ [] ∧ Forall (fun w => is_word w = true) ws
                           ∧ line = join (lit " ") ws
                           ∧ (length ws = 1%nat ∨ text_width font line ≤ max_width)) st'.1
  ∧ Forall (fun w => is_word w = true) st'.2
  ∧ ((length st'.2 ≤ 1)%nat ∨ text_width font (join (lit " ") st'.2) ≤ max_width)
  ∧ (length st'.1 + length (take 1 st'.2) ≤ length st.1 + length (take 1 st.2) + 1)%nat.
Proof.
  destruct st as [lines cur]. cbn [fst snd]. intros Hl Hc Hf Hw. unfold wrap_step.
  destruct (_ <=? _) eqn:Hfit.
  - cbn [fst snd]. apply Z.leb_le in Hfit.
    split; [done|]. split; [apply Forall_app; auto|]. split; [by right|].
    destruct cur; simpl; lia.
  - destruct cur as [|w0 cur']; cbn [fst snd].
    + split; [|split; [done|split; [left; cbn; lia|rewrite length_app; cbn; lia]]].
      apply Forall_app. split; [done|]. constructor; [|done].
      exists [word]. split; [done|]. split; [by constructor|]. split; [done|by left].
    + split; [|split; [by repeat constructor|split; [left; cbn; lia|rewrite length_app; cbn; lia]]].
      apply Forall_app. split; [done|]. constructor; [|done].
      exists (w0 :: cur'). split; [done|]. split; [done|]. split; [done|].
      destruct Hf as [Hf|Hf]; [left|by right].
      cbn in Hf |- *. destruct cur'; cbn in *; lia.
Qed.

Lemma wrap_fold_lines words : ∀ st,
  Forall (fun line => ∃ ws, ws ≠ [] ∧ Forall (fun w => is_word w = true) ws
                           ∧ line = join (lit " ") ws
                           ∧ (length ws = 1%nat ∨ text_width font line ≤ max_width)) st.1 →
  Forall (fun w => is_word w = true) st.2 →
  (length st.2 ≤ 1)%nat ∨ text_width font (join (lit " ") st.2) ≤ max_width →
  Forall (fun w => is_word w = true) words →
  let st' := fold_left (wrap_step font max_width) words st in
  Forall (fun line => ∃ ws, ws ≠ [] ∧ Forall (fun w => is_word w = true) ws
                           ∧ line = join (lit " ") ws
                           ∧ (length ws = 1%nat ∨ text_width font line ≤ max_width)) st'.1
  ∧ Forall (fun w => is_word w = true) st'.2
  ∧ ((length st'.2 ≤ 1)%nat ∨ text_width font (join (lit " ") st'.2) ≤ max_width)
  ∧ (length st'.1 + length (take 1 st'.2)
     ≤ length st.1 + length (take 1 st.2) + length words)%nat.
Proof.
  induction words as [|w words IH]; intros st Hl Hc Hf Hws.
  - cbn. repeat split; auto. lia.
  - inversion Hws as [|? ? Hw Hws']; subst. cbn [fold_left].
    destruct (wrap_step_lines st w Hl Hc Hf Hw) as (Hl' & Hc' & Hf' & Hn').
    destruct (IH _ Hl' Hc' Hf' Hws') as (Hl'' & Hc'' & Hf'' & Hn'').
    repeat split; auto. cbn [length]. lia.
Qed.

(** The lines of a text that has a word. *)
Lemma wrap_text_lines text :
  split text ≠ [] →
  ∃ lines,
    _wrap_text (VStr text) font max_width = Ok lines
    ∧ Forall (fun line => ∃ ws, ws ≠ [] ∧ Forall (fun w => is_word w = true) ws
                               ∧ line = join (lit " ") ws
                               ∧ (length ws = 1%nat ∨ text_width font line ≤ max_width)) lines
    ∧ (length lines ≤ length (split text))%nat.
Proof.
  intros Hne. unfold _wrap_text. destruct text as [|c text']; [done|].
  cbn [py_truthy negb]. set (text := c :: text') in *.
  pose proof (wrap_fold_lines (split text) ([], [])) as H.
  pose proof (wrap_fold_words font max_width (split text) ([], [])) as Hwords.
  destruct (fold_left _ _ _) as [lines cur]. cbn [fst snd] in *.
  destruct H as (Hl & Hc & Hf & Hn);
    [done | done | left; cbn; lia | apply split_words |].
  destruct Hwords as [_ Hwords]; [done | apply split_words |].
  unfold words_of in Hwords. cbn [fst snd map concat app] in Hwords.
  destruct cur as [|w cur'].
  - destruct lines as [|l lines'].
    + exfalso. apply Hne. symmetry. exact Hwords.
    + eexists. split; [done|]. split; [done|]. cbn in Hn |- *. lia.
  - exists (lines ++ [join (lit " ") (w :: cur')]). split; [by destruct lines|].
    split.
    + apply Forall_app. split; [done|]. constructor; [|done].
      exists (w :: cur'). split; [done|]. split; [done|]. split; [done|].
      destruct Hf as [Hf|Hf]; [left|by right]. cbn in Hf |- *. lia.
    + rewrite length_app. cbn in Hn |- *. lia.
Qed.

(** The loop keeps every line break forced. *)
Lemma wrap_step_greedy st word :
  Forall (fun w => is_word w = true) st.2 → is_word word = true →
  (∀ i a b, st.1 !! i = Some a → st.1 !! S i = Some b →
     ∃ w, head (split b) = Some w ∧ forced_break font max_width a w) →
  (∀ a, last st.1 = Some a →
     match st.2 with
     | w :: _ => forced_break font max_width a w
     | [] => split a = [a] ∧ max_width < text_width font a
     end) →
  let st' := wrap_step font max_width st word in
  (∀ i a b, st'.1 !! i = Some a → st'.1 !! S i = Some b →
     ∃ w, head (split b) = Some w ∧ forced_break font max_width a w)
  ∧ (∀ a, last st'.1 = Some a →
       match st'.2 with
       | w :: _ => forced_break font max_width a w
       | [] => split a = [a] ∧ max_width < text_width font a
       end).
Proof.
  destruct st as [lines cur]. cbn [fst snd]. intros Hc Hw HA HB. unfold wrap_step.
  destruct (_ <=? _) eqn:Hfit.
  - cbn [fst snd]. split; [done|]. intros a Ha. specialize (HB a Ha).
    destruct cur as [|w0 cur']; [|done]. cbn [app]. right. done.
  - apply Z.leb_gt in Hfit. destruct cur as [|w0 cur']; cbn [fst snd].
    + cbn [app join] in Hfit. split.
      * intros i a b Ha Hb. apply lookup_snoc_Some in Ha, Hb.
        destruct Hb as [[Hi Hb]|[Hi <-]].
        -- destruct Ha as [[_ Ha]|[Hi' _]]; [eauto|lia].
        -- destruct Ha as [[_ Ha]|[Hi' _]]; [|lia].
           exists word. rewrite split_word by done. split; [done|].
           right. apply HB. rewrite last_lookup, <- Hi. done.
      * intros a Ha. rewrite last_snoc in Ha. injection Ha as <-.
        split; [by apply split_word|done].
    + assert (Hj : join (lit " ") ((w0 :: cur') ++ [word])
                   = join (lit " ") (w0 :: cur') ++ lit " " ++ word)
        by (by apply join_snoc).
      rewrite Hj in Hfit. split.
      * intros i a b Ha Hb. apply lookup_snoc_Some in Ha, Hb.
        destruct Hb as [[Hi Hb]|[Hi <-]].
        -- destruct Ha as [[_ Ha]|[Hi' _]]; [eauto|lia].
        -- destruct Ha as [[_ Ha]|[Hi' _]]; [|lia].
           exists w0. rewrite split_join by done. split; [done|].
           apply (HB a). rewrite last_lookup, <- Hi. done.
      * intros a Ha. rewrite last_snoc in Ha. injection Ha as <-. by left.
Qed.

Lemma wrap_fold_greedy words : ∀ st,
  Forall (fun w => is_word w = true) st.2 →
  Forall (fun w => is_word w = true) words →
  (∀ i a b, st.1 !! i = Some a → st.1 !! S i = Some b →
     ∃ w, head (split b) = Some w ∧ forced_break font max_width a w) →
  (∀ a, last st.1 = Some a →
     match st.2 with
     | w :: _ => forced_break font max_width a w
     | [] => split a = [a] ∧ max_width < text_width font a
     end) →
  let st' := fold_left (wrap_step font max_width) words st in
  (∀ i a b, st'.1 !! i = Some a → st'.1 !! S i = Some b →
     ∃ w, head (split b) = Some w ∧ forced_break font max_width a w)
  ∧ (∀ a, last st'.1 = Some a →
       match st'.2 with
       | w :: _ => forced_break font max_width a w
       | [] => split a = [a] ∧ max_width < text_width font a
       end).
Proof.
  induction words as [|w words IH]; intros st Hc Hws HA HB; [done|].
  inversion Hws as [|? ? Hw Hws']; subst. cbn [fold_left].
  destruct (wrap_step_greedy st w Hc Hw HA HB) as [HA' HB'].
  destruct (wrap_step_words font max_width st w Hc Hw) as [Hc' _].
  by apply IH.
Qed.

End WrapLines.

(** X1. Every line that [_wrap_text] answers for a text with at least one
    word is made of one or more words of the text joined by single spaces:
    no line is empty, none has leading, trailing or repeated whitespace, and
    there are at most as many lines as words. *)
Theorem wrap_lines_are_joined_words (font : Font) (max_width : Z) (text : str) :
  split text ≠ [] →
  ∃ lines,
    _wrap_text (VStr text) font max_width = Ok lines
    ∧ Forall (fun line => split line ≠ [] ∧ join (lit " ") (split line) = line) lines
    ∧ (0 < length lines ≤ length (split text))%nat.
Proof.
  intros Hne.
  destruct (wrap_text_lines font max_width text Hne) as (lines & Hw & Hl & Hn).
  exists lines. split; [done|]. split.
  - eapply Forall_impl; [exact Hl|]. cbn. intros line (ws & Hws & Hwords & -> & _).
    rewrite split_join by done. done.
  - split; [|done]. apply wrap_text_nonempty in Hw. destruct lines; [done|cbn; lia].
Qed.

Lemma wrap_lines_are_joined_words_witness :
  ∃ lines,
    _wrap_text (VStr (lit "  so  long a   title ")) bitmap_font 40 = Ok lines
    ∧ Forall (fun line => split line ≠ [] ∧ join (lit " ") (split line) = line) lines
    ∧ (0 < length lines ≤ length (split (lit "  so  long a   title ")))%nat.
Proof.
  apply (wrap_lines_are_joined_words bitmap_font 40 (lit "  so  long a   title ")).
  vm_compute. discriminate.
Defined.

(** X2. No overflow: every line of two or more words that [_wrap_text]
    answers measures at most [max_width]. Only a line that is a single word
    can be wider (the one empty line of a text without words has no
    word). *)
Theorem wrap_lines_fit (font : Font) (max_width : Z) (text : str) :
  ∃ lines,
    _wrap_text (VStr text) font max_width = Ok lines
    ∧ Forall (fun line => (length (split line) ≤ 1)%nat
                          ∨ text_width font line ≤ max_width) lines.
Proof.
  destruct (split text) as [|w0 ws0] eqn:Hsplit.
  - exists [[]]. split; [|by repeat constructor; left].
    unfold _wrap_text. destruct (negb _); [done|]. by rewrite Hsplit.
  - destruct (wrap_text_lines font max_width text) as (lines & Hw & Hl & _);
      [by rewrite Hsplit|].
    exists lines. split; [done|].
    eapply Forall_impl; [exact Hl|]. cbn. intros line (ws & Hws & Hwords & -> & Hfit).
    rewrite split_join by done. destruct Hfit as [->|Hfit]; [left; lia|by right].
Qed.

(** X3. The wrapping is greedy: every line break was forced. Of two
    consecutive lines, the first with the first word of the second appended
    measures more than [max_width], or the first is a single word that by
    itself measures more than [max_width]. *)
Theorem wrap_breaks_are_forced (font : Font) (max_width : Z) (text : str) :
  ∃ lines,
    _wrap_text (VStr text) font max_width = Ok lines
    ∧ ∀ i line next, lines !! i = Some line → lines !! S i = Some next →
        ∃ word, head (split next) = Some word
                ∧ forced_break font max_width line word.
Proof.
  unfold _wrap_text. destruct text as [|c text'].
  { exists [[]]. split; [done|]. by intros [|i] ???. }
  cbn [py_truthy negb]. set (text := c :: text').
  pose proof (wrap_fold_greedy font max_width (split text) ([], [])) as H.
  pose proof (wrap_fold_words font max_width (split text) ([], [])) as Hwords.
  destruct (fold_left _ _ _) as [lines cur]. cbn [fst snd] in *.
  destruct H as [HA HB]; [done | apply split_words | done | done |].
  destruct Hwords as [Hc _]; [done | apply split_words |].
  destruct cur as [|w cur'].
  - destruct lines as [|l lines'].
    + exists [[]]. split; [done|]. by intros [|i] ???.
    + by eexists.
  - exists (lines ++ [join (lit " ") (w :: cur')]). split; [by destruct lines|].
    intros i a b Ha Hb. apply lookup_snoc_Some in Ha, Hb.
    destruct Hb as [[Hi Hb]|[Hi <-]].
    + destruct Ha as [[_ Ha]|[Hi' _]]; [eauto|lia].
    + destruct Ha as [[_ Ha]|[Hi' _]]; [|lia].
      exists w. rewrite split_join by done. split; [done|].
      apply (HB a). rewrite last_lookup, <- Hi. done.
Qed.

(** ** The layout of the two views *)

Section Layout.

Variable self : DisplayManager.

Lemma canvas_draw_lines font margin advance lines : ∀ image y_pos,
  canvas (draw_lines font margin advance (image, y_pos) lines).1 = canvas image.
Proof.
  induction lines as [|line lines IH]; intros image y_pos; [done|].
  cbn [draw_lines fold_left]. unfold draw_lines in IH. by rewrite IH.
Qed.

Lemma canvas_draw_track_text title artist album status image hdr :
  draw_track_text self title artist album status image = Ok hdr →
  canvas hdr = canvas image.
Proof.
  unfold draw_track_text.
  destruct (_wrap_text title _ _) as [tl|]; [|done].
  destruct (_wrap_text artist _ _) as [al|].
  2:{ cbn [mbind result_bind]. by destruct (draw_lines _ _ _ _ _). }
  destruct (_wrap_text album _ _) as [bl|].
  2:{ cbn [mbind result_bind]. destruct (draw_lines _ _ _ _ _).
      cbn [mbind result_bind]. by destruct (draw_lines _ _ _ _ _). }
  cbn [mbind result_bind].
  set (i0 := draw image _).
  pose proof (canvas_draw_lines FontLarge 5 25 (take 2 tl) i0 (5 + 25)) as H1.
  destruct (draw_lines FontLarge 5 25 (i0, 5 + 25) (take 2 tl)) as [i1 y1].
  cbn [mbind result_bind].
  pose proof (canvas_draw_lines FontMedium 5 20 (take 1 al) i1 y1) as H2.
  destruct (draw_lines FontMedium 5 20 (i1, y1) (take 1 al)) as [i2 y2].
  cbn [mbind result_bind].
  pose proof (canvas_draw_lines FontSmall 5 18 (take 1 bl) i2 y2) as H3.
  destruct (draw_lines FontSmall 5 18 (i2, y2) (take 1 bl)) as [i3 y3].
  cbn [fst] in *. intros [= <-]. by rewrite H3, H2, H1.
Qed.

Lemma canvas_ImageDraw_rectangle image box outline fill image' :
  ImageDraw_rectangle image box outline fill = Ok image' →
  canvas image' = canvas image.
Proof.
  destruct box as [[[x0 y0] x1] y1]. unfold ImageDraw_rectangle.
  destruct (_ || _); [done|]. by intros [= <-].
Qed.

Lemma canvas_draw_progress position length image image' :
  draw_progress self position length image = Ok image' →
  canvas image' = canvas image.
Proof.
  unfold draw_progress. destruct (0 <? length); [|by intros [= <-]].
  destruct (progress_of position length) as [progress|]; [|done].
  cbn [mbind result_bind].
  destruct (ImageDraw_rectangle image _ _ _) as [outlined|] eqn:Houtline; [|done].
  apply canvas_ImageDraw_rectangle in Houtline.
  cbn [mbind result_bind].
  destruct (fill_width_of _ progress) as [fill_width|]; [|done].
  cbn [mbind result_bind]. destruct (0 <? fill_width).
  - destruct (ImageDraw_rectangle outlined _ _ _) as [filled|] eqn:Hfill; [|done].
    apply canvas_ImageDraw_rectangle in Hfill.
    cbn [mbind result_bind]. intros [= <-]. by rewrite <- Houtline, <- Hfill.
  - cbn [mbind result_bind]. intros [= <-]. by rewrite <- Houtline.
Qed.

Lemma canvas_update_display metadata image :
  update_display self metadata = Ok image → canvas image = canvas (blank_image self).
Proof.
  unfold update_display.
  destruct (py_floordiv (dict_get_default metadata "position" _) _) as [position|]; [|done].
  destruct (py_floordiv (dict_get_default metadata "length" _) _) as [length|]; [|done].
  cbn [mbind result_bind].
  destruct (draw_track_text _ _ _ _ _ _) as [hdr|] eqn:Hhdr; [|done].
  cbn [mbind result_bind]. intros H%canvas_draw_progress.
  apply canvas_draw_track_text in Hhdr. congruence.
Qed.

Lemma canvas_show_idle : canvas (show_idle self) = canvas (blank_image self).
Proof. unfold show_idle. by destruct (textbbox _ _) as [[[? ?] ?] ?]. Qed.

(** The text block on text fields, written out. *)
Lemma draw_track_text_layout (title artist album : str) status image :
  ∃ t1 trest a1 arest b1 brest hdr,
    _wrap_text (VStr title) (font_large self) (driver_width self - 10) = Ok (t1 :: trest)
    ∧ _wrap_text (VStr artist) (font_medium self) (driver_width self - 10) = Ok (a1 :: arest)
    ∧ _wrap_text (VStr album) (font_small self) (driver_width self - 10) = Ok (b1 :: brest)
    ∧ draw_track_text self (VStr title) (VStr artist) (VStr album) status image = Ok hdr
    ∧ ops hdr
      = ops image
        ++ DrawText (5, 5) (status_icon_of status) Black FontMedium
           :: match trest with
              | [] => [DrawText (5, 30) t1 Black FontLarge;
                       DrawText (5, 55) a1 Black FontMedium;
                       DrawText (5, 75) b1 Black FontSmall]
              | t2 :: _ => [DrawText (5, 30) t1 Black FontLarge;
                            DrawText (5, 55) t2 Black FontLarge;
                            DrawText (5, 80) a1 Black FontMedium;
                            DrawText (5, 100) b1 Black FontSmall]
              end.
Proof.
  unfold draw_track_text. change (2 * 5) with 10.
  destruct (wrap_text_str (font_large self) (driver_width self - 10) title)
    as ([|t1 trest] & Ht & Hnt & _); [done|].
  destruct (wrap_text_str (font_medium self) (driver_width self - 10) artist)
    as ([|a1 arest] & Ha & Hna & _); [done|].
  destruct (wrap_text_str (font_small self) (driver_width self - 10) album)
    as ([|b1 brest] & Hb & Hnb & _); [done|].
  rewrite Ht, Ha, Hb. cbn [mbind result_bind].
  exists t1, trest, a1, arest, b1, brest.
  destruct trest as [|t2 trest'];
    cbn [take draw_lines fold_left mbind result_bind draw ops];
    eexists; (repeat split; [done..|]);
    unfold draw; cbn [ops mode size background]; by rewrite <- ?app_assoc.
Qed.

End Layout.

(** X4. The layout of the playing view for a well-typed snapshot, on a
    display at least 10 wide ([geometry_ok]): the status
    glyph at (5, 5); the first line of the wrapped title at (5, 30) and, if
    there is one, its second line at (5, 55), further title lines being
    dropped; the first line of the wrapped artist 25 pixels under the last
    title line and the first line of the wrapped album 20 pixels under the
    artist, their other lines being dropped; then the progress block, of at
    most three draw calls. *)
Theorem update_display_layout (self : DisplayManager) (metadata : dict) :
  well_typed metadata = true → geometry_ok self = true →
  ∃ t1 trest a1 arest b1 brest image bar,
    _wrap_text (dict_get_default metadata "title" (VStr (lit "Unknown Title")))
               (font_large self) (driver_width self - 10) = Ok (t1 :: trest)
    ∧ _wrap_text (dict_get_default metadata "artist" (VStr (lit "Unknown Artist")))
                 (font_medium self) (driver_width self - 10) = Ok (a1 :: arest)
    ∧ _wrap_text (dict_get_default metadata "album" (VStr (lit "Unknown Album")))
                 (font_small self) (driver_width self - 10) = Ok (b1 :: brest)
    ∧ update_display self metadata = Ok image
    ∧ ops image
      = DrawText (5, 5)
          (status_icon_of (dict_get_default metadata "status" (VStr (lit "Stopped"))))
          Black FontMedium
        :: match trest with
           | [] => [DrawText (5, 30) t1 Black FontLarge;
                    DrawText (5, 55) a1 Black FontMedium;
                    DrawText (5, 75) b1 Black FontSmall]
           | t2 :: _ => [DrawText (5, 30) t1 Black FontLarge;
                         DrawText (5, 55) t2 Black FontLarge;
                         DrawText (5, 80) a1 Black FontMedium;
                         DrawText (5, 100) b1 Black FontSmall]
           end
        ++ bar
    ∧ (length bar ≤ 3)%nat.
Proof.
  intros Hwt Hgeo.
  destruct (update_display_spec self metadata Hwt Hgeo)
    as (hdr & texts & Hhdr & _ & _ & H0 & H1).
  unfold well_typed in Hwt. rewrite !andb_true_iff in Hwt.
  destruct Hwt as [[[[Ht Ha] Hb] _] _].
  unfold track_text_of, dict_get_default in Hhdr. unfold dict_get_default.
  destruct (is_text_default _ (lit "Unknown Title") Ht) as (t & Et).
  destruct (is_text_default _ (lit "Unknown Artist") Ha) as (a & Ea).
  destruct (is_text_default _ (lit "Unknown Album") Hb) as (b & Eb).
  rewrite Et, Ea, Eb in Hhdr |- *.
  destruct (draw_track_text_layout self t a b
              (default (VStr (lit "Stopped")) (metadata !! "status")) (blank_image self))
    as (t1 & trest & a1 & arest & b1 & brest & hdr' & Wt & Wa & Wb & Hhdr' & Hops).
  rewrite Hhdr in Hhdr'. injection Hhdr' as <-.
  exists t1, trest, a1, arest, b1, brest.
  destruct (Z.le_gt_cases (int_field metadata "length" / 1000000) 0) as [Hle|Hgt].
  - exists hdr, []. rewrite app_nil_r. repeat split; auto.
  - destruct (H1 ltac:(lia)) as (q & fw & img & _ & _ & Himg & Hbar).
    eexists img, _. split; [done|]. split; [done|]. split; [done|]. split; [done|].
    split.
    + rewrite Hbar, Hops. cbn [blank_image Image_new ops app]. f_equal.
    + destruct (0 <? fw); cbn [length app]; lia.
Qed.

Lemma update_display_layout_witness :
  ∃ t1 trest a1 arest b1 brest image bar,
    _wrap_text (dict_get_default bohemian_rhapsody "title" (VStr (lit "Unknown Title")))
               (font_large default_display) (driver_width default_display - 10)
    = Ok (t1 :: trest)
    ∧ _wrap_text (dict_get_default bohemian_rhapsody "artist" (VStr (lit "Unknown Artist")))
                 (font_medium default_display) (driver_width default_display - 10)
      = Ok (a1 :: arest)
    ∧ _wrap_text (dict_get_default bohemian_rhapsody "album" (VStr (lit "Unknown Album")))
                 (font_small default_display) (driver_width default_display - 10)
      = Ok (b1 :: brest)
    ∧ update_display default_display bohemian_rhapsody = Ok image
    ∧ ops image
      = DrawText (5, 5)
          (status_icon_of (dict_get_default bohemian_rhapsody "status" (VStr (lit "Stopped"))))
          Black FontMedium
        :: match trest with
           | [] => [DrawText (5, 30) t1 Black FontLarge;
                    DrawText (5, 55) a1 Black FontMedium;
                    DrawText (5, 75) b1 Black FontSmall]
           | t2 :: _ => [DrawText (5, 30) t1 Black FontLarge;
                         DrawText (5, 55) t2 Black FontLarge;
                         DrawText (5, 80) a1 Black FontMedium;
                         DrawText (5, 100) b1 Black FontSmall]
           end
        ++ bar
    ∧ (length bar ≤ 3)%nat.
Proof.
  apply (update_display_layout default_display bohemian_rhapsody); reflexivity.
Defined.

(** X5. [update_display] reads the six keys [title], [artist], [album],
    [status], [position] and [length] of the snapshot and nothing else: two
    snapshots that agree on them give the same outcome, be it a frame or an
    exception. *)
Theorem update_display_reads_six_keys (self : DisplayManager) (m1 m2 : dict) :
  (∀ key, key ∈ displayed_keys → m1 !! key = m2 !! key) →
  update_display self m1 = update_display self m2.
Proof.
  intros H. unfold update_display, dict_get_default.
  rewrite (H "title"), (H "artist"), (H "album"), (H "status"),
    (H "position"), (H "length"); [done|..]; unfold displayed_keys; set_solver.
Qed.

Lemma update_display_reads_six_keys_witness :
  update_display default_display bohemian_rhapsody
  = update_display default_display
      (<["art_url" := VStr (lit "file:///tmp/cover.png")]>
         (<["track" := VInt 11]> bohemian_rhapsody)).
Proof.
  apply (update_display_reads_six_keys default_display).
  intros key Hkey. unfold displayed_keys in Hkey.
  repeat (apply elem_of_cons in Hkey as [->|Hkey]; [reflexivity|]).
  by apply elem_of_nil in Hkey.
Defined.

(** X6. The idle view is one text, ["No music playing"], placed so that a
    box of the measured width and height of the text is centred on the
    display: the margin on the right equals the margin on the left or
    exceeds it by one pixel, and the same from top to bottom. The origin of
    the measured box is not taken into account. *)
Theorem show_idle_centred (self : DisplayManager) :
  ∃ x y,
    ops (show_idle self) = [DrawText (x, y) (lit "No music playing") Black FontMedium]
    ∧ let '(x0, y0, x1, y1) := textbbox (font_medium self) (lit "No music playing") in
      x ≤ driver_width self - (x1 - x0) - x ≤ x + 1
      ∧ y ≤ driver_height self - (y1 - y0) - y ≤ y + 1.
Proof.
  unfold show_idle.
  destruct (textbbox _ _) as [[[x0 y0] x1] y1].
  eexists _, _. split; [reflexivity|].
  pose proof (Z.div_mod (driver_width self - (x1 - x0)) 2 ltac:(lia)).
  pose proof (Z.mod_pos_bound (driver_width self - (x1 - x0)) 2 ltac:(lia)).
  pose proof (Z.div_mod (driver_height self - (y1 - y0)) 2 ltac:(lia)).
  pose proof (Z.mod_pos_bound (driver_height self - (y1 - y0)) 2 ltac:(lia)).
  lia.
Qed.

(** ** The poll loop over any sequence of snapshots *)

Lemma update_display_empty (self : DisplayManager) :
  ∃ image, update_display self ∅ = Ok image.
Proof.
  unfold update_display, dict_get_default. rewrite !lookup_empty. cbn [default py_floordiv].
  cbn [mbind result_bind].
  destruct (draw_track_text_ok self (lit "Unknown Title") (lit "Unknown Artist")
              (lit "Unknown Album") (VStr (lit "Stopped")) (blank_image self))
    as (hdr & texts & -> & _). cbn [mbind result_bind].
  exists hdr. by apply draw_progress_none.
Qed.

Lemma tick_display_manager self metadata :
  display_manager (_update_loop_tick self metadata) = display_manager self.
Proof.
  unfold _update_loop_tick. destruct (_should_update _ _); [|done].
  destruct metadata as [d|].
  - destruct (bool_decide _); [by destruct (last_metadata self)|].
    by destruct (update_display _ _).
  - by destruct (last_metadata self).
Qed.

Lemma loop_display_manager fetched : ∀ self,
  display_manager (_update_loop self fetched) = display_manager self.
Proof.
  induction fetched as [|m fetched IH]; intros self; [done|].
  cbn [_update_loop fold_left]. unfold _update_loop in IH.
  by rewrite IH, tick_display_manager.
Qed.

Lemma loop_snoc self fetched metadata :
  _update_loop self (fetched ++ [metadata])
  = _update_loop_tick (_update_loop self fetched) metadata.
Proof. unfold _update_loop. by rewrite fold_left_app. Qed.

(** What one round does to the log of frames: nothing; or one playing view,
    of the snapshot that becomes the remembered one; or the idle view, after
    a remembered snapshot. *)
Lemma tick_cases self metadata :
  let self' := _update_loop_tick self metadata in
  (displayed self' = displayed self ∧ last_metadata self' = last_metadata self)
  ∨ (∃ d image, metadata = Some d ∧ update_display (display_manager self) d = Ok image
                ∧ displayed self' = displayed self ++ [PlayingView image]
                ∧ last_metadata self' = Some d)
  ∨ (is_Some (last_metadata self)
     ∧ displayed self' = displayed self ++ [IdleView (show_idle (display_manager self))]
     ∧ last_metadata self' = None).
Proof.
  unfold _update_loop_tick. destruct (_should_update _ _); [|by left].
  destruct metadata as [d|].
  - destruct (bool_decide _).
    + destruct (last_metadata self) eqn:Hl; [right; right|left]; eauto.
    + destruct (update_display _ _) as [image|e] eqn:Hu; [right; left|left]; eauto 10.
  - destruct (last_metadata self) eqn:Hl; [right; right|left]; eauto.
Qed.

(** The invariant of the loop started from [SpotifydDisplay_init]. *)
Lemma loop_invariant dm fetched :
  let self := _update_loop (SpotifydDisplay_init dm) fetched in
  match last_metadata self with
  | Some d => ∃ image, update_display dm d = Ok image
                       ∧ last (displayed self) = Some (PlayingView image)
  | None => displayed self = []
            ∨ last (displayed self) = Some (IdleView (show_idle dm))
  end
  ∧ (∀ i image, displayed self !! i = Some (IdleView image) →
       image = show_idle dm
       ∧ ∃ j frame, i = S j ∧ displayed self !! j = Some (PlayingView frame))
  ∧ Forall (fun r => canvas (image_of r) = canvas (blank_image dm)) (displayed self).
Proof.
  induction fetched as [|metadata fetched IH] using rev_ind.
  { cbn. split; [by left|]. split; [|done]. by intros i image H. }
  cbn zeta in IH |- *. rewrite loop_snoc.
  pose proof (loop_display_manager fetched (SpotifydDisplay_init dm)) as Hdm.
  cbn [SpotifydDisplay_init display_manager] in Hdm.
  set (self := _update_loop (SpotifydDisplay_init dm) fetched) in *.
  destruct IH as (Hlast & Hidle & Hcanvas).
  destruct (tick_cases self metadata)
    as [[-> ->]|[(d & image & -> & Hu & -> & ->)|(Hs & -> & ->)]].
  - done.
  - rewrite Hdm in Hu. split; [|split].
    + exists image. by rewrite last_snoc.
    + intros i im Hi. apply lookup_snoc_Some in Hi as [[_ Hi]|[_ Hi]]; [|done].
      destruct (Hidle i im Hi) as (-> & j & frame & -> & Hj).
      split; [done|]. exists j, frame. split; [done|].
      apply lookup_app_l_Some. done.
    + apply Forall_app. split; [done|]. constructor; [|done].
      cbn [image_of]. by apply canvas_update_display in Hu.
  - rewrite Hdm. split; [|split].
    + right. by rewrite last_snoc.
    + intros i im Hi. apply lookup_snoc_Some in Hi as [[_ Hi]|[Hlen Hi]].
      * destruct (Hidle i im Hi) as (-> & j & frame & -> & Hj).
        split; [done|]. exists j, frame. split; [done|].
        apply lookup_app_l_Some. done.
      * injection Hi as <-. split; [done|].
        destruct Hs as [d Hd]. rewrite Hd in Hlast.
        destruct Hlast as (frame & _ & Hframe).
        rewrite last_lookup in Hframe.
        destruct (displayed self) as [|r rs] eqn:Hdisp; [done|].
        cbn [length Nat.pred] in Hframe, Hlen. subst i.
        exists (length rs), frame. split; [done|].
        apply lookup_app_l_Some. done.
    + apply Forall_app. split; [done|]. constructor; [|done].
      cbn [image_of]. apply canvas_show_idle.
Qed.

(** X7. Every frame the loop hands to the driver, playing view or idle
    view, has the canvas of the display: the width and height of the
    driver, mode ['L'] for the display type ['epaper'] and ['RGB'] for any
    other, and a white background. *)
Theorem frames_have_the_display_canvas (dm : DisplayManager)
    (fetched : list (option dict)) :
  Forall (fun r =>
            mode (image_of r)
            = (if bool_decide (display_type dm = lit "epaper") then lit "L" else lit "RGB")
            ∧ size (image_of r) = (driver_width dm, driver_height dm)
            ∧ background (image_of r) = White)
         (displayed (_update_loop (SpotifydDisplay_init dm) fetched)).
Proof.
  destruct (loop_invariant dm fetched) as (_ & _ & Hcanvas).
  eapply Forall_impl; [exact Hcanvas|]. cbn beta. intros r Hr.
  unfold canvas in Hr. injection Hr as Hm Hs Hb. rewrite Hm, Hs, Hb.
  cbn [blank_image Image_new mode size background]. split; [|done].
  unfold py_ne, py_eq. destruct (decide (display_type dm = lit "epaper")) as [E|E].
  - rewrite E. rewrite bool_decide_eq_true_2 by done.
    by rewrite bool_decide_eq_true_2.
  - rewrite (bool_decide_eq_false_2 (display_type dm = _)) by done.
    rewrite bool_decide_eq_false_2; [done|]. intros [= ?]. done.
Qed.

(** X8. What the display shows is what the loop remembers. After any
    sequence of rounds from the start: if a snapshot is remembered, the last
    frame sent is the playing view of that snapshot; if none is remembered,
    either nothing was ever sent or the last frame sent is the idle view. *)
Theorem display_matches_last_metadata (dm : DisplayManager)
    (fetched : list (option dict)) :
  let self := _update_loop (SpotifydDisplay_init dm) fetched in
  match last_metadata self with
  | Some d => ∃ image, update_display dm d = Ok image
                       ∧ last (displayed self) = Some (PlayingView image)
  | None => displayed self = []
            ∨ last (displayed self) = Some (IdleView (show_idle dm))
  end.
Proof. apply loop_invariant. Qed.

(** X9. The idle view is sent once per end of a session: every idle view in
    the log of frames comes right after a playing view. It is never the
    first frame (so it is not shown at start-up while no player answers) and
    never follows another idle view. *)
Theorem idle_view_follows_a_playing_view (dm : DisplayManager)
    (fetched : list (option dict)) (i : nat) (image : Image) :
  displayed (_update_loop (SpotifydDisplay_init dm) fetched) !! i = Some (IdleView image) →
  ∃ j frame,
    i = S j
    ∧ displayed (_update_loop (SpotifydDisplay_init dm) fetched) !! j
      = Some (PlayingView frame).
Proof.
  intros Hi. destruct (loop_invariant dm fetched) as (_ & Hidle & _).
  by destruct (Hidle i image Hi) as (_ & H).
Qed.

Lemma idle_view_follows_a_playing_view_witness :
  ∃ j frame,
    1%nat = S j
    ∧ displayed (_update_loop (SpotifydDisplay_init default_display)
                              [Some bohemian_rhapsody; None; None]) !! j
      = Some (PlayingView frame).
Proof.
  apply (idle_view_follows_a_playing_view default_display
           [Some bohemian_rhapsody; None; None] 1 (show_idle default_display)).
  vm_compute. reflexivity.
Defined.

(** X10. While the player stays paused or stopped on the same track, the
    loop does nothing at all: over any run of snapshots that have the title,
    artist and status of the remembered one, with a status other than
    [Playing], the state of the loop does not change. No frame is sent, and
    the remembered snapshot is not replaced, whatever else differs. *)
Theorem loop_is_quiet_while_paused (self : SpotifydDisplay) (p : dict)
    (fetched : list (option dict)) :
  last_metadata self = Some p →
  Forall (fun metadata =>
            ∃ c, metadata = Some c
                 ∧ dict_get c "title" = dict_get p "title"
                 ∧ dict_get c "artist" = dict_get p "artist"
                 ∧ dict_get c "status" = dict_get p "status"
                 ∧ dict_get c "status" ≠ VStr (lit "Playing")) fetched →
  _update_loop self fetched = self.
Proof.
  intros Hlast Hall.
  induction Hall as [|metadata fetched (c & -> & Ht & Ha & Hs & Hp) _ IH]; [done|].
  cbn [_update_loop fold_left]. unfold _update_loop in IH.
  assert (Htick : _update_loop_tick self (Some c) = self); [|by rewrite Htick].
  unfold _update_loop_tick. rewrite Hlast, should_update_present.
  apply py_ne_false in Ht, Ha, Hs. rewrite Ht, Ha, Hs.
  unfold py_eq. by rewrite bool_decide_eq_false_2.
Qed.

Lemma loop_is_quiet_while_paused_witness :
  _update_loop
    (_update_loop (SpotifydDisplay_init default_display) [Some paused_A_X])
    [Some paused_elsewhere; Some paused_A_X; Some paused_elsewhere]
  = _update_loop (SpotifydDisplay_init default_display) [Some paused_A_X].
Proof.
  apply (loop_is_quiet_while_paused _ paused_A_X).
  - reflexivity.
  - repeat constructor.
    + exists paused_elsewhere. repeat split; try reflexivity. vm_compute. discriminate.
    + exists paused_A_X. repeat split; try reflexivity. vm_compute. discriminate.
    + exists paused_elsewhere. repeat split; try reflexivity. vm_compute. discriminate.
Defined.

(** X11. While the player is playing, every round sends a frame: over a run
    of well-typed snapshots with status [Playing], on a display at least 10
    wide ([geometry_ok]), the loop sends the playing view of each snapshot
    in turn, catches no exception, and remembers the last snapshot. *)
Theorem loop_redraws_every_round_while_playing (self : SpotifydDisplay)
    (fetched : list (option dict)) :
  geometry_ok (display_manager self) = true →
  Forall (fun metadata =>
            ∃ d, metadata = Some d ∧ well_typed d = true
                 ∧ dict_get d "status" = VStr (lit "Playing")) fetched →
  ∃ images,
    Forall2 (fun metadata image =>
               ∃ d, metadata = Some d
                    ∧ update_display (display_manager self) d = Ok image) fetched images
    ∧ displayed (_update_loop self fetched) = displayed self ++ map PlayingView images
    ∧ last_metadata (_update_loop self fetched)
      = default (last_metadata self) (last fetched)
    ∧ logged (_update_loop self fetched) = logged self.
Proof.
  intros Hgeo Hall. revert self Hgeo.
  induction Hall as [|metadata fetched (d & -> & Hwt & Hplay) _ IH]; intros self Hgeo.
  { exists []. cbn. rewrite app_nil_r. split; [constructor|]. done. }
  destruct (update_display_total (display_manager self) d Hwt Hgeo) as (image & Himage).
  assert (Hne : d ≠ ∅).
  { intros ->. unfold dict_get in Hplay. by rewrite lookup_empty in Hplay. }
  assert (Htick : _update_loop_tick self (Some d)
                  = {| display_manager := display_manager self;
                       last_metadata := Some d;
                       displayed := displayed self ++ [PlayingView image];
                       logged := logged self |}).
  { unfold _update_loop_tick.
    assert (_should_update (last_metadata self) (Some d) = true) as ->.
    { destruct (last_metadata self) as [p|]; [|done].
      rewrite should_update_present. unfold py_eq at 1.
      rewrite (bool_decide_eq_true_2 _ Hplay). by rewrite orb_true_r. }
    by rewrite bool_decide_eq_false_2, Himage. }
  cbn [_update_loop fold_left]. rewrite Htick.
  set (self' := {| display_manager := display_manager self |}).
  destruct (IH self' Hgeo) as (images & Himages & Hdisp & Hlast & Hlog).
  exists (image :: images). split; [|split; [|split]].
  - constructor; [by exists d|done].
  - unfold _update_loop in Hdisp. rewrite Hdisp. cbn [self' displayed map].
    by rewrite <- app_assoc.
  - unfold _update_loop in Hlast. rewrite Hlast. cbn [self' last_metadata].
    rewrite last_cons. by destruct (last fetched).
  - unfold _update_loop in Hlog. by rewrite Hlog.
Qed.

Lemma loop_redraws_every_round_while_playing_witness :
  ∃ images,
    Forall2 (fun metadata image =>
               ∃ d, metadata = Some d
                    ∧ update_display default_display d = Ok image)
            [Some bohemian_rhapsody; Some bohemian_rhapsody; Some track_41_of_80] images
    ∧ displayed (_update_loop (SpotifydDisplay_init default_display)
                   [Some bohemian_rhapsody; Some bohemian_rhapsody; Some track_41_of_80])
      = [] ++ map PlayingView images
    ∧ last_metadata (_update_loop (SpotifydDisplay_init default_display)
                       [Some bohemian_rhapsody; Some bohemian_rhapsody; Some track_41_of_80])
      = default None (last [Some bohemian_rhapsody; Some bohemian_rhapsody;
                            Some track_41_of_80])
    ∧ logged (_update_loop (SpotifydDisplay_init default_display)
                [Some bohemian_rhapsody; Some bohemian_rhapsody; Some track_41_of_80])
      = [].
Proof.
  apply (loop_redraws_every_round_while_playing (SpotifydDisplay_init default_display)).
  - reflexivity.
  - constructor. { eexists. split; [reflexivity|]. split; reflexivity. }
    constructor. { eexists. split; [reflexivity|]. split; reflexivity. }
    constructor. { eexists. split; [reflexivity|]. split; reflexivity. }
    constructor.
Defined.

(** *** Rounds whose rendering raises *)

Lemma tick_congruence s1 s2 metadata :
  display_manager s1 = display_manager s2 → last_metadata s1 = last_metadata s2 →
  displayed s1 = displayed s2 →
  display_manager (_update_loop_tick s1 metadata)
  = display_manager (_update_loop_tick s2 metadata)
  ∧ last_metadata (_update_loop_tick s1 metadata)
    = last_metadata (_update_loop_tick s2 metadata)
  ∧ displayed (_update_loop_tick s1 metadata)
    = displayed (_update_loop_tick s2 metadata).
Proof.
  destruct s1 as [dm1 last1 disp1 log1], s2 as [dm2 last2 disp2 log2].
  cbn [display_manager last_metadata displayed]. intros -> -> ->.
  unfold _update_loop_tick. cbn [display_manager last_metadata displayed logged].
  destruct (_should_update _ _); [|done].
  destruct metadata as [d|].
  - destruct (bool_decide _); [by destruct last2|].
    by destruct (update_display _ _).
  - by destruct last2.
Qed.

Lemma loop_congruence fetched : ∀ s1 s2,
  display_manager s1 = display_manager s2 → last_metadata s1 = last_metadata s2 →
  displayed s1 = displayed s2 →
  last_metadata (_update_loop s1 fetched) = last_metadata (_update_loop s2 fetched)
  ∧ displayed (_update_loop s1 fetched) = displayed (_update_loop s2 fetched).
Proof.
  induction fetched as [|m fetched IH]; intros s1 s2 Hdm Hlast Hdisp; [done|].
  cbn [_update_loop fold_left].
  destruct (tick_congruence s1 s2 m Hdm Hlast Hdisp) as (H1 & H2 & H3).
  by apply IH.
Qed.

Lemma tick_raise self d e :
  update_display (display_manager self) d = Raise e →
  display_manager (_update_loop_tick self (Some d)) = display_manager self
  ∧ last_metadata (_update_loop_tick self (Some d)) = last_metadata self
  ∧ displayed (_update_loop_tick self (Some d)) = displayed self.
Proof.
  intros Hraise. unfold _update_loop_tick. destruct (_should_update _ _); [|done].
  destruct (decide (d = ∅)) as [->|Hne].
  - destruct (update_display_empty (display_manager self)) as (image & Himage).
    congruence.
  - by rewrite bool_decide_eq_false_2, Hraise.
Qed.

(** X12. A snapshot that [update_display] cannot render leaves no trace on
    the display: the frames sent and the snapshot remembered, over any
    rounds before and after, are those of the run without the round of that
    snapshot. (The exception is logged, and nothing else.) *)
Theorem failed_round_leaves_no_trace (self : SpotifydDisplay)
    (before after : list (option dict)) (bad : dict) (e : pyerr) :
  update_display (display_manager self) bad = Raise e →
  displayed (_update_loop self (before ++ Some bad :: after))
  = displayed (_update_loop self (before ++ after))
  ∧ last_metadata (_update_loop self (before ++ Some bad :: after))
    = last_metadata (_update_loop self (before ++ after)).
Proof.
  intros Hraise. unfold _update_loop. rewrite !fold_left_app. cbn [fold_left].
  fold (_update_loop self before).
  set (s := _update_loop self before).
  assert (Hdm : display_manager s = display_manager self) by apply loop_display_manager.
  rewrite <- Hdm in Hraise.
  destruct (tick_raise s bad e Hraise) as (H1 & H2 & H3).
  destruct (loop_congruence after _ _ H1 H2 H3) as [Hl Hd]. done.
Qed.

Lemma failed_round_leaves_no_trace_witness :
  displayed (_update_loop (SpotifydDisplay_init default_display)
               ([Some paused_A_X] ++ Some untitled_track :: [Some bohemian_rhapsody]))
  = displayed (_update_loop (SpotifydDisplay_init default_display)
                 ([Some paused_A_X] ++ [Some bohemian_rhapsody]))
  ∧ last_metadata (_update_loop (SpotifydDisplay_init default_display)
                     ([Some paused_A_X] ++ Some untitled_track :: [Some bohemian_rhapsody]))
    = last_metadata (_update_loop (SpotifydDisplay_init default_display)
                       ([Some paused_A_X] ++ [Some bohemian_rhapsody])).
Proof.
  apply (failed_round_leaves_no_trace (SpotifydDisplay_init default_display)
           [Some paused_A_X] [Some bohemian_rhapsody] untitled_track AttributeError).
  vm_compute. reflexivity.
Defined.

(** ** The metadata source *)

Lemma get_metadata_Some reply result :
  get_metadata reply = Some result →
  ∃ r artist,
    reply = Some r ∧ Metadata r ≠ ∅
    ∧ py_join (lit ", ")
        (default (DStrings [lit "Unknown Artist"]) (Metadata r !! "xesam:artist"))
      = Ok artist
    ∧ result
      = <["title" := default (DScalar (VStr (lit "Unknown Title")))
                             (Metadata r !! "xesam:title")]>
        (<["artist" := DScalar (VStr artist)]>
        (<["album" := default (DScalar (VStr (lit "Unknown Album")))
                              (Metadata r !! "xesam:album")]>
        (<["length" := default (DScalar (VInt 0)) (Metadata r !! "mpris:length")]>
        (<["position" := DScalar (Position r)]>
        (<["status" := DScalar (PlaybackStatus r)]>
        (<["art_url" := default (DScalar (VStr [])) (Metadata r !! "mpris:artUrl")]>
         ∅)))))).
Proof.
  unfold get_metadata. destruct reply as [r|]; [|done].
  destruct (decide (Metadata r = ∅)) as [E|E].
  { by rewrite bool_decide_eq_true_2. }
  rewrite bool_decide_eq_false_2 by done.
  destruct (py_join _ _) as [artist|] eqn:Hj; [|done].
  intros [= <-]. by exists r, artist.
Qed.

(** X13. Whatever the player answers, a dictionary that [get_metadata]
    returns has exactly the seven keys [title], [artist], [album],
    [length], [position], [status] and [art_url]; it is never empty, so the
    loop takes every answer but [None] to [update_display]; and its artist
    is a string. *)
Theorem get_metadata_keys (reply : option MprisReply) (result : gmap string dbus_val) :
  get_metadata reply = Some result →
  (∀ key, is_Some (result !! key) ↔ key ∈ snapshot_keys)
  ∧ result ≠ ∅
  ∧ ∃ artist, result !! "artist" = Some (DScalar (VStr artist)).
Proof.
  intros (r & artist & -> & _ & _ & ->)%get_metadata_Some. split; [|split].
  - intros key. rewrite <- elem_of_dom. rewrite !dom_insert, dom_empty.
    unfold snapshot_keys.
    rewrite !elem_of_union, !elem_of_singleton, !elem_of_cons, elem_of_nil, elem_of_empty.
    tauto.
  - intros H. apply (f_equal (lookup "title")) in H.
    by rewrite lookup_insert_eq, lookup_empty in H.
  - exists artist. by rewrite lookup_insert_ne, lookup_insert_eq.
Qed.

Lemma get_metadata_keys_witness :
  (∀ key, is_Some (default ∅ (get_metadata (Some spotifyd_reply)) !! key)
          ↔ key ∈ snapshot_keys)
  ∧ default ∅ (get_metadata (Some spotifyd_reply)) ≠ ∅
  ∧ ∃ artist, default ∅ (get_metadata (Some spotifyd_reply)) !! "artist"
              = Some (DScalar (VStr artist)).
Proof.
  apply (get_metadata_keys (Some spotifyd_reply)). reflexivity.
Defined.

Lemma is_dbus_text_default (v : option dbus_val) (dflt : str) :
  is_dbus_text v = true → ∃ s, default (DScalar (VStr dflt)) v = DScalar (VStr s).
Proof. destruct v as [[[]|]|]; try done; cbn; eauto. Qed.

Lemma is_dbus_int64_default (v : option dbus_val) :
  is_dbus_int64 v = true →
  ∃ n, default (DScalar (VInt 0)) v = DScalar (VInt n) ∧ is_int64 (Some (VInt n)) = true.
Proof. destruct v as [[[]|]|]; try done; cbn; eauto. Qed.

(** The snapshot made of a reply of the MPRIS types. *)
Lemma get_metadata_typed_snapshot (reply : MprisReply) :
  mpris_typed reply = true → Metadata reply ≠ ∅ →
  ∃ snapshot,
    get_metadata (Some reply) ≫= as_snapshot = Some snapshot
    ∧ well_typed snapshot = true
    ∧ (∀ key, key ∈ displayed_keys → is_Some (snapshot !! key))
    ∧ snapshot !! "status" = Some (PlaybackStatus reply)
    ∧ snapshot !! "position" = Some (Position reply)
    ∧ (∀ artists, Metadata reply !! "xesam:artist" = Some (DStrings artists) →
         snapshot !! "artist" = Some (VStr (join (lit ", ") artists))).
Proof.
  unfold mpris_typed. rewrite !andb_true_iff.
  intros [[[[[Ht Ha] Hb] Hl] Hu] Hp] Hne.
  unfold get_metadata. rewrite bool_decide_eq_false_2 by done.
  destruct (is_dbus_text_default _ (lit "Unknown Title") Ht) as (t & ->).
  destruct (is_dbus_text_default _ (lit "Unknown Album") Hb) as (b & ->).
  destruct (is_dbus_text_default _ [] Hu) as (u & ->).
  destruct (is_dbus_int64_default _ Hl) as (l & -> & Hl').
  assert (∃ a, py_join (lit ", ")
                 (default (DStrings [lit "Unknown Artist"])
                          (Metadata reply !! "xesam:artist")) = Ok a
               ∧ ∀ artists, Metadata reply !! "xesam:artist" = Some (DStrings artists) →
                            a = join (lit ", ") artists) as (a & -> & Hartists).
  { destruct (Metadata reply !! "xesam:artist") as [[v|artists]|]; [done| |].
    - eexists. split; [done|]. by intros ? [= ->].
    - eexists. split; [done|]. done. }
  cbn [mbind option_bind]. unfold as_snapshot.
  rewrite bool_decide_eq_true_2.
  2:{ repeat (apply map_Forall_insert_2; [by eexists|]). apply map_Forall_empty. }
  eexists. split; [reflexivity|].
  rewrite !(omap_insert_Some scalar_of _ _ (DScalar _) _ eq_refl), omap_empty.
  split; [|split; [|split; [|split]]].
  - unfold well_typed.
    rewrite lookup_insert_eq.
    do 1 rewrite lookup_insert_ne by done. rewrite lookup_insert_eq.
    do 2 rewrite lookup_insert_ne by done. rewrite lookup_insert_eq.
    do 4 rewrite lookup_insert_ne by done. rewrite lookup_insert_eq.
    do 3 rewrite lookup_insert_ne by done. rewrite lookup_insert_eq.
    cbn [is_text andb]. by rewrite Hp.
  - intros key. rewrite <- elem_of_dom. rewrite !dom_insert, dom_empty.
    unfold displayed_keys.
    rewrite !elem_of_union, !elem_of_singleton, !elem_of_cons, elem_of_nil, elem_of_empty.
    tauto.
  - by repeat (rewrite lookup_insert_ne by done); rewrite lookup_insert_eq.
  - by repeat (rewrite lookup_insert_ne by done); rewrite lookup_insert_eq.
  - intros artists Hart. rewrite lookup_insert_ne by done. rewrite lookup_insert_eq.
    by rewrite (Hartists artists Hart).
Qed.

(** X14. On a non-empty reply of the MPRIS types, [get_metadata] answers a
    snapshot that is well typed and has all six keys that [update_display]
    reads, so that none of its defaults applies; its status and position are
    those of the reply, and its artist is the artists joined by [", "]. *)
Theorem get_metadata_typed (reply : MprisReply) :
  mpris_typed reply = true → Metadata reply ≠ ∅ →
  ∃ snapshot,
    get_metadata (Some reply) ≫= as_snapshot = Some snapshot
    ∧ well_typed snapshot = true
    ∧ (∀ key, key ∈ displayed_keys → is_Some (snapshot !! key))
    ∧ snapshot !! "status" = Some (PlaybackStatus reply)
    ∧ snapshot !! "position" = Some (Position reply)
    ∧ (∀ artists, Metadata reply !! "xesam:artist" = Some (DStrings artists) →
         snapshot !! "artist" = Some (VStr (join (lit ", ") artists))).
Proof. apply get_metadata_typed_snapshot. Qed.

Lemma get_metadata_typed_witness :
  ∃ snapshot,
    get_metadata (Some spotifyd_reply) ≫= as_snapshot = Some snapshot
    ∧ well_typed snapshot = true
    ∧ (∀ key, key ∈ displayed_keys → is_Some (snapshot !! key))
    ∧ snapshot !! "status" = Some (PlaybackStatus spotifyd_reply)
    ∧ snapshot !! "position" = Some (Position spotifyd_reply)
    ∧ (∀ artists, Metadata spotifyd_reply !! "xesam:artist" = Some (DStrings artists) →
         snapshot !! "artist" = Some (VStr (join (lit ", ") artists))).
Proof.
  apply (get_metadata_typed spotifyd_reply); [reflexivity|].
  intros H. apply (f_equal (lookup "xesam:title")) in H. vm_compute in H. discriminate.
Defined.

Lemma tick_no_error self metadata :
  geometry_ok (display_manager self) = true →
  (∀ d, metadata = Some d → well_typed d = true) →
  logged (_update_loop_tick self metadata) = logged self.
Proof.
  intros Hgeo Hwt. unfold _update_loop_tick. destruct (_should_update _ _); [|done].
  destruct metadata as [d|].
  - destruct (bool_decide _); [by destruct (last_metadata self)|].
    by destruct (update_display_total (display_manager self) d (Hwt d eq_refl) Hgeo)
      as (image & ->).
  - by destruct (last_metadata self).
Qed.

Lemma loop_no_error fetched : ∀ self,
  geometry_ok (display_manager self) = true →
  Forall (fun metadata => ∀ d, metadata = Some d → well_typed d = true) fetched →
  logged (_update_loop self fetched) = logged self.
Proof.
  induction fetched as [|m fetched IH]; intros self Hgeo Hall; [done|].
  inversion Hall as [|? ? Hm Hall']; subst. cbn [_update_loop fold_left].
  unfold _update_loop in IH. rewrite IH; [by apply tick_no_error| |done].
  by rewrite tick_display_manager.
Qed.

(** X15. With a player whose replies are of the MPRIS types, and a display
    at least 10 wide ([geometry_ok]), no round of the loop raises: run over
    what [get_metadata] makes of any sequence of such replies (failed and
    empty ones included), the loop logs no exception. *)
Theorem loop_never_raises_on_mpris_replies (dm : DisplayManager)
    (replies : list (option MprisReply)) :
  geometry_ok dm = true →
  Forall (fun reply => ∀ r, reply = Some r → mpris_typed r = true) replies →
  logged (_update_loop (SpotifydDisplay_init dm)
            (map (fun reply => get_metadata reply ≫= as_snapshot) replies))
  = [].
Proof.
  intros Hgeo Hall. rewrite loop_no_error; [done..|].
  apply Forall_map. eapply Forall_impl; [exact Hall|]. cbn beta.
  intros [r|] Hr d Hd; [|done].
  specialize (Hr r eq_refl).
  destruct (decide (Metadata r = ∅)) as [E|E].
  - unfold get_metadata in Hd. by rewrite bool_decide_eq_true_2 in Hd.
  - destruct (get_metadata_typed_snapshot r Hr E) as (snapshot & Hs & Hwt & _).
    rewrite Hs in Hd. by injection Hd as <-.
Qed.

Lemma loop_never_raises_on_mpris_replies_witness :
  logged (_update_loop (SpotifydDisplay_init default_display)
            (map (fun reply => get_metadata reply ≫= as_snapshot)
                 [None; Some spotifyd_reply; Some empty_reply; Some spotifyd_reply]))
  = [].
Proof.
  apply (loop_never_raises_on_mpris_replies default_display); [reflexivity|].
  repeat constructor; by intros r [= <-].
Defined.

(** ** Configuration *)

Section Configuration.

Variable host : Host.

Lemma dict_update_lookup_is_Some pairs : ∀ d key,
  is_Some (d !! key) → is_Some (dict_update d pairs !! key).
Proof.
  induction pairs as [|[k v] pairs IH]; intros d key Hd; [done|].
  cbn [dict_update fold_left]. apply IH. rewrite lookup_insert_is_Some.
  destruct (decide (k = key)); auto.
Qed.

Lemma env_step_lookup config env_var key converter k :
  env_step host config (env_var, (key, converter)) !! k
  = if decide (k = key)
    then match env_override host env_var converter with
         | Some value => Some value
         | None => config !! k
         end
    else config !! k.
Proof.
  unfold env_step, env_override.
  destruct (environ host !! env_var) as [value|]; cbn [mbind option_bind].
  - destruct converter as [c|].
    + destruct (convert host c value) as [v|].
      * destruct (decide (k = key)) as [->|Hne];
          [by rewrite lookup_insert_eq|by rewrite lookup_insert_ne].
      * by destruct (decide (k = key)).
    + destruct (decide (k = key)) as [->|Hne];
        [by rewrite lookup_insert_eq|by rewrite lookup_insert_ne].
  - by destruct (decide (k = key)).
Qed.

Lemma env_fold_other rows : ∀ config k,
  k ∉ ((fun row => row.2.1) <$> rows) →
  fold_left (env_step host) rows config !! k = config !! k.
Proof.
  induction rows as [|[env_var [key converter]] rows IH]; intros config k Hk; [done|].
  cbn [fmap list_fmap fst snd] in Hk. apply not_elem_of_cons in Hk as [Hne Hk].
  cbn [fold_left]. rewrite IH by done. rewrite env_step_lookup.
  by destruct (decide (k = key)).
Qed.

Lemma env_fold_row rows : ∀ config env_var key converter,
  NoDup ((fun row => row.2.1) <$> rows) →
  (env_var, (key, converter)) ∈ rows →
  fold_left (env_step host) rows config !! key
  = match env_override host env_var converter with
    | Some value => Some value
    | None => config !! key
    end.
Proof.
  induction rows as [|[ev [k c]] rows IH]; intros config env_var key converter Hnd Hin.
  { by apply elem_of_nil in Hin. }
  cbn [fmap list_fmap fst snd] in Hnd. apply NoDup_cons in Hnd as [Hk Hnd].
  cbn [fold_left]. apply elem_of_cons in Hin as [[= -> -> ->]|Hin].
  - rewrite env_fold_other by done. rewrite env_step_lookup.
    by destruct (decide (k = k)).
  - rewrite (IH _ env_var key converter Hnd Hin). rewrite env_step_lookup.
    destruct (decide (key = k)) as [->|Hne]; [|done].
    exfalso. apply Hk. apply list_elem_of_fmap. by exists (env_var, (k, converter)).
Qed.

Lemma env_mapping_NoDup : NoDup ((fun row => row.2.1) <$> env_mapping).
Proof.
  cbn. repeat (apply NoDup_cons; split;
               [rewrite ?not_elem_of_cons; repeat split; try done; apply not_elem_of_nil|]).
  apply NoDup_nil_2.
Qed.

Lemma load_env_overrides_is_Some config key :
  is_Some (config !! key) → is_Some (_load_env_overrides host config !! key).
Proof.
  unfold _load_env_overrides. generalize env_mapping. intros rows. revert config.
  induction rows as [|[ev [k c]] rows IH]; intros config Hc; [done|].
  cbn [fold_left]. apply IH. rewrite env_step_lookup.
  destruct (decide (key = k)); [|done]. by destruct (env_override host ev c).
Qed.

Lemma Config_init_is_Some config_file key :
  is_Some (DEFAULT_CONFIG !! key) →
  is_Some (config (Config_init host config_file) !! key).
Proof.
  intros Hd. unfold Config_init. cbn [config]. apply load_env_overrides_is_Some.
  destruct (_find_config_file host config_file) as [path|]; [|done].
  destruct (_ && _); [|done]. unfold _load_config.
  destruct (load host path); by apply dict_update_lookup_is_Some.
Qed.

End Configuration.

Example config_example :
  config (Config_init example_host None)
  = <["display_type" := JStr (lit "epaper")]>
      (<["display_width" := JInt 296]>
        (<["display_height" := JInt 122]>
          (<["epaper_model" := JStr (lit "epd2in9")]>
            (<["update_interval" := JFloat PyFloat.one]>
              (<["log_level" := JStr (lit "INFO")]> ∅))))).
Proof. vm_compute. reflexivity. Qed.

(** X16. The six settings of [DEFAULT_CONFIG] can always be read as
    attributes of a [Config]: whatever the configuration file holds, whether
    or not it can be read, and whatever the environment, [__getattr__]
    raises no [AttributeError] for them. *)
Theorem config_attributes_are_always_defined (host : Host) (config_file : option str) :
  Forall (fun name => ∃ value, Config_getattr (Config_init host config_file) name = Ok value)
         ["display_type"; "display_width"; "display_height"; "epaper_model";
          "update_interval"; "log_level"].
Proof.
  repeat (apply Forall_cons; split;
          [unfold Config_getattr;
           edestruct (Config_init_is_Some host config_file) as [v ->];
           [|by eexists]; by eexists|]).
  apply Forall_nil_2.
Qed.

(** X17. Each environment variable of [env_mapping] overrides exactly its
    key: after [_load_env_overrides] the key holds the value of the
    variable ([int] or [float] of it for the three numeric settings); if
    the variable is unset, or its conversion raises [ValueError], the key
    is as before. No other key changes. *)
Theorem env_overrides_by_key (host : Host) (config : gmap string json) :
  Forall (fun '(env_var, (key, converter)) =>
            _load_env_overrides host config !! key
            = match env_override host env_var converter with
              | Some value => Some value
              | None => config !! key
              end) env_mapping
  ∧ ∀ key, key ∉ ((fun row => row.2.1) <$> env_mapping) →
           _load_env_overrides host config !! key = config !! key.
Proof.
  split.
  - apply Forall_forall. intros [env_var [key converter]] Hin.
    apply env_fold_row; [apply env_mapping_NoDup|done].
  - intros key Hkey. by apply env_fold_other.
Qed.

(** X18. A configuration file named explicitly that does not exist is not
    replaced by the search path: the configuration is then the defaults
    with the environment overrides, whatever files exist at the path of
    [SPOTIFYD_DISPLAY_CONFIG], in the user's directory or under [/etc]. *)
Theorem missing_explicit_file_means_defaults (host : Host) (path : str) :
  path ≠ [] → path_exists host path = false →
  Config_init host (Some path)
  = {| config_file := Some path; config := _load_env_overrides host DEFAULT_CONFIG |}.
Proof.
  intros Hne Hex. unfold Config_init, _find_config_file.
  destruct path as [|c path']; [done|]. cbn [str_truthy]. by rewrite Hex.
Qed.

Lemma missing_explicit_file_means_defaults_witness :
  Config_init example_host (Some (lit "/boot/display.json"))
  = {| config_file := Some (lit "/boot/display.json");
       config := _load_env_overrides example_host DEFAULT_CONFIG |}.
Proof.
  apply (missing_explicit_file_means_defaults example_host (lit "/boot/display.json")).
  - discriminate.
  - reflexivity.
Defined.

(** ** The layers of the configuration *)

Lemma dict_update_union pairs : ∀ a c : gmap string json,
  dict_update (a ∪ c) pairs = dict_update a pairs ∪ c.
Proof.
  unfold dict_update. induction pairs as [|[key value] pairs IH]; intros a c; [done|].
  cbn [fold_left]. by rewrite insert_union_l, IH.
Qed.

Lemma env_step_union host (a c : gmap string json) row :
  env_step host (a ∪ c) row = env_step host a row ∪ c.
Proof.
  destruct row as [env_var [key converter]]. unfold env_step.
  destruct (environ host !! env_var) as [value|]; [|done].
  destruct converter as [conv|]; [|by rewrite insert_union_l].
  destruct (convert host conv value); [by rewrite insert_union_l|done].
Qed.

Lemma env_fold_union host rows : ∀ a c : gmap string json,
  fold_left (env_step host) rows (a ∪ c) = fold_left (env_step host) rows a ∪ c.
Proof.
  induction rows as [|row rows IH]; intros a c; [done|].
  cbn [fold_left]. by rewrite env_step_union, IH.
Qed.

Lemma load_env_overrides_union host (c : gmap string json) :
  _load_env_overrides host c = _load_env_overrides host ∅ ∪ c.
Proof.
  unfold _load_env_overrides. rewrite <- env_fold_union. by rewrite (left_id_L ∅ (∪)).
Qed.

Lemma load_config_union host path (c : gmap string json) :
  _load_config host path c = _load_config host path ∅ ∪ c.
Proof.
  unfold _load_config.
  destruct (load host path); rewrite <- dict_update_union; by rewrite (left_id_L ∅ (∪)).
Qed.

(** X20. The configuration is three layers, each hiding the ones below it
    key by key: the settings the environment variables give, over the
    members stored from the configuration file that was found and exists,
    over [DEFAULT_CONFIG]. What a layer holds does not depend on the layers
    below it: a file cannot disable an environment override, and a key that
    neither the environment nor the file gives keeps its default. *)
Theorem config_is_environment_over_file_over_defaults
    (host : Host) (config_file : option str) :
  config (Config_init host config_file)
  = _load_env_overrides host ∅
    ∪ (match _find_config_file host config_file with
       | Some path =>
           if str_truthy (Some path) && path_exists host path
           then _load_config host path ∅ else ∅
       | None => ∅
       end
       ∪ DEFAULT_CONFIG).
Proof.
  unfold Config_init. cbn [config]. rewrite load_env_overrides_union. f_equal.
  destruct (_find_config_file host config_file) as [path|];
    [|by rewrite (left_id_L ∅ (∪))].
  destruct (str_truthy (Some path) && path_exists host path);
    [apply load_config_union|by rewrite (left_id_L ∅ (∪))].
Qed.

(** ** Output drivers *)

(** X19. Where the frames go. For any configuration file and environment,
    [_create_driver] returns a driver, and the driver sends a frame either
    to the panel or to [/tmp/display_output.png]. It sends it to the panel
    exactly when the display type is ['epaper'], the model is one of
    [EPAPER_MODELS] and the panel library loads; in every other case,
    unknown display types included, the frame is saved to
    [/tmp/display_output.png]. *)
Theorem frames_reach_the_panel_or_tmp (host : Host) (config_file : option str)
    (waveshare : str → bool) (image : Image) :
  ∃ driver,
    _create_driver waveshare (Config_init host config_file) = Ok driver
    ∧ (driver_display driver image = PanelDisplay image
       ∨ driver_display driver image = SavePng (lit "/tmp/display_output.png") image)
    ∧ (driver_display driver image = PanelDisplay image
       ↔ config (Config_init host config_file) !! "display_type" = Some (JStr (lit "epaper"))
         ∧ ∃ model,
             config (Config_init host config_file) !! "epaper_model" = Some (JStr model)
             ∧ model ∈ EPAPER_MODELS ∧ waveshare model = true).
Proof.
  set (cfg := Config_init host config_file).
  destruct (Config_init_is_Some host config_file "display_type") as [t Ht]; [by eexists|].
  destruct (Config_init_is_Some host config_file "display_width") as [w Hw]; [by eexists|].
  destruct (Config_init_is_Some host config_file "display_height") as [h Hh]; [by eexists|].
  destruct (Config_init_is_Some host config_file "epaper_model") as [m Hm]; [by eexists|].
  fold cfg in Ht, Hw, Hh, Hm.
  unfold _create_driver, Config_getattr. rewrite Ht, Hw, Hh, Hm.
  cbn [mbind result_bind].
  destruct (json_eq_str t (lit "epaper")) eqn:Et.
  - assert (t = JStr (lit "epaper")) as ->.
    { destruct t; try done. cbn in Et. by apply bool_decide_eq_true in Et as ->. }
    cbn [mbind result_bind]. eexists. split; [reflexivity|].
    unfold EPaperDisplayDriver_init. cbn [driver_display].
    destruct m as [| | | |model| |];
      try (split; [by right|]; split; [done|]; by intros (_ & model & [= ?] & _)).
    destruct (bool_decide (model ∈ EPAPER_MODELS)) eqn:Hin.
    + apply bool_decide_eq_true in Hin. cbn [andb].
      destruct (waveshare model) eqn:Hws.
      * split; [by left|]. split; [|done]. intros _. split; [done|]. by exists model.
      * split; [by right|]. split; [done|].
        intros (_ & model' & [= <-] & _ & Hws'). congruence.
    + apply bool_decide_eq_false in Hin. cbn [andb].
      split; [by right|]. split; [done|].
      intros (_ & model' & [= <-] & Hin' & _). done.
  - assert (Hne : t ≠ JStr (lit "epaper")).
    { intros ->. cbn in Et. by rewrite bool_decide_eq_true_2 in Et. }
    exists (VirtualDisplayDriver w h (lit "/tmp")).
    split; [by destruct (json_eq_str t (lit "virtual"))|].
    cbn [driver_display]. split; [by right|]. split; [done|].
    intros ([= E] & _). done.
Qed.

(** ** The progress bar, to the pixel *)

(** What [position / length] and [bar_width * progress] round to, and what
    [int] then cuts off. The Standard Library gives the operations of
    [SpecFloat] and no theory of them; the facts needed are proved here. *)

Module PyFloatRounding.
Import PyFloat PyFloatFacts.

(** *** Rounding a fraction to the nearest integer *)

Lemma Zrne_bounds n d : 0 < d → n / d ≤ Zrne n d ≤ n / d + 1.
Proof.
  intros Hd. unfold Zrne.
  destruct (2 * (n mod d) ?= d); [destruct (Z.even _)| |]; lia.
Qed.

(** [Zrne n d] is within a half of [n / d], and even on a tie. *)
Lemma Zrne_spec n d :
  0 < d →
  (2 * Zrne n d - 1) * d ≤ 2 * n ≤ (2 * Zrne n d + 1) * d
  ∧ (2 * n = (2 * Zrne n d - 1) * d → Z.even (Zrne n d) = true)
  ∧ (2 * n = (2 * Zrne n d + 1) * d → Z.even (Zrne n d) = true).
Proof.
  intros Hd. unfold Zrne.
  pose proof (Z.div_mod n d ltac:(lia)) as Hn.
  pose proof (Z.mod_pos_bound n d Hd) as Hr.
  set (q := n / d) in *. set (r := n mod d) in *. clearbody q r.
  destruct (Z.compare_spec (2 * r) d) as [Hc|Hc|Hc]; cbv beta iota zeta.
  - destruct (Z.even q) eqn:Hq.
    + split; [nia|]. split; [done|done].
    + split; [nia|]. split; [|intros; exfalso; nia]. intros _.
      rewrite Z.even_add, Hq. done.
  - split; [nia|]. split; intros; exfalso; nia.
  - split; [nia|]. split; intros; exfalso; nia.
Qed.

Lemma Zrne_mono n1 d1 n2 d2 :
  0 < d1 → 0 < d2 → n1 * d2 ≤ n2 * d1 → Zrne n1 d1 ≤ Zrne n2 d2.
Proof.
  intros Hd1 Hd2 Hle.
  destruct (Zrne_spec n1 d1 Hd1) as ([Hlo1 _] & Hev1 & _).
  destruct (Zrne_spec n2 d2 Hd2) as ([_ Hhi2] & _ & Hev2).
  set (z1 := Zrne n1 d1) in *. set (z2 := Zrne n2 d2) in *.
  destruct (Z.le_gt_cases z1 z2) as [|Hgt]; [done|exfalso].
  assert (H1 : (2 * z1 - 1) * (d1 * d2) ≤ 2 * n1 * d2) by nia.
  assert (H2 : 2 * n2 * d1 ≤ (2 * z2 + 1) * (d1 * d2)) by nia.
  assert (Hdd : 0 < d1 * d2) by nia.
  assert (Hz : z1 = z2 + 1) by nia.
  assert (E1 : 2 * n1 = (2 * z1 - 1) * d1) by nia.
  assert (E2 : 2 * n2 = (2 * z2 + 1) * d2) by nia.
  specialize (Hev1 E1). specialize (Hev2 E2).
  rewrite Hz, Z.even_add, Hev2 in Hev1. done.
Qed.

Lemma round_nearest_even_frac n d :
  0 < d → round_nearest_even (n / d) (loc_frac (n mod d) d) = Zrne n d.
Proof.
  intros Hd. unfold Zrne, loc_frac.
  pose proof (Z.mod_pos_bound n d Hd) as Hr.
  destruct (Z.eqb_spec (n mod d) 0) as [->|Hne]; cbn [round_nearest_even].
  - destruct (Z.compare_spec (2 * 0) d); [lia|done|lia].
  - by destruct (2 * (n mod d) ?= d).
Qed.

Lemma new_location_frac d r :
  0 < d → 0 ≤ r < d → new_location d r = loc_frac r d.
Proof.
  intros Hd Hr. unfold new_location, new_location_even, new_location_odd, loc_frac.
  destruct (Z.even d) eqn:Hev; [done|].
  destruct (r =? 0); [done|]. f_equal.
  assert (Hodd : Z.odd d = true) by (by rewrite <- Z.negb_even, Hev).
  apply Z.odd_spec in Hodd as [k Hk].
  destruct (Z.compare_spec (2 * r + 1) d) as [Hc|Hc|Hc]; symmetry.
  - apply Z.compare_lt_iff. lia.
  - apply Z.compare_lt_iff. lia.
  - apply Z.compare_gt_iff. lia.
Qed.

(** *** Shifting right keeps track of what is shifted out *)

Lemma loc_frac_exact r d : 0 ≤ r < d → loc_frac r d = loc_Exact ↔ r = 0.
Proof.
  intros Hr. unfold loc_frac. destruct (Z.eqb_spec r 0); [done|].
  split; [done|]. intros; done.
Qed.

Lemma shr_1_loc mrs r d :
  0 ≤ shr_m mrs → 0 ≤ r < d → loc_of_shr_record mrs = loc_frac r d →
  loc_of_shr_record (shr_1 mrs) = loc_frac (shr_m mrs mod 2 * d + r) (2 * d).
Proof.
  intros Hm Hr Hloc.
  assert (Hs : orb (shr_r mrs) (shr_s mrs) = negb (r =? 0)).
  { pose proof (loc_frac_exact r d Hr) as Hx. rewrite <- Hloc in Hx.
    destruct mrs as [m [] []]; cbn in Hx |- *;
      destruct (Z.eqb_spec r 0) as [E|E]; try done.
    - by apply Hx in E.
    - by apply Hx in E.
    - by apply Hx in E.
    - exfalso. apply E. by apply Hx. }
  destruct mrs as [m rb sb]. cbn [shr_m shr_r shr_s] in *.
  assert (Hcases : (m mod 2 = 0 ∨ m mod 2 = 1))
    by (pose proof (Z.mod_pos_bound m 2 ltac:(lia)); lia).
  unfold loc_frac.
  destruct m as [|[p|p|]|p]; cbn [shr_1 loc_of_shr_record]; try lia; rewrite Hs.
  - (* 0 *)
    change (0 mod 2) with 0. rewrite Z.mul_0_l, Z.add_0_l.
    destruct (Z.eqb_spec r 0) as [->|Hr0]; cbn [negb]; [done|].
    f_equal. symmetry. apply Z.compare_lt_iff. lia.
  - (* xI *)
    assert (Z.pos p~1 mod 2 = 1) as ->.
    { rewrite Pos2Z.inj_xI, Z.add_comm, Z.mul_comm, Z.mod_add by lia. done. }
    destruct (Z.eqb_spec (1 * d + r) 0) as [|_]; [lia|].
    destruct (Z.eqb_spec r 0) as [->|Hr0]; cbn [negb]; f_equal; symmetry.
    + apply Z.compare_eq_iff. lia.
    + apply Z.compare_gt_iff. lia.
  - (* xO *)
    assert (Z.pos p~0 mod 2 = 0) as ->.
    { rewrite Pos2Z.inj_xO, Z.mul_comm, Z.mod_mul by lia. done. }
    rewrite Z.mul_0_l, Z.add_0_l.
    destruct (Z.eqb_spec r 0) as [->|Hr0]; cbn [negb]; [done|].
    f_equal. symmetry. apply Z.compare_lt_iff. lia.
  - (* xH *)
    change (1 mod 2) with 1.
    destruct (Z.eqb_spec (1 * d + r) 0) as [|_]; [lia|].
    destruct (Z.eqb_spec r 0) as [->|Hr0]; cbn [negb]; f_equal; symmetry.
    + apply Z.compare_eq_iff. lia.
    + apply Z.compare_gt_iff. lia.
Qed.

Lemma iter_shr_1_loc p : ∀ mrs r d,
  0 ≤ shr_m mrs → 0 ≤ r < d → loc_of_shr_record mrs = loc_frac r d →
  loc_of_shr_record (SpecFloat.iter_pos shr_1 p mrs)
  = loc_frac (shr_m mrs mod 2 ^ Z.pos p * d + r) (2 ^ Z.pos p * d).
Proof.
  assert (Hnn : ∀ m k, 0 ≤ m → 0 ≤ k → 0 ≤ m / 2 ^ k).
  { intros m k ? ?. apply Z.div_pos; [lia | apply Z.pow_pos_nonneg; lia]. }
  assert (Hstep : ∀ mrs r d a b,
            0 ≤ shr_m mrs → 0 ≤ r < d → 0 < a → 0 < b →
            0 ≤ shr_m mrs mod a * d + r < a * d
            ∧ (shr_m mrs / a) mod b * (a * d) + (shr_m mrs mod a * d + r)
              = shr_m mrs mod (a * b) * d + r).
  { intros mrs r d a b Hm Hr Ha Hb.
    pose proof (Z.mod_pos_bound (shr_m mrs) a Ha).
    split; [nia|]. rewrite Z.rem_mul_r by lia. ring. }
  induction p as [p IH|p IH|]; intros mrs r d Hm Hr Hloc; cbn [SpecFloat.iter_pos];
    try assert (Hp : 0 < 2 ^ Z.pos p) by (apply Z.pow_pos_nonneg; lia).
  - assert (Hpow : 2 ^ Z.pos p~1 = 2 * (2 ^ Z.pos p * 2 ^ Z.pos p)).
    { assert (Z.pos p~1 = 1 + Z.pos p + Z.pos p) as -> by lia.
      rewrite !Z.pow_add_r by lia. lia. }
    pose proof (shr_1_loc mrs r d Hm Hr Hloc) as H1.
    pose proof (shr_1_m mrs Hm) as Hm1.
    assert (Hm1' : 0 ≤ shr_m (shr_1 mrs)) by (rewrite Hm1; apply (Hnn _ 1); lia).
    destruct (Hstep mrs r d 2 (2 ^ Z.pos p) Hm Hr ltac:(lia) Hp) as [Hr1 He1].
    pose proof (IH (shr_1 mrs) _ _ Hm1' Hr1 H1) as H2.
    pose proof (iter_shr_1_m p (shr_1 mrs) Hm1') as Hm2.
    assert (Hm2' : 0 ≤ shr_m (SpecFloat.iter_pos shr_1 p (shr_1 mrs)))
      by (rewrite Hm2; by apply Hnn).
    rewrite Hm1, He1 in H2.
    destruct (Hstep mrs r d (2 * 2 ^ Z.pos p) (2 ^ Z.pos p) Hm Hr ltac:(lia) Hp)
      as [Hr2 He2].
    replace (2 ^ Z.pos p * (2 * d)) with (2 * 2 ^ Z.pos p * d) in H2 by ring.
    pose proof (IH _ _ _ Hm2' Hr2 H2) as H3.
    rewrite Hm2, Hm1, Z.div_div, He2 in H3 by lia.
    rewrite H3, Hpow. f_equal; [f_equal; f_equal; f_equal; ring | ring].
  - assert (Hpow : 2 ^ Z.pos p~0 = 2 ^ Z.pos p * 2 ^ Z.pos p).
    { assert (Z.pos p~0 = Z.pos p + Z.pos p) as -> by lia.
      rewrite !Z.pow_add_r by lia. lia. }
    pose proof (IH mrs r d Hm Hr Hloc) as H1.
    pose proof (iter_shr_1_m p mrs Hm) as Hm1.
    assert (Hm1' : 0 ≤ shr_m (SpecFloat.iter_pos shr_1 p mrs))
      by (rewrite Hm1; by apply Hnn).
    destruct (Hstep mrs r d (2 ^ Z.pos p) (2 ^ Z.pos p) Hm Hr Hp Hp) as [Hr1 He1].
    pose proof (IH _ _ _ Hm1' Hr1 H1) as H2.
    rewrite Hm1, He1 in H2.
    rewrite H2, Hpow. f_equal. ring.
  - rewrite (shr_1_loc mrs r d Hm Hr Hloc). done.
Qed.

(** *** Rounding a value of 53 digits or more *)

Lemma digits_53_bounds M n :
  0 < M → 0 ≤ n → Zdigits2 M = 53 + n → 2 ^ 52 * 2 ^ n ≤ M < 2 ^ 53 * 2 ^ n.
Proof.
  intros HM Hn Hd. rewrite <- !Z.pow_add_r by lia. split.
  - apply Zdigits2_gt_iff; lia.
  - apply Zdigits2_le_iff; lia.
Qed.

(** The first shift of [binary_round_aux] and the rounding, on a value
    [(M + r / d) * 2^E] of [53 + n] digits: the mantissa becomes the
    nearest integer to the value in units of [2^(E + n)]. *)
Lemma shr_round M E r d n :
  0 < d → 0 ≤ r < d → 0 < M → 0 ≤ n → Zdigits2 M = 53 + n → -1074 ≤ E + n →
  let '(mrs, e) := shr_fexp prec emax M E (loc_frac r d) in
  e = E + n
  ∧ round_nearest_even (shr_m mrs) (loc_of_shr_record mrs)
    = Zrne (M * d + r) (d * 2 ^ n).
Proof.
  intros Hd Hr HM Hn Hdig He. unfold shr_fexp, shr.
  assert (Hf : fexp prec emax (Zdigits2 M + E) - E = n).
  { unfold fexp, emin, prec, emax. lia. }
  rewrite Hf.
  assert (Hrec : shr_m (shr_record_of_loc M (loc_frac r d)) = M)
    by (by destruct (loc_frac r d) as [|[]]).
  assert (Hloc : loc_of_shr_record (shr_record_of_loc M (loc_frac r d)) = loc_frac r d)
    by (by destruct (loc_frac r d) as [|[]]).
  assert (Hq : (M * d + r) / d = M).
  { rewrite Z.mul_comm. symmetry. apply (Z.div_unique_pos _ _ _ r); lia. }
  assert (Hm : (M * d + r) mod d = r).
  { rewrite Z.add_comm, Z.mod_add by lia. apply Z.mod_small. lia. }
  destruct n as [|p|p]; [| |lia].
  - split; [lia|]. rewrite Hrec, Hloc. change (2 ^ 0) with 1. rewrite Z.mul_1_r.
    rewrite <- (round_nearest_even_frac (M * d + r) d Hd). by rewrite Hq, Hm.
  - split; [done|].
    assert (Hp : 0 < 2 ^ Z.pos p) by (apply Z.pow_pos_nonneg; lia).
    rewrite iter_shr_1_m, Hrec by lia.
    rewrite (iter_shr_1_loc p _ r d); [|lia|done|done]. rewrite Hrec.
    rewrite <- (round_nearest_even_frac (M * d + r) (d * 2 ^ Z.pos p)) by lia.
    rewrite <- Z.div_div, Hq by lia.
    rewrite Z.rem_mul_r, Hq, Hm by lia.
    f_equal. f_equal; ring.
Qed.

Lemma Zrne_normal M r d n :
  0 < d → 0 ≤ r < d → 0 < M → 0 ≤ n → Zdigits2 M = 53 + n →
  2 ^ 52 ≤ Zrne (M * d + r) (d * 2 ^ n) ≤ 2 ^ 53.
Proof.
  intros Hd Hr HM Hn Hdig.
  assert (Hp : 0 < 2 ^ n) by (apply Z.pow_pos_nonneg; lia).
  pose proof (digits_53_bounds M n HM Hn Hdig) as HMb.
  pose proof (Zrne_bounds (M * d + r) (d * 2 ^ n) ltac:(nia)) as Hb.
  assert (Hq : (M * d + r) / (d * 2 ^ n) = M / 2 ^ n).
  { rewrite <- Z.div_div by lia. f_equal.
    rewrite Z.mul_comm. symmetry. apply (Z.div_unique_pos _ _ _ r); lia. }
  rewrite Hq in Hb.
  assert (2 ^ 52 ≤ M / 2 ^ n) by (apply Z.div_le_lower_bound; lia).
  assert (M / 2 ^ n < 2 ^ 53) by (apply Z.div_lt_upper_bound; lia).
  lia.
Qed.

(** The second shift of [binary_round_aux]: a mantissa of [2^53] is
    halved. *)
Lemma renormalize z e :
  2 ^ 52 ≤ z ≤ 2 ^ 53 → -1074 ≤ e → e < 971 →
  (let '(mrs, e') := shr_fexp prec emax z e loc_Exact in
   match shr_m mrs with
   | 0 => S754_zero false
   | Z.pos m => if e' <=? emax - prec then S754_finite false m e' else S754_infinity false
   | Z.neg _ => S754_nan
   end) = normal_float z e.
Proof.
  intros Hz He He'. unfold normal_float.
  destruct (Z.ltb_spec z (2 ^ 53)) as [Hlt|Hge].
  - assert (Hd : Zdigits2 z = 53).
    { apply Z.le_antisymm; [apply Zdigits2_le_iff; lia|].
      assert (52 < Zdigits2 z); [apply Zdigits2_gt_iff; lia|lia]. }
    unfold shr_fexp, shr. rewrite Hd.
    assert (fexp prec emax (53 + e) - e = 0) as ->
      by (unfold fexp, emin, prec, emax; lia).
    cbn [shr_record_of_loc shr_m].
    destruct z as [|pz|pz]; [lia| |lia].
    assert ((e <=? emax - prec) = true) as ->
      by (apply Z.leb_le; unfold emax, prec; lia).
    done.
  - assert (z = 2 ^ 53) as -> by lia.
    unfold shr_fexp, shr.
    assert (Zdigits2 (2 ^ 53) = 54) as -> by (vm_compute; reflexivity).
    assert (fexp prec emax (54 + e) - e = 1) as ->
      by (unfold fexp, emin, prec, emax; lia).
    assert ((e + 1 <=? emax - prec) = true) as Hle
      by (apply Z.leb_le; unfold emax, prec; lia).
    cbn [SpecFloat.iter_pos shr_record_of_loc].
    change (shr_m (shr_1 {| shr_m := 2 ^ 53; shr_r := false; shr_s := false |}))
      with (2 ^ 52).
    change (2 ^ 52) with (Z.pos 4503599627370496). cbv iota beta.
    rewrite Hle. done.
Qed.

(** [binary_round_aux] on a positive value of 53 digits or more. *)
Lemma binary_round_aux_normal M E r d n :
  0 < d → 0 ≤ r < d → 0 < M → 0 ≤ n → Zdigits2 M = 53 + n →
  -1074 ≤ E + n → E + n < 971 →
  binary_round_aux prec emax false M E (loc_frac r d)
  = normal_float (Zrne (M * d + r) (d * 2 ^ n)) (E + n).
Proof.
  intros Hd Hr HM Hn Hdig Hlo Hhi. unfold binary_round_aux.
  pose proof (shr_round M E r d n Hd Hr HM Hn Hdig Hlo) as H1.
  destruct (shr_fexp prec emax M E (loc_frac r d)) as [mrs1 e1].
  destruct H1 as [-> ->].
  apply renormalize; [|done..].
  by apply Zrne_normal.
Qed.

(** *** The order of rounded values *)

Lemma pow2_ge_2 k : 0 < k → 2 ≤ 2 ^ k.
Proof.
  intros Hk. change 2 with (2 ^ 1) at 1. apply Z.pow_le_mono_r; lia.
Qed.

Lemma normal_float_normal z e :
  2 ^ 52 ≤ z ≤ 2 ^ 53 → -1021 ≤ e → e < 971 → normal (normal_float z e).
Proof.
  intros Hz He He'. unfold normal_float.
  destruct (Z.ltb_spec z (2 ^ 53)) as [Hlt|Hge]; cbn [normal].
  - rewrite Z2Pos.id by lia. lia.
  - split; [vm_compute; split; [discriminate|reflexivity]|lia].
Qed.

Lemma normal_float_mono z1 e1 z2 e2 :
  2 ^ 52 ≤ z1 ≤ 2 ^ 53 → 2 ^ 52 ≤ z2 ≤ 2 ^ 53 →
  e1 ≤ e2 → (e1 = e2 → z1 ≤ z2) →
  float_le (normal_float z1 e1) (normal_float z2 e2).
Proof.
  intros Hz1 Hz2 He Hz. unfold normal_float.
  assert (H5253 : 2 ^ 53 = 2 * 2 ^ 52) by reflexivity.
  assert (H52 : 0 < 2 ^ 52) by reflexivity.
  destruct (Z.ltb_spec z1 (2 ^ 53)) as [Hlt1|Hge1],
           (Z.ltb_spec z2 (2 ^ 53)) as [Hlt2|Hge2]; cbn [float_le];
    rewrite ?Z2Pos.id by lia.
  - split; [done|]. destruct (Z.eq_dec e1 e2) as [->|Hne].
    + rewrite Z.sub_diag. change (2 ^ 0) with 1. specialize (Hz eq_refl). lia.
    + pose proof (pow2_ge_2 (e2 - e1) ltac:(lia)). nia.
  - split; [lia|]. pose proof (pow2_ge_2 (e2 + 1 - e1) ltac:(lia)). nia.
  - assert (e1 < e2).
    { destruct (Z.eq_dec e1 e2) as [E|E]; [specialize (Hz E)|]; lia. }
    split; [lia|].
    assert (0 < 2 ^ (e2 - (e1 + 1))) by (apply Z.pow_pos_nonneg; lia). nia.
  - split; [lia|].
    assert (0 < 2 ^ (e2 + 1 - (e1 + 1))) by (apply Z.pow_pos_nonneg; lia). nia.
Qed.

(** Rounding is monotone: of two values over the same denominator, the
    smaller one does not round to the greater float. *)
Lemma round_mono M1 r1 E1 n1 M2 r2 E2 n2 d :
  0 < d → 0 ≤ r1 < d → 0 ≤ r2 < d → 0 < M1 → 0 < M2 →
  0 ≤ n1 → 0 ≤ n2 → Zdigits2 M1 = 53 + n1 → Zdigits2 M2 = 53 + n2 →
  E1 ≤ E2 → M1 * d + r1 ≤ (M2 * d + r2) * 2 ^ (E2 - E1) →
  float_le (normal_float (Zrne (M1 * d + r1) (d * 2 ^ n1)) (E1 + n1))
           (normal_float (Zrne (M2 * d + r2) (d * 2 ^ n2)) (E2 + n2)).
Proof.
  intros Hd Hr1 Hr2 HM1 HM2 Hn1 Hn2 Hd1 Hd2 HE Hle.
  pose proof (digits_53_bounds M1 n1 HM1 Hn1 Hd1) as Hb1.
  pose proof (digits_53_bounds M2 n2 HM2 Hn2 Hd2) as Hb2.
  set (k := E2 - E1) in *.
  assert (Hk : 0 < 2 ^ k) by (apply Z.pow_pos_nonneg; lia).
  assert (Hp1 : 0 < 2 ^ n1) by (apply Z.pow_pos_nonneg; lia).
  assert (Hp2 : 0 < 2 ^ n2) by (apply Z.pow_pos_nonneg; lia).
  assert (HM : M1 < (M2 + 1) * 2 ^ k).
  { assert (M1 * d < (M2 + 1) * 2 ^ k * d) by nia. nia. }
  assert (Hn : n1 ≤ n2 + k).
  { assert (Hlt : 2 ^ (52 + n1) < 2 ^ (53 + n2 + k)).
    { rewrite !Z.pow_add_r by lia. nia. }
    apply Z.pow_lt_mono_r_iff in Hlt; lia. }
  apply normal_float_mono; [by apply Zrne_normal..|lia|].
  intros He. assert (Hn' : n1 = n2 + k) by lia.
  apply Zrne_mono; [nia..|].
  rewrite Hn', Z.pow_add_r by lia. nia.
Qed.

(** *** Truncation and the clamp *)

Lemma to_int_normal m e :
  to_int (S754_finite false m e)
  = Ok (if e <? 0 then Z.pos m / 2 ^ (- e) else Z.pos m * 2 ^ e).
Proof.
  cbn [to_int]. f_equal. destruct e as [|p|p]; cbn [Z.ltb Z.compare].
  - rewrite Z.shiftl_0_r. change (2 ^ 0) with 1. lia.
  - by rewrite Z.shiftl_mul_pow2.
  - by rewrite Z.shiftr_div_pow2.
Qed.

Lemma to_int_mono x y :
  float_le x y →
  ∃ a b, to_int x = Ok a ∧ to_int y = Ok b ∧ a ≤ b.
Proof.
  destruct x as [| | |[] m1 e1], y as [| | |[] m2 e2]; try done.
  intros [He Hm]. rewrite !to_int_normal. eexists _, _. split; [done|]. split; [done|].
  assert (Hk : 0 < 2 ^ (e2 - e1)) by (apply Z.pow_pos_nonneg; lia).
  destruct (Z.ltb_spec e1 0) as [H1|H1], (Z.ltb_spec e2 0) as [H2|H2]; [| |lia|].
  - assert (Hp1 : 0 < 2 ^ (- e1)) by (apply Z.pow_pos_nonneg; lia).
    assert (Hp2 : 0 < 2 ^ (- e2)) by (apply Z.pow_pos_nonneg; lia).
    assert (Hs : 2 ^ (- e1) = 2 ^ (e2 - e1) * 2 ^ (- e2)).
    { rewrite <- Z.pow_add_r by lia. f_equal; lia. }
    rewrite Hs, <- Z.div_div by lia.
    apply Z.div_le_mono; [lia|]. apply Z.div_le_upper_bound; lia.
  - assert (Hp1 : 0 < 2 ^ (- e1)) by (apply Z.pow_pos_nonneg; lia).
    assert (Hs : 2 ^ (e2 - e1) = 2 ^ e2 * 2 ^ (- e1)).
    { rewrite <- Z.pow_add_r by lia. f_equal; lia. }
    apply Z.div_le_upper_bound; [lia|]. rewrite Hs in Hm. lia.
  - assert (Hp1 : 0 < 2 ^ e1) by (apply Z.pow_pos_nonneg; lia).
    assert (Hs : 2 ^ e2 = 2 ^ (e2 - e1) * 2 ^ e1).
    { rewrite <- Z.pow_add_r by lia. f_equal; lia. }
    rewrite Hs. nia.
Qed.

(** The clamp of a positive float of 53 digits: the float below [1.0],
    [1.0] from there on. *)
Lemma clamp_normal m e :
  2 ^ 52 ≤ Z.pos m < 2 ^ 53 →
  min one (max zero (S754_finite false m e))
  = if e <? -52 then S754_finite false m e else one.
Proof.
  intros Hm.
  assert (Hmax : max zero (S754_finite false m e) = S754_finite false m e) by done.
  rewrite Hmax. unfold min, ltb, SFltb, one. cbn [SFcompare].
  destruct (Z.ltb_spec e (-52)) as [He|He].
  - assert ((e ?= -52) = Lt) as -> by (by apply Z.compare_lt_iff). done.
  - destruct (Z.compare_spec e (-52)) as [->|Hlt|Hgt]; [|lia|done].
    destruct (Pos.compare_cont Eq m 4503599627370496) eqn:Hc; [done| |done].
    exfalso. assert (Hm' : (m < 4503599627370496)%positive) by exact Hc.
    apply Pos2Z.pos_lt_pos in Hm'. destruct Hm as [Hm _].
    change (2 ^ 52) with (Z.pos 4503599627370496) in Hm.
    clear -Hm Hm'. apply Z.lt_nge in Hm'. done.
Qed.

Lemma clamp_mono x y :
  normal x → normal y → float_le x y →
  normal (min one (max zero x)) ∧ normal (min one (max zero y))
  ∧ float_le (min one (max zero x)) (min one (max zero y))
  ∧ unit_float (min one (max zero x)) ∧ unit_float (min one (max zero y)).
Proof.
  destruct x as [| | |[] m1 e1], y as [| | |[] m2 e2]; try done.
  intros [Hm1 He1b] [Hm2 He2b] [He Hm]. rewrite !clamp_normal by done.
  assert (Hone : normal one).
  { split; [vm_compute; split; [discriminate|reflexivity]|lia]. }
  assert (H5253 : 2 ^ 53 = 2 * 2 ^ 52) by reflexivity.
  assert (Hunit : ∀ m e, 2 ^ 52 ≤ Z.pos m < 2 ^ 53 → e < -52 →
                         unit_float (S754_finite false m e)).
  { intros m e Hmb Heb. split; [lia|].
    assert (2 ^ 53 ≤ 2 ^ (- e)) by (apply Z.pow_le_mono_r; lia). lia. }
  destruct (Z.ltb_spec e1 (-52)) as [H1|H1], (Z.ltb_spec e2 (-52)) as [H2|H2].
  - split; [done|]. split; [done|]. split; [done|]. split; by apply Hunit.
  - split; [done|]. split; [done|]. split; [|split; [by apply Hunit|apply unit_float_one]].
    unfold one. split; [lia|].
    pose proof (pow2_ge_2 (-52 - e1) ltac:(lia)).
    change (Z.pos 4503599627370496) with (2 ^ 52). nia.
  - lia.
  - split; [done|]. split; [done|]. split; [|split; apply unit_float_one].
    unfold one. split; [lia|]. rewrite Z.sub_diag. change (2 ^ 0) with 1. lia.
Qed.

(** *** The operations of the progress bar on positive operands *)

Lemma digits_53 m : 2 ^ 52 ≤ m < 2 ^ 53 → Zdigits2 m = 53.
Proof.
  intros Hm. apply Z.le_antisymm; [apply Zdigits2_le_iff; lia|].
  assert (52 < Zdigits2 m); [apply Zdigits2_gt_iff; lia|lia].
Qed.

Lemma binary_round_int_normal p :
  Z.pos p < 2 ^ 53 →
  ∃ m e, binary_round prec emax false p 0 = S754_finite false m e
         ∧ -52 ≤ e ≤ 0 ∧ Z.pos m = Z.pos p * 2 ^ (- e)
         ∧ 2 ^ 52 ≤ Z.pos m < 2 ^ 53.
Proof.
  intros Hp. unfold binary_round, shl_align.
  assert (Hd : Z.pos (digits2_pos p) ≤ 53).
  { apply (Zdigits2_le_iff (Z.pos p) 53); lia. }
  assert (Hf : fexp prec emax (Z.pos (digits2_pos p) + 0) = Z.pos (digits2_pos p) - 53).
  { unfold fexp, emin, prec, emax. lia. }
  assert (Hb : ∀ m, Z.pos (digits2_pos m) = 53 → 2 ^ 52 ≤ Z.pos m < 2 ^ 53).
  { intros m Hm. change (Zdigits2 (Z.pos m) = 53) in Hm. split.
    - apply Zdigits2_gt_iff; lia.
    - apply Zdigits2_le_iff; lia. }
  rewrite Hf.
  destruct (Z.pos (digits2_pos p) - 53 - 0) as [|k|k] eqn:Hk; [|lia|].
  - exists p, 0. split; [|split; [lia|split]].
    + apply binary_round_aux_exact; [|lia].
      change (Zdigits2 (Z.pos p)) with (Z.pos (digits2_pos p)).
      unfold fexp, emin, prec, emax. lia.
    + change (2 ^ (- 0)) with 1. lia.
    + apply Hb. lia.
  - exists (Pos.iter xO p k), (Z.pos (digits2_pos p) - 53).
    assert (Hdk : Z.pos (digits2_pos (Pos.iter xO p k)) = 53).
    { rewrite digits2_pos_iter_xO. lia. }
    split; [|split; [lia|split]].
    + apply binary_round_aux_exact; [|lia].
      change (Zdigits2 (Z.pos (Pos.iter xO p k)))
        with (Z.pos (digits2_pos (Pos.iter xO p k))).
      rewrite Hdk. unfold fexp, emin, prec, emax. lia.
    + rewrite pos_iter_xO_Z. f_equal. f_equal. lia.
    + by apply Hb.
Qed.

(** [float(n)] for a positive [int] below [2^53]. *)
Lemma of_int_normal n :
  0 < n < 2 ^ 53 →
  ∃ m e, of_int n = Ok (S754_finite false m e)
         ∧ -52 ≤ e ≤ 0 ∧ Z.pos m = n * 2 ^ (- e) ∧ 2 ^ 52 ≤ Z.pos m < 2 ^ 53.
Proof.
  intros Hn. unfold of_int. destruct n as [|p|p]; [lia| |lia].
  cbn [binary_normalize].
  destruct (binary_round_int_normal p) as (m & e & -> & H); [lia|]. by exists m, e.
Qed.

(** The floats of two ordered positive [int]s are ordered. *)
Lemma of_int_order p1 m1 e1 p2 m2 e2 :
  0 < p1 ≤ p2 → e1 ≤ 0 → e2 ≤ 0 →
  Z.pos m1 = p1 * 2 ^ (- e1) → Z.pos m2 = p2 * 2 ^ (- e2) →
  2 ^ 52 ≤ Z.pos m1 < 2 ^ 53 → 2 ^ 52 ≤ Z.pos m2 < 2 ^ 53 →
  e1 ≤ e2 ∧ Z.pos m1 ≤ Z.pos m2 * 2 ^ (e2 - e1).
Proof.
  intros Hp He1 He2 Hm1 Hm2 Hb1 Hb2.
  assert (Hq1 : 0 < 2 ^ (- e1)) by (apply Z.pow_pos_nonneg; lia).
  assert (Hq2 : 0 < 2 ^ (- e2)) by (apply Z.pow_pos_nonneg; lia).
  assert (He : e1 ≤ e2).
  { destruct (Z.le_gt_cases e1 e2) as [|Hgt]; [done|exfalso].
    assert (Hs : 2 ^ (- e2) = 2 ^ (e1 - e2) * 2 ^ (- e1)).
    { rewrite <- Z.pow_add_r by lia. f_equal; lia. }
    pose proof (pow2_ge_2 (e1 - e2) ltac:(lia)).
    assert (H5253 : 2 ^ 53 = 2 * 2 ^ 52) by reflexivity.
    rewrite Hs in Hm2. nia. }
  split; [done|].
  assert (Hs : 2 ^ (- e1) = 2 ^ (- e2) * 2 ^ (e2 - e1)).
  { rewrite <- Z.pow_add_r by lia. f_equal; lia. }
  rewrite Hm1, Hm2, Hs. 
  assert (0 < 2 ^ (e2 - e1)) by (apply Z.pow_pos_nonneg; lia). nia.
Qed.

(** The quotient of two floats of 53 digits. *)
Lemma SFdiv_normal mp ep ml el :
  2 ^ 52 ≤ Z.pos mp < 2 ^ 53 → 2 ^ 52 ≤ Z.pos ml < 2 ^ 53 →
  -52 ≤ ep ≤ 0 → -52 ≤ el ≤ 0 →
  ∃ M r n,
    Z.pos mp * 2 ^ 53 = M * Z.pos ml + r ∧ 0 ≤ r < Z.pos ml ∧ 0 < M
    ∧ 0 ≤ n ≤ 1 ∧ Zdigits2 M = 53 + n
    ∧ SFdiv prec emax (S754_finite false mp ep) (S754_finite false ml el)
      = normal_float (Zrne (M * Z.pos ml + r) (Z.pos ml * 2 ^ n)) (ep - el - 53 + n).
Proof.
  intros Hmp Hml Hep Hel. unfold SFdiv, SFdiv_core_binary. cbn [xorb].
  rewrite (digits_53 (Z.pos mp) Hmp), (digits_53 (Z.pos ml) Hml).
  assert (He' : Z.min (fexp prec emax (53 + ep - (53 + el))) (ep - el) = ep - el - 53).
  { unfold fexp, emin, prec, emax. lia. }
  rewrite He'.
  replace (ep - el - (ep - el - 53)) with 53 by lia.
  rewrite Z.shiftl_mul_pow2 by lia.
  pose proof (Z.div_mod (Z.pos mp * 2 ^ 53) (Z.pos ml) ltac:(lia)) as Hdm.
  pose proof (Z.mod_pos_bound (Z.pos mp * 2 ^ 53) (Z.pos ml) ltac:(lia)) as Hr.
  assert (Hqr : Z.div_eucl (Z.pos mp * 2 ^ 53) (Z.pos ml)
                = ((Z.pos mp * 2 ^ 53) / Z.pos ml, (Z.pos mp * 2 ^ 53) mod Z.pos ml))
    by (unfold Z.div, Z.modulo; by destruct (Z.div_eucl _ _)).
  rewrite Hqr.
  set (M := Z.pos mp * 2 ^ 53 / Z.pos ml) in *.
  set (r := (Z.pos mp * 2 ^ 53) mod Z.pos ml) in *.
  assert (H52 : 2 ^ 52 = 4503599627370496) by reflexivity.
  assert (H53 : 2 ^ 53 = 9007199254740992) by reflexivity.
  assert (H54 : 2 ^ 54 = 18014398509481984) by reflexivity.
  assert (HMlo : 2 ^ 52 ≤ M).
  { unfold M. apply Z.div_le_lower_bound; [lia|]. rewrite H52, H53 in *. nia. }
  assert (HMhi : M < 2 ^ 54).
  { unfold M. apply Z.div_lt_upper_bound; [lia|]. rewrite H52, H53, H54 in *. nia. }
  assert (Hdig : 53 ≤ Zdigits2 M ≤ 54).
  { split.
    - assert (52 < Zdigits2 M); [apply Zdigits2_gt_iff; lia|lia].
    - apply Zdigits2_le_iff; lia. }
  exists M, r, (Zdigits2 M - 53).
  split; [lia|]. split; [done|]. split; [lia|]. split; [lia|]. split; [lia|].
  rewrite new_location_frac by lia.
  apply binary_round_aux_normal; lia.
Qed.

(** The product of two floats of 53 digits. *)
Lemma SFmul_normal mb eb m e :
  2 ^ 52 ≤ Z.pos mb < 2 ^ 53 → 2 ^ 52 ≤ Z.pos m < 2 ^ 53 →
  -1074 ≤ eb + e + 52 → eb + e + 53 < 971 →
  ∃ n,
    52 ≤ n ≤ 53 ∧ Zdigits2 (Z.pos mb * Z.pos m) = 53 + n
    ∧ SFmul prec emax (S754_finite false mb eb) (S754_finite false m e)
      = normal_float (Zrne (Z.pos mb * Z.pos m * 1 + 0) (1 * 2 ^ n)) (eb + e + n).
Proof.
  intros Hmb Hm Hlo Hhi. cbn [SFmul xorb].
  change (Z.pos (mb * m)) with (Z.pos mb * Z.pos m).
  assert (H52 : 2 ^ 52 = 4503599627370496) by reflexivity.
  assert (H53 : 2 ^ 53 = 9007199254740992) by reflexivity.
  assert (H104 : 2 ^ 104 = 4503599627370496 * 4503599627370496) by reflexivity.
  assert (H106 : 2 ^ 106 = 9007199254740992 * 9007199254740992) by reflexivity.
  assert (HMlo : 2 ^ 104 ≤ Z.pos mb * Z.pos m) by (rewrite H104, H52 in *; nia).
  assert (HMhi : Z.pos mb * Z.pos m < 2 ^ 106) by (rewrite H106, H53 in *; nia).
  assert (Hdig : 105 ≤ Zdigits2 (Z.pos mb * Z.pos m) ≤ 106).
  { split.
    - assert (104 < Zdigits2 (Z.pos mb * Z.pos m)); [apply Zdigits2_gt_iff; lia|lia].
    - apply Zdigits2_le_iff; lia. }
  exists (Zdigits2 (Z.pos mb * Z.pos m) - 53).
  split; [lia|]. split; [lia|].
  change loc_Exact with (loc_frac 0 1).
  apply binary_round_aux_normal; lia.
Qed.

Lemma normal_float_finite z e : is_finite (normal_float z e) = true.
Proof. unfold normal_float. by destruct (z <? 2 ^ 53). Qed.

(** The quotients of two ordered positive [int]s by the same [int] are
    ordered. *)
Lemma int_truediv_mono p1 p2 l :
  0 < p1 → p1 ≤ p2 → p2 < 2 ^ 53 → 0 < l < 2 ^ 53 →
  ∃ q1 q2, int_truediv p1 l = Ok q1 ∧ int_truediv p2 l = Ok q2
           ∧ normal q1 ∧ normal q2 ∧ float_le q1 q2.
Proof.
  intros Hp1 Hle Hp2 Hl. unfold int_truediv.
  destruct (Z.eqb_spec l 0) as [|_]; [lia|].
  destruct (of_int_normal p1) as (m1 & e1 & -> & He1 & Hm1 & Hb1); [lia|].
  destruct (of_int_normal p2) as (m2 & e2 & -> & He2 & Hm2 & Hb2); [lia|].
  destruct (of_int_normal l Hl) as (ml & el & -> & Hel & Hml & Hbl).
  cbn [mbind result_bind].
  destruct (SFdiv_normal m1 e1 ml el Hb1 Hbl He1 Hel)
    as (M1 & r1 & n1 & HN1 & Hr1 & HM1 & Hn1 & Hd1 & ->).
  destruct (SFdiv_normal m2 e2 ml el Hb2 Hbl He2 Hel)
    as (M2 & r2 & n2 & HN2 & Hr2 & HM2 & Hn2 & Hd2 & ->).
  rewrite !normal_float_finite. eexists _, _. split; [done|]. split; [done|].
  destruct (of_int_order p1 m1 e1 p2 m2 e2) as [He Hm]; [lia..|done|done|done|done|].
  split; [|split].
  - apply normal_float_normal; [apply Zrne_normal; lia|lia..].
  - apply normal_float_normal; [apply Zrne_normal; lia|lia..].
  - apply round_mono; try lia.
    rewrite <- HN1, <- HN2.
    replace (e2 - el - 53 - (e1 - el - 53)) with (e2 - e1) by lia.
    assert (0 < 2 ^ 53) by reflexivity. nia.
Qed.

(** The widths for two ordered fractions are ordered. *)
Lemma fill_width_mono n x y :
  0 < n < 2 ^ 53 → normal x → normal y → unit_float x → unit_float y →
  float_le x y →
  ∃ w1 w2, fill_width_of n x = Ok w1 ∧ fill_width_of n y = Ok w2 ∧ w1 ≤ w2.
Proof.
  intros Hn Hx Hy Hux Huy Hle. unfold fill_width_of, int_mul.
  destruct (of_int_normal n Hn) as (mb & eb & -> & Heb & Hmb & Hbb).
  cbn [mbind result_bind].
  destruct x as [| | |[] m1 e1], y as [| | |[] m2 e2]; try done.
  destruct Hx as [Hb1 He1], Hy as [Hb2 He2], Hux as [He1' _], Huy as [He2' _].
  destruct Hle as [He Hm].
  destruct (SFmul_normal mb eb m1 e1 Hbb Hb1) as (n1 & Hn1 & Hd1 & ->); [lia..|].
  destruct (SFmul_normal mb eb m2 e2 Hbb Hb2) as (n2 & Hn2 & Hd2 & ->); [lia..|].
  apply to_int_mono.
  apply (round_mono (Z.pos mb * Z.pos m1) 0 (eb + e1) n1
                    (Z.pos mb * Z.pos m2) 0 (eb + e2) n2 1); try lia.
  replace (eb + e2 - (eb + e1)) with (e2 - e1) by lia.
  assert (0 < 2 ^ (e2 - e1)) by (apply Z.pow_pos_nonneg; lia). nia.
Qed.

(** *** How far the rounded values are from the exact ones *)

Lemma half_unit_below_one z p l K :
  0 < l → p ≤ l → 0 ≤ K → 2 * z * l - 2 * p * K ≤ l → 2 * z ≤ 1 + 2 * K.
Proof.
  intros Hl Hp HK H.
  assert (H1 : 2 * p * K ≤ 2 * l * K) by nia.
  assert (H2 : (2 * z) * l ≤ (1 + 2 * K) * l) by lia.
  apply Z.mul_le_mono_pos_r in H2; done.
Qed.

(** Two roundings to nearest, then a floor: the result is within one of the
    exact floor. *)
Lemma pixel_error n p l m u v s t z :
  0 < l -> 0 < s -> 0 < v -> 0 < t -> 0 < u -> 0 <= n -> 0 <= p -> 0 <= m ->
  s * v = t * u -> n * t + v < 2 * (t * u) ->
  - l <= 2 * m * l - 2 * p * u <= l ->
  (2 * z - 1) * v <= 2 * (n * t) * m <= (2 * z + 1) * v ->
  n * p / l - 1 <= z / s <= n * p / l + 1.
Proof.
  intros Hl Hs Hv Ht Hu Hn Hp Hm Hsv Hbig [R1l R1r] [R2l R2r].
  pose proof (Z.div_mod (n * p) l ltac:(lia)) as HF.
  pose proof (Z.mod_pos_bound (n * p) l Hl) as HFr.
  set (F := n * p / l) in *. set (rF := (n * p) mod l) in *.
  pose proof (Z.div_mod z s ltac:(lia)) as HW.
  pose proof (Z.mod_pos_bound z s Hs) as HWr.
  set (w := z / s) in *. set (rw := z mod s) in *.
  clearbody F rF w rw.
  set (T := t * u) in *.
  assert (HT : 0 < T) by (unfold T; nia).
  (* 2 N m l against 2 (n p) T *)
  assert (E0 : 2 * (n * t) * p * u = 2 * (n * p) * T) by (unfold T; ring).
  assert (E1 : 2 * (n * t) * m * l <= (n * t) * l + 2 * (n * p) * T).
  { rewrite <- E0.
    replace (2 * (n * t) * m * l) with ((n * t) * (2 * m * l)) by ring.
    replace (n * t * l + 2 * (n * t) * p * u) with ((n * t) * (l + 2 * p * u)) by ring.
    apply Z.mul_le_mono_nonneg_l; nia. }
  assert (E2 : 2 * (n * p) * T - (n * t) * l <= 2 * (n * t) * m * l).
  { rewrite <- E0.
    replace (2 * (n * t) * m * l) with ((n * t) * (2 * m * l)) by ring.
    replace (2 * (n * t) * p * u - n * t * l) with ((n * t) * (2 * p * u - l)) by ring.
    apply Z.mul_le_mono_nonneg_l; nia. }
  split.
  - destruct (Z.le_gt_cases (F - 1) w) as [|Hlow]; [assumption|exfalso].
    assert (Hz1 : z + 1 <= (F - 1) * s) by nia.
    assert (A1 : (2 * z + 1) * v <= 2 * (F - 1) * T - v).
    { rewrite <- Hsv.
      replace (2 * (F - 1) * (s * v) - v) with ((2 * ((F - 1) * s) - 1) * v) by ring.
      apply Z.mul_le_mono_nonneg_r; lia. }
    assert (A2 : 2 * (F * l) * T - (n * t) * l <= 2 * (n * t) * m * l).
    { apply Z.le_trans with (2 * (n * p) * T - n * t * l); [|assumption].
      apply Z.sub_le_mono_r. apply Z.mul_le_mono_nonneg_r; lia. }
    assert (A3 : 2 * (n * t) * m * l <= (2 * (F - 1) * T - v) * l).
    { apply Z.mul_le_mono_nonneg_r; lia. }
    assert (A4 : (2 * F * T - n * t) * l <= (2 * (F - 1) * T - v) * l).
    { replace ((2 * F * T - n * t) * l) with (2 * (F * l) * T - n * t * l) by ring. lia. }
    apply Z.mul_le_mono_pos_r in A4; [|assumption]. lia.
  - destruct (Z.le_gt_cases w (F + 1)) as [|Hhigh]; [assumption|exfalso].
    assert (Hz1 : (F + 2) * s <= z) by nia.
    assert (A1 : 2 * (F + 2) * T - v <= (2 * z - 1) * v).
    { rewrite <- Hsv.
      replace (2 * (F + 2) * (s * v) - v) with ((2 * ((F + 2) * s) - 1) * v) by ring.
      apply Z.mul_le_mono_nonneg_r; lia. }
    assert (A2 : 2 * (n * t) * m * l <= (n * t) * l + 2 * ((F + 1) * l - 1) * T).
    { apply Z.le_trans with (n * t * l + 2 * (n * p) * T); [assumption|].
      apply Z.add_le_mono_l. apply Z.mul_le_mono_nonneg_r; lia. }
    assert (A3 : (2 * (F + 2) * T - v) * l <= 2 * (n * t) * m * l).
    { apply Z.mul_le_mono_nonneg_r; lia. }
    assert (A4 : (2 * (F + 2) * T - v) * l < (n * t + 2 * (F + 1) * T) * l).
    { replace ((n * t + 2 * (F + 1) * T) * l)
        with (n * t * l + 2 * ((F + 1) * l - 1) * T + 2 * T) by ring. lia. }
    apply Z.mul_lt_mono_pos_r in A4; [|assumption]. lia.
Qed.

(** The quotient of [p] by [l], for [0 < p ≤ l]: a float [m * 2^e] of 53
    digits that is at most one, within [2^(e - 1)] of [p / l]. *)
Lemma int_truediv_error p l :
  0 < p → p ≤ l → l < 2 ^ 53 →
  ∃ m e, int_truediv p l = Ok (S754_finite false m e)
         ∧ 2 ^ 52 ≤ Z.pos m < 2 ^ 53 ∧ -106 ≤ e ≤ -52
         ∧ (e = -52 → Z.pos m = 2 ^ 52)
         ∧ - l ≤ 2 * Z.pos m * l - 2 * p * 2 ^ (- e) ≤ l.
Proof.
  intros Hp Hle Hl. unfold int_truediv.
  destruct (Z.eqb_spec l 0) as [|_]; [lia|].
  destruct (of_int_normal p) as (mp & ep & -> & Hep & Hmp & Hbp); [lia|].
  destruct (of_int_normal l) as (ml & el & -> & Hel & Hml & Hbl); [lia|].
  cbn [mbind result_bind].
  destruct (SFdiv_normal mp ep ml el Hbp Hbl Hep Hel)
    as (M & r & n & HN & Hr & HM & Hn & Hd & ->).
  rewrite normal_float_finite.
  pose proof (Zrne_normal M r (Z.pos ml) n ltac:(lia) Hr HM ltac:(lia) Hd) as Hz.
  assert (Hpn : 0 < 2 ^ n) by (apply Z.pow_pos_nonneg; lia).
  destruct (Zrne_spec (M * Z.pos ml + r) (Z.pos ml * 2 ^ n) ltac:(nia)) as [Hspec _].
  set (z := Zrne (M * Z.pos ml + r) (Z.pos ml * 2 ^ n)) in *.
  set (a := ep - el - 53 + n).
  assert (Ha0 : a ≤ 1) by (unfold a; lia).
  (* the error of [z * 2^a] *)
  assert (Hpel : 0 < 2 ^ (- el)) by (apply Z.pow_pos_nonneg; lia).
  assert (Hpep : 0 < 2 ^ (- ep)) by (apply Z.pow_pos_nonneg; lia).
  assert (H52 : 2 ^ 52 = 4503599627370496) by reflexivity.
  assert (H53 : 2 ^ 53 = 9007199254740992) by reflexivity.
  (* [a ≤ -52], from [p ≤ l] *)
  assert (Hcross : Z.pos mp * 2 ^ (- el) ≤ Z.pos ml * 2 ^ (- ep)).
  { rewrite Hmp, Hml. nia. }
  assert (Ha : a ≤ -52).
  { destruct (Z.le_gt_cases a (-52)) as [|Hgt]; [done|exfalso].
    (* then 2^(ep - el + n) ≥ 2^2, and z * 2^n * ml ≤ mp * 2^53 + ml * 2^n / 2 *)
    assert (Hk : 0 ≤ ep - el + n - 2) by (unfold a in Hgt; lia).
    assert (Hs : 2 ^ (- el) * 2 ^ n = 4 * 2 ^ (ep - el + n - 2) * 2 ^ (- ep)).
    { change 4 with (2 ^ 2). rewrite <- !Z.pow_add_r by lia. f_equal; lia. }
    assert (Hq : 1 ≤ 2 ^ (ep - el + n - 2)).
    { assert (0 < 2 ^ (ep - el + n - 2)) by (apply Z.pow_pos_nonneg; lia). lia. }
    rewrite <- HN in Hspec.
    assert (Hx : Z.pos mp * (2 ^ (- el) * 2 ^ n) ≤ Z.pos ml * 2 ^ (- ep) * 2 ^ n).
    { rewrite Z.mul_assoc. apply Z.mul_le_mono_nonneg_r; lia. }
    rewrite Hs in Hx.
    assert (Hy : Z.pos mp * 4 ≤ Z.pos ml * 2 ^ n).
    { apply Z.le_trans with (Z.pos mp * (4 * 2 ^ (ep - el + n - 2))); [nia|].
      apply (Z.mul_le_mono_pos_r _ _ (2 ^ (- ep))); [done|]. lia. }
    destruct Hspec as [Hlow _]. destruct Hz as [Hz _].
    set (X := Z.pos ml * 2 ^ n) in *.
    assert (HX : 0 < X) by (unfold X; nia).
    rewrite H52 in Hz. rewrite H53 in Hlow.
    clear - Hy Hlow Hz HX. nia. }
  assert (Hsplit : 2 ^ (- ep) * 2 ^ 53 = 2 ^ (- a) * (2 ^ (- el) * 2 ^ n)).
  { rewrite <- !Z.pow_add_r by (unfold a; lia). f_equal. unfold a. lia. }
  assert (Herr : - l ≤ 2 * z * l - 2 * p * 2 ^ (- a) ≤ l).
  { rewrite <- HN, Hmp, Hml in Hspec.
    set (c := 2 ^ (- el) * 2 ^ n) in *.
    assert (Hc : 0 < c) by (unfold c; nia).
    replace (p * 2 ^ (- ep) * 2 ^ 53) with (p * 2 ^ (- a) * c) in Hspec
      by (rewrite <- !Z.mul_assoc, Hsplit; ring).
    replace (l * 2 ^ (- el) * 2 ^ n) with (l * c) in Hspec by (unfold c; ring).
    nia. }
  assert (Hpa : 2 ^ 52 ≤ 2 ^ (- a)) by (apply Z.pow_le_mono_r; lia).
  unfold normal_float. destruct (Z.ltb_spec z (2 ^ 53)) as [Hlt|Hge].
  - eexists _, _. split; [done|]. rewrite Z2Pos.id by lia.
    split; [lia|]. split; [unfold a in *; lia|]. split; [|done].
    fold a. intros Ea. rewrite Ea in Herr. change (2 ^ (- -52)) with (2 ^ 52) in Herr.
    pose proof (half_unit_below_one z p l (2 ^ 52) ltac:(lia) Hle ltac:(lia) ltac:(lia)).
    lia.
  - assert (z = 2 ^ 53) as Hz53 by lia.
    assert (Ha' : a ≤ -53).
    { destruct (Z.eq_dec a (-52)) as [Ea|]; [exfalso|lia].
      rewrite Ea in Herr. change (2 ^ (- -52)) with (2 ^ 52) in Herr.
      pose proof (half_unit_below_one z p l (2 ^ 52) ltac:(lia) Hle ltac:(lia) ltac:(lia)).
      lia. }
    eexists _, _. split; [done|].
    split; [vm_compute; split; [discriminate|reflexivity]|].
    split; [unfold a in *; lia|]. split; [done|].
    change (Z.pos (Z.to_pos (2 ^ 52))) with (2 ^ 52). fold a.
    assert (Hs2 : 2 ^ (- a) = 2 * 2 ^ (- (a + 1))).
    { change 2 with (2 ^ 1) at 2. rewrite <- Z.pow_add_r by lia. f_equal; lia. }
    rewrite Hz53, Hs2 in Herr. rewrite H52, H53 in *. lia.
Qed.

(** The clamp leaves such a quotient as it is. *)
Lemma progress_of_error p l :
  0 < p → p ≤ l → l < 2 ^ 53 →
  ∃ m e, progress_of p l = Ok (S754_finite false m e)
         ∧ 2 ^ 52 ≤ Z.pos m < 2 ^ 53 ∧ -106 ≤ e ≤ -52
         ∧ - l ≤ 2 * Z.pos m * l - 2 * p * 2 ^ (- e) ≤ l.
Proof.
  intros Hp Hle Hl.
  destruct (int_truediv_error p l Hp Hle Hl) as (m & e & Hq & Hm & He & Hone & Herr).
  exists m, e. split; [|done]. unfold progress_of. rewrite Hq. cbn [mbind result_bind].
  rewrite clamp_normal by done.
  destruct (Z.ltb_spec e (-52)) as [|Hge]; [done|].
  assert (e = -52) as -> by lia. specialize (Hone eq_refl).
  unfold one. f_equal. f_equal. apply Pos2Z.inj. rewrite Hone. reflexivity.
Qed.

Lemma to_int_normal_float z e :
  2 ^ 52 ≤ z ≤ 2 ^ 53 → e < -1 → to_int (normal_float z e) = Ok (z / 2 ^ (- e)).
Proof.
  intros Hz He. unfold normal_float.
  destruct (Z.ltb_spec z (2 ^ 53)) as [Hlt|Hge]; rewrite to_int_normal.
  - rewrite Z2Pos.id by lia.
    assert ((e <? 0) = true) as -> by (apply Z.ltb_lt; lia). done.
  - assert (z = 2 ^ 53) as -> by lia.
    assert ((e + 1 <? 0) = true) as -> by (apply Z.ltb_lt; lia).
    change (Z.pos (Z.to_pos (2 ^ 52))) with (2 ^ 52). f_equal.
    assert (Hs : 2 ^ (- e) = 2 ^ (- (e + 1)) * 2).
    { change 2 with (2 ^ 1) at 3. rewrite <- Z.pow_add_r by lia. f_equal; lia. }
    rewrite Hs. change (2 ^ 53) with (2 ^ 52 * 2).
    rewrite Z.div_mul_cancel_r; [done| |lia].
    apply Z.pow_nonzero; lia.
Qed.

(** The width for a fraction that is within half a unit of its last digit
    of [p / l] is within one of [n * p / l]. *)
Lemma fill_width_error n p l m e :
  0 < n < 2 ^ 31 → 0 < p → p ≤ l →
  2 ^ 52 ≤ Z.pos m < 2 ^ 53 → -106 ≤ e ≤ -52 →
  - l ≤ 2 * Z.pos m * l - 2 * p * 2 ^ (- e) ≤ l →
  ∃ w, fill_width_of n (S754_finite false m e) = Ok w
       ∧ n * p / l - 1 ≤ w ≤ n * p / l + 1.
Proof.
  intros Hn Hp Hle Hm He Herr. unfold fill_width_of, int_mul.
  assert (H31 : 2 ^ 31 = 2147483648) by reflexivity.
  assert (H52 : 2 ^ 52 = 4503599627370496) by reflexivity.
  assert (H53 : 2 ^ 53 = 9007199254740992) by reflexivity.
  destruct (of_int_normal n) as (mb & eb & -> & Heb & Hmb & Hbb); [lia|].
  cbn [mbind result_bind].
  assert (Heb' : eb ≤ -22).
  { destruct (Z.le_gt_cases eb (-22)) as [|Hgt]; [done|exfalso].
    assert (2 ^ (- eb) ≤ 2 ^ 21) by (apply Z.pow_le_mono_r; lia).
    change (2 ^ 21) with 2097152 in *. rewrite H31, H52 in *. nia. }
  destruct (SFmul_normal mb eb m e Hbb Hm) as (n2 & Hn2 & Hd2 & ->); [lia..|].
  set (M := Z.pos mb * Z.pos m) in *.
  assert (HM : 0 < M) by (unfold M; lia).
  pose proof (Zrne_normal M 0 1 n2 ltac:(lia) ltac:(lia) HM ltac:(lia) Hd2) as Hz.
  assert (Hv : 0 < 2 ^ n2) by (apply Z.pow_pos_nonneg; lia).
  destruct (Zrne_spec (M * 1 + 0) (1 * 2 ^ n2) ltac:(lia)) as [Hspec _].
  set (z := Zrne (M * 1 + 0) (1 * 2 ^ n2)) in *.
  rewrite to_int_normal_float by lia.
  eexists. split; [done|].
  (* the powers of two at hand *)
  set (u := 2 ^ (- e)) in *. set (v := 2 ^ n2) in *. set (t := 2 ^ (- eb)) in *.
  set (s := 2 ^ (- (eb + e + n2))).
  assert (Hsv : s * v = t * u).
  { unfold s, v, t, u. rewrite <- !Z.pow_add_r by lia. f_equal. lia. }
  assert (Hs : 0 < s) by (apply Z.pow_pos_nonneg; lia).
  assert (Hu : 2 ^ 52 ≤ u) by (apply Z.pow_le_mono_r; lia).
  assert (Ht : 2 ^ 22 ≤ t) by (apply Z.pow_le_mono_r; lia).
  assert (Hv' : v ≤ 2 ^ 53) by (apply Z.pow_le_mono_r; lia).
  assert (Hl : 0 < l) by lia.
  assert (Hspec' : (2 * z - 1) * v ≤ 2 * (n * t) * Z.pos m ≤ (2 * z + 1) * v).
  { replace (2 * (M * 1 + 0)) with (2 * M) in Hspec by ring.
    replace (1 * 2 ^ n2) with v in Hspec by (unfold v; ring).
    unfold M in Hspec. rewrite Hmb in Hspec. unfold t. lia. }
  assert (Hnt : n * t < 2 ^ 53) by (rewrite <- Hmb; lia).
  assert (Hbig : n * t + v < 2 * (t * u)).
  { assert (2 ^ 22 * 2 ^ 52 ≤ t * u) by (apply Z.mul_le_mono_nonneg; lia).
    change (2 ^ 22 * 2 ^ 52) with 18889465931478580854784 in *. lia. }
  apply (pixel_error n p l (Z.pos m) u v s t z); lia.
Qed.

(** The filled width does not decrease when the position grows. *)
Lemma fill_width_monotone bar_width length p1 p2 :
  0 ≤ bar_width < 2 ^ 53 → 0 < length < 2 ^ 53 →
  - 2 ^ 53 < p1 → p1 ≤ p2 → p2 < 2 ^ 53 →
  ∃ q1 q2 w1 w2,
    progress_of p1 length = Ok q1 ∧ progress_of p2 length = Ok q2
    ∧ fill_width_of bar_width q1 = Ok w1 ∧ fill_width_of bar_width q2 = Ok w2
    ∧ 0 ≤ w1 ∧ w1 ≤ w2 ∧ w2 ≤ bar_width.
Proof.
  intros Hb Hl Hp1 Hle Hp2.
  destruct (progress_of_ok p2 length) as (q2 & Hq2 & Hpr2 & Hu2); [lia..|].
  destruct (fill_width_of_bounds bar_width _ Hb Hu2) as (w2 & Hw2 & Hw2b).
  destruct (Z.le_gt_cases p1 0) as [Hneg|Hpos].
  - exists zero, (min one (max zero q2)), 0, w2.
    rewrite progress_of_empty by lia. rewrite fill_width_of_zero by lia.
    repeat split; auto; lia.
  - destruct (progress_of_ok p1 length) as (q1 & Hq1 & Hpr1 & Hu1); [lia..|].
    destruct (fill_width_of_bounds bar_width _ Hb Hu1) as (w1 & Hw1 & Hw1b).
    exists (min one (max zero q1)), (min one (max zero q2)), w1, w2.
    split; [done|]. split; [done|]. split; [done|]. split; [done|].
    split; [lia|]. split; [|lia].
    destruct (Z.eq_dec bar_width 0) as [->|Hb0]; [lia|].
    destruct (int_truediv_mono p1 p2 length) as (q1' & q2' & Hq1' & Hq2' & Hn1 & Hn2 & Hq);
      [lia..|].
    rewrite Hq1 in Hq1'. rewrite Hq2 in Hq2'. injection Hq1' as <-. injection Hq2' as <-.
    destruct (clamp_mono q1 q2 Hn1 Hn2 Hq) as (Hc1 & Hc2 & Hc & Hcu1 & Hcu2).
    destruct (fill_width_mono bar_width _ _ ltac:(lia) Hc1 Hc2 Hcu1 Hcu2 Hc)
      as (w1' & w2' & Hw1' & Hw2' & Hw).
    rewrite Hw1 in Hw1'. rewrite Hw2 in Hw2'. injection Hw1' as <-. injection Hw2' as <-.
    done.
Qed.

(** The filled width against the exact proportion. *)
Lemma fill_width_within_one bar_width length position :
  0 ≤ bar_width < 2 ^ 31 → 0 < length < 2 ^ 53 → 0 ≤ position ≤ length →
  ∃ q w,
    progress_of position length = Ok q ∧ fill_width_of bar_width q = Ok w
    ∧ bar_width * position / length - 1 ≤ w ≤ bar_width * position / length + 1.
Proof.
  intros Hb Hl Hp.
  assert (H31 : 2 ^ 31 < 2 ^ 53) by (apply Z.pow_lt_mono_r; lia).
  destruct (Z.eq_dec position 0) as [->|Hp0].
  { exists zero, 0. rewrite progress_of_empty, fill_width_of_zero by lia.
    rewrite Z.mul_0_r, Z.div_0_l by lia. split; [done|]. split; [done|lia]. }
  destruct (Z.eq_dec bar_width 0) as [->|Hb0].
  { destruct (progress_of_ok position length) as (q & _ & Hq & Hu); [lia..|].
    destruct (fill_width_of_bounds 0 _ ltac:(lia) Hu) as (w & Hw & Hwb).
    exists (min one (max zero q)), w. rewrite Z.mul_0_l, Z.div_0_l by lia.
    split; [done|]. split; [done|lia]. }
  destruct (progress_of_error position length) as (m & e & Hq & Hm & He & Herr); [lia..|].
  destruct (fill_width_error bar_width position length m e) as (w & Hw & Hwb); [lia..|].
  by exists (S754_finite false m e), w.
Qed.

End PyFloatRounding.

(** X21. The progress bar never shrinks while the position advances: of two
    well-typed snapshots of the same length (a second or more), the one with
    the later position is drawn with a black part at least as wide, and both
    black parts stay within the bar. Each frame has at most one black
    rectangle, none when its width would be zero. *)
Theorem progress_bar_never_shrinks (self : DisplayManager) (earlier later : dict) :
  well_typed earlier = true → well_typed later = true → geometry_ok self = true →
  10 ≤ driver_width self →
  int_field earlier "length" = int_field later "length" →
  1000000 ≤ int_field later "length" →
  int_field earlier "position" ≤ int_field later "position" →
  ∃ image1 image2 w1 w2,
    update_display self earlier = Ok image1
    ∧ update_display self later = Ok image2
    ∧ fill_rect_widths image1 = (if 0 <? w1 then [w1] else [])
    ∧ fill_rect_widths image2 = (if 0 <? w2 then [w2] else [])
    ∧ 0 ≤ w1 ∧ w1 ≤ w2 ∧ w2 ≤ driver_width self - 10.
Proof.
  intros Hwt1 Hwt2 Hgeo Hwide Hlen Hsec Hpos.
  destruct (update_display_spec self earlier Hwt1 Hgeo)
    as (hdr1 & texts1 & _ & Hops1 & Htexts1 & _ & Hsome1).
  destruct (update_display_spec self later Hwt2 Hgeo)
    as (hdr2 & texts2 & _ & Hops2 & Htexts2 & _ & Hsome2).
  destruct Hsome1 as (q1 & fw1 & image1 & Hq1 & Hfw1 & Himage1 & Himg1);
    [rewrite Hlen; by apply whole_seconds_positive|].
  destruct Hsome2 as (q2 & fw2 & image2 & Hq2 & Hfw2 & Himage2 & Himg2);
    [by apply whole_seconds_positive|].
  apply whole_seconds_positive in Hsec.
  destruct (well_typed_seconds earlier Hwt1) as [Hpr1 Hlr1].
  destruct (well_typed_seconds later Hwt2) as [Hpr2 Hlr2].
  pose proof (geometry_bar_width self Hgeo) as Hbw.
  assert (H5253 : 2 ^ 52 < 2 ^ 53) by (apply Z.pow_lt_mono_r; lia).
  assert (Hdiv : int_field earlier "position" / 1000000
                 ≤ int_field later "position" / 1000000)
    by (apply Z.div_le_mono; lia).
  destruct (PyFloatRounding.fill_width_monotone (driver_width self - 10)
              (int_field later "length" / 1000000)
              (int_field earlier "position" / 1000000)
              (int_field later "position" / 1000000))
    as (c1 & c2 & w1 & w2 & Hc1 & Hc2 & Hw1 & Hw2 & Hb);
    [lia..|].
  rewrite <- Hlen in Hc1. unfold progress_of in Hc1, Hc2.
  rewrite Hq1 in Hc1. rewrite Hq2 in Hc2. cbn [mbind result_bind] in Hc1, Hc2.
  injection Hc1 as <-. injection Hc2 as <-.
  rewrite Hfw1 in Hw1. rewrite Hfw2 in Hw2. injection Hw1 as <-. injection Hw2 as <-.
  exists image1, image2, fw1, fw2.
  split; [done|]. split; [done|]. split; [|split; [|done]].
  - unfold fill_rect_widths. rewrite Himg1, Hops1.
    rewrite omap_app, fill_rect_widths_texts by (by constructor).
    destruct (0 <? fw1); cbn; f_equal; lia.
  - unfold fill_rect_widths. rewrite Himg2, Hops2.
    rewrite omap_app, fill_rect_widths_texts by (by constructor).
    destruct (0 <? fw2); cbn; f_equal; lia.
Qed.

Lemma progress_bar_never_shrinks_witness :
  ∃ image1 image2 w1 w2,
    update_display default_display track_41_of_80 = Ok image1
    ∧ update_display default_display
        (track "Test Track" "Test Artist" "Test Album" "Playing" 60000000 80000000)
      = Ok image2
    ∧ fill_rect_widths image1 = (if 0 <? w1 then [w1] else [])
    ∧ fill_rect_widths image2 = (if 0 <? w2 then [w2] else [])
    ∧ 0 ≤ w1 ∧ w1 ≤ w2 ∧ w2 ≤ driver_width default_display - 10.
Proof.
  apply (progress_bar_never_shrinks default_display track_41_of_80
           (track "Test Track" "Test Artist" "Test Album" "Playing" 60000000 80000000));
    try reflexivity; vm_compute; discriminate.
Defined.

(** X22. The black part of the progress bar is within one pixel of the exact
    proportion: for a position between zero and the length, its width differs
    by at most one from the whole part of
    [bar_width * position_seconds / length_seconds]. The two roundings of the
    floating-point computation cost no more than that. *)
Theorem progress_bar_within_one_pixel (self : DisplayManager) (metadata : dict) :
  well_typed metadata = true → geometry_ok self = true → 10 ≤ driver_width self →
  1000000 ≤ int_field metadata "length" →
  0 ≤ int_field metadata "position" ≤ int_field metadata "length" →
  ∃ image w,
    update_display self metadata = Ok image
    ∧ fill_rect_widths image = (if 0 <? w then [w] else [])
    ∧ (driver_width self - 10) * (int_field metadata "position" / 1000000)
        / (int_field metadata "length" / 1000000) - 1 ≤ w
    ∧ w ≤ (driver_width self - 10) * (int_field metadata "position" / 1000000)
            / (int_field metadata "length" / 1000000) + 1.
Proof.
  intros Hwt Hgeo Hwide Hsec Hpos.
  destruct (update_display_spec self metadata Hwt Hgeo)
    as (hdr & texts & _ & Hops & Htexts & _ & Hsome).
  destruct Hsome as (q & fw & image & Hq & Hfw & Himage & Himg);
    [by apply whole_seconds_positive|].
  apply whole_seconds_positive in Hsec.
  destruct (well_typed_seconds metadata Hwt) as [Hpr Hlr].
  assert (Hw31 : driver_width self < 2 ^ 31).
  { revert Hgeo. unfold geometry_ok. rewrite !andb_true_iff.
    intros [[[_ H] _] _]. by apply Z.ltb_lt in H. }
  assert (H5253 : 2 ^ 52 < 2 ^ 53) by (apply Z.pow_lt_mono_r; lia).
  assert (Hdiv : 0 ≤ int_field metadata "position" / 1000000
                 ≤ int_field metadata "length" / 1000000).
  { split; [apply Z.div_pos; lia|apply Z.div_le_mono; lia]. }
  destruct (PyFloatRounding.fill_width_within_one (driver_width self - 10)
              (int_field metadata "length" / 1000000)
              (int_field metadata "position" / 1000000))
    as (c & w & Hc & Hw & Hb); [lia..|].
  unfold progress_of in Hc. rewrite Hq in Hc. cbn [mbind result_bind] in Hc.
  injection Hc as <-. rewrite Hfw in Hw. injection Hw as <-.
  exists image, fw. split; [done|]. split; [|lia].
  unfold fill_rect_widths. rewrite Himg, Hops.
  rewrite omap_app, fill_rect_widths_texts by (by constructor).
  destruct (0 <? fw); cbn; f_equal; lia.
Qed.

Lemma progress_bar_within_one_pixel_witness :
  ∃ image w,
    update_display default_display track_41_of_80 = Ok image
    ∧ fill_rect_widths image = (if 0 <? w then [w] else [])
    ∧ (driver_width default_display - 10) * (int_field track_41_of_80 "position" / 1000000)
        / (int_field track_41_of_80 "length" / 1000000) - 1 ≤ w
    ∧ w ≤ (driver_width default_display - 10)
            * (int_field track_41_of_80 "position" / 1000000)
            / (int_field track_41_of_80 "length" / 1000000) + 1.
Proof.
  apply (progress_bar_within_one_pixel default_display track_41_of_80);
    try reflexivity; vm_compute; try split; discriminate.
Defined.

(** Both deviations occur, so the bound of one pixel cannot be improved. *)
Example fill_width_can_miss_by_one :
  (progress_of 136 487 ≫= fill_width_of 105679) = Ok (105679 * 136 / 487 - 1)
  ∧ (progress_of 2048991720007 8433744567719 ≫= fill_width_of 1196052314)
    = Ok (1196052314 * 2048991720007 / 8433744567719 + 1).
Proof. split; vm_compute; reflexivity. Qed.
